(** * Books API (app.js): a shallow embedding and its properties

    The service keeps a collection of book records in one JSON file
    (books.json).  This development embeds

    - the values the handlers compute with (JSON values, JS numbers and
      strings, the property order of objects),
    - the two runtime functions the store is built on, [JSON.stringify]
      with an indent of two and [JSON.parse],
    - the file system seen through [fs.readFile], [fs.writeFile] and
      [fs.rename], with injected failures and a log of attempted operations,
    - the promise chain behind [enqueueWrite], and
    - the route handlers with the centralized error handler,

    and proves the properties of the store and of the handlers.

    Numbers.  A JS number is an IEEE double.  The embedding keeps the exact
    decimal value instead: an integer is [Int z], any other finite value is
    a decimal fraction [Frac m k] (m / 10^k).  Both agree on the safe
    integers (|z| <= 2^53 - 1), the range of every id the statements below
    speak about; the statements that depend on arithmetic say so.

    Strings.  A JS string is a sequence of 16-bit code units; [text] is a
    list of code units.  The file is read and written as text. *)

From Stdlib Require Import ZArith NArith List String Ascii Lia Bool.
From stdpp Require Import base list gmap.

Set Warnings "-register-all".
Open Scope N_scope.

(** ** Text *)

Definition text := list N.

Definition txt (s : string) : text :=
  map N_of_ascii (list_ascii_of_string s).

Definition text_eqb (a b : text) : bool := bool_decide (a = b).

Fixpoint join (sep : text) (parts : list text) : text :=
  match parts with
  | [] => []
  | [p] => p
  | p :: rest => p ++ sep ++ join sep rest
  end.

Definition is_digit (c : N) : bool := (48 <=? c) && (c <=? 57).

(** The rest of [s] after its first code unit, when that is [c]. *)
Definition eat (c : N) (s : text) : option text :=
  match s with
  | c' :: r => if c' =? c then Some r else None
  | [] => None
  end.

(** Decimal digits of a natural number, most significant first. *)
Fixpoint digits_aux (fuel : nat) (n : N) (acc : text) : text :=
  match fuel with
  | O => acc
  | S f =>
      let acc' := (48 + n mod 10) :: acc in
      if n <? 10 then acc' else digits_aux f (n / 10) acc'
  end.

Definition digits (n : N) : text :=
  digits_aux (S (N.to_nat (N.log2 n))) n [].

(** Reads the longest prefix of decimal digits: value, count, rest. *)
Fixpoint take_digits (s : text) (acc : N) (cnt : nat) : N * nat * text :=
  match s with
  | c :: r =>
      if is_digit c then take_digits r (10 * acc + (c - 48)) (S cnt)
      else (acc, cnt, s)
  | [] => (acc, cnt, [])
  end.

Definition hex_digit (d : N) : N :=
  if d <? 10 then 48 + d else 87 + d.

Definition hex_value (c : N) : option N :=
  if is_digit c then Some (c - 48)
  else if (97 <=? c) && (c <=? 102) then Some (c - 87)
  else if (65 <=? c) && (c <=? 70) then Some (c - 55)
  else None.

(** ** Numbers

    A number is kept as its exact decimal value.  The doubles of the
    runtime agree with it on NaN, on the infinities and on the safe
    integers (magnitude at most 2^53 - 1), where reading a literal, adding
    1 and printing are exact; beyond them the runtime rounds, and the
    theorems about ids stay within them (see [exact]). *)

Inductive number :=
| NaN
| Inf (neg : bool)
| Int (z : Z)
| Frac (m : Z) (k : nat).

(** m / 10^k in normal form: an integer when the division is exact. *)
Fixpoint norm_dec (m : Z) (k : nat) : number :=
  match k with
  | O => Int m
  | S k' => if (m mod 10 =? 0)%Z then norm_dec (m / 10) k' else Frac m k
  end.

(** Mantissa and number of decimals of a finite number. *)
Definition scaled (n : number) : option (Z * nat) :=
  match n with
  | Int z => Some (z, O)
  | Frac m k => Some (m, k)
  | _ => None
  end.

Definition pow10 (k : nat) : Z := (10 ^ Z.of_nat k)%Z.

(** Comparison; [None] when an operand is NaN. *)
Definition num_cmp (a b : number) : option comparison :=
  match a, b with
  | NaN, _ | _, NaN => None
  | Inf na, Inf nb =>
      Some (if na then (if nb then Eq else Lt) else (if nb then Gt else Eq))
  | Inf na, _ => Some (if na then Lt else Gt)
  | _, Inf nb => Some (if nb then Gt else Lt)
  | Int x, Int y => Some (x ?= y)%Z
  | Int x, Frac m k => Some (x * pow10 k ?= m)%Z
  | Frac m k, Int y => Some (m ?= y * pow10 k)%Z
  | Frac m1 k1, Frac m2 k2 => Some (m1 * pow10 k2 ?= m2 * pow10 k1)%Z
  end.

(** a <= b *)
Definition num_leb (a b : number) : bool :=
  match num_cmp a b with
  | Some Lt | Some Eq => true
  | _ => false
  end.

(** a === b on numbers *)
Definition num_eqb (a b : number) : bool :=
  match num_cmp a b with
  | Some Eq => true
  | _ => false
  end.

(** Math.max(a, b) on numbers *)
Definition num_max (a b : number) : number :=
  match num_cmp a b with
  | None => NaN
  | Some Lt => b
  | Some _ => a
  end.

(** a + b on numbers: the exact sum, which is the sum of the doubles when
    the operands and the result are safe integers. *)
Definition num_add (a b : number) : number :=
  match a, b with
  | NaN, _ | _, NaN => NaN
  | Inf na, Inf nb => if eqb na nb then Inf na else NaN
  | Inf na, _ => Inf na
  | _, Inf nb => Inf nb
  | Int x, Int y => Int (x + y)
  | Int x, Frac m k => norm_dec (x * pow10 k + m) k
  | Frac m k, Int y => norm_dec (m + y * pow10 k) k
  | Frac m1 k1, Frac m2 k2 =>
      norm_dec (m1 * pow10 (k2 - k1) + m2 * pow10 (k1 - k2)) (Nat.max k1 k2)
  end.

(** Number.isInteger *)
Definition is_integer (n : number) : bool :=
  match n with
  | Int _ => true
  | _ => false
  end.

Definition num_truthy (n : number) : bool :=
  match n with
  | NaN => false
  | Int 0 => false
  | _ => true
  end.

(** Largest integer below which every integer is a double. *)
Definition MAX_SAFE_INTEGER : Z := (2 ^ 53 - 1)%Z.

(** *** Number::toString

    All the digits of the exact value.  They are the digits the runtime
    writes for a safe integer; for a greater number the runtime writes the
    shortest digits of the double, which these need not be. *)

Fixpoint strip_zeros_rev (r : text) : text :=
  match r with
  | c :: r' => if c =? 48 then strip_zeros_rev r' else r
  | [] => []
  end.

Definition exp_suffix (e : Z) : text :=
  101 :: (if (e <? 0)%Z then 45 else 43) :: digits (Z.to_N (Z.abs e)).

(** The digits [s] (no trailing zero) and the exponent [n] of the value
    0.s * 10^n, laid out as Number::toString does. *)
Definition layout_digits (s : text) (n : Z) : text :=
  let k := Z.of_nat (length s) in
  if ((k <=? n) && (n <=? 21))%Z then
    s ++ repeat 48 (Z.to_nat (n - k))
  else if ((0 <? n) && (n <=? 21))%Z then
    take (Z.to_nat n) s ++ 46 :: drop (Z.to_nat n) s
  else if ((-6 <? n) && (n <=? 0))%Z then
    48 :: 46 :: repeat 48 (Z.to_nat (- n)) ++ s
  else
    match s with
    | [] => []
    | [d] => d :: exp_suffix (n - 1)
    | d :: rest => d :: 46 :: rest ++ exp_suffix (n - 1)
    end.

Definition sign_text (neg : bool) : text := if neg then [45] else [].

Definition finite_to_string (m : Z) (k : nat) : text :=
  let ds := digits (Z.to_N (Z.abs m)) in
  let s := rev (strip_zeros_rev (rev ds)) in
  let n := (Z.of_nat (length ds) - Z.of_nat k)%Z in
  sign_text (m <? 0)%Z ++ layout_digits s n.

Definition number_to_string (n : number) : text :=
  match n with
  | NaN => txt "NaN"
  | Inf neg => sign_text neg ++ txt "Infinity"
  | Int z =>
      if (Z.abs z <? 10 ^ 21)%Z then
        sign_text (z <? 0)%Z ++ digits (Z.to_N (Z.abs z))
      else finite_to_string z 0
  | Frac m k => finite_to_string m k
  end.

(** *** StringToNumber (the function behind [Number(s)])

    The exact value of the literal: no rounding to a double and no
    overflow to Infinity.  It is the value of Number(s) when it is
    [exact]. *)

(** WhiteSpace and LineTerminator code units. *)
Definition is_str_ws (c : N) : bool :=
  (c =? 9) || (c =? 10) || (c =? 11) || (c =? 12) || (c =? 13) ||
  (c =? 32) || (c =? 160) || (c =? 5760) ||
  ((8192 <=? c) && (c <=? 8202)) ||
  (c =? 8232) || (c =? 8233) || (c =? 8239) || (c =? 8287) ||
  (c =? 12288) || (c =? 65279).

Fixpoint trim_left (s : text) : text :=
  match s with
  | c :: r => if is_str_ws c then trim_left r else s
  | [] => []
  end.

Definition trim (s : text) : text :=
  rev (trim_left (rev (trim_left s))).

(** The value mant * 10^exp10 as a number. *)
Definition mk_dec (neg : bool) (mant : N) (exp10 : Z) : number :=
  let m := if neg then (- Z.of_N mant)%Z else Z.of_N mant in
  if (0 <=? exp10)%Z then Int (m * 10 ^ exp10)
  else norm_dec m (Z.to_nat (- exp10)).

(** An optional exponent part; [None] when it is malformed. *)
Definition take_exponent (s : text) : option (Z * text) :=
  match s with
  | c :: r =>
      if (c =? 101) || (c =? 69) then
        let '(neg, r1) :=
          match eat 45 r, eat 43 r with
          | Some r', _ => (true, r')
          | None, Some r' => (false, r')
          | None, None => (false, r)
          end in
        let '(e, cnt, rest) := take_digits r1 0 O in
        match cnt with
        | O => None
        | _ => Some (if neg then (- Z.of_N e)%Z else Z.of_N e, rest)
        end
      else Some (0%Z, s)
  | [] => Some (0%Z, [])
  end.

(** Digits of a radix literal (after 0x, 0o, 0b). *)
Fixpoint radix_value (radix : N) (s : text) (acc : N) : option N :=
  match s with
  | [] => Some acc
  | c :: r =>
      match hex_value c with
      | Some d => if d <? radix then radix_value radix r (radix * acc + d) else None
      | None => None
      end
  end.

Definition str_unsigned_decimal (neg : bool) (s : text) : number :=
  if text_eqb s (txt "Infinity") then Inf neg
  else
    let '(i, ci, r1) := take_digits s 0 O in
    let '(f, cf, r2) :=
      match eat 46 r1 with
      | Some r' => take_digits r' 0 O
      | None => (0, O, r1)
      end in
    match ci, cf with
    | O, O => NaN
    | _, _ =>
        match take_exponent r2 with
        | Some (e, []) =>
            mk_dec neg (i * 10 ^ N.of_nat cf + f) (e - Z.of_nat cf)
        | _ => NaN
        end
    end.

Definition StringToNumber (s : text) : number :=
  match trim s with
  | [] => Int 0
  | 48 :: p :: d :: r =>
      let radix :=
        if (p =? 120) || (p =? 88) then Some 16
        else if (p =? 111) || (p =? 79) then Some 8
        else if (p =? 98) || (p =? 66) then Some 2
        else None in
      match radix with
      | Some b =>
          match radix_value b (d :: r) 0 with
          | Some v => Int (Z.of_N v)
          | None => NaN
          end
      | None => str_unsigned_decimal false (trim s)
      end
  | 45 :: r => str_unsigned_decimal true r
  | 43 :: r => str_unsigned_decimal false r
  | r => str_unsigned_decimal false r
  end.

(** ** Values *)

Inductive jsval :=
| JUndefined
| JNull
| JBool (b : bool)
| JNum (n : number)
| JStr (s : text)
| JArr (items : list jsval)
| JObj (props : list (text * jsval)).

(** ToBoolean *)
Definition truthy (v : jsval) : bool :=
  match v with
  | JUndefined | JNull => false
  | JBool b => b
  | JNum n => num_truthy n
  | JStr s => match s with [] => false | _ => true end
  | JArr _ | JObj _ => true
  end.

Fixpoint has_key (k : text) (props : list (text * jsval)) : bool :=
  match props with
  | [] => false
  | (k', _) :: r => text_eqb k' k || has_key k r
  end.

(** ToString; [None] is the TypeError of an object that cannot be
    converted (a parsed object whose own toString property hides the
    inherited method).  An array joins the strings of its items with
    commas. *)
Fixpoint ToString (v : jsval) : option text :=
  match v with
  | JUndefined => Some (txt "undefined")
  | JNull => Some (txt "null")
  | JBool b => Some (if b then txt "true" else txt "false")
  | JNum n => Some (number_to_string n)
  | JStr s => Some s
  | JArr items =>
      match
        (fix go (l : list jsval) : option (list text) :=
           match l with
           | [] => Some []
           | x :: r =>
               match
                 match x with
                 | JUndefined | JNull => Some []
                 | _ => ToString x
                 end, go r
               with
               | Some s, Some ss => Some (s :: ss)
               | _, _ => None
               end
           end) items
      with
      | Some parts => Some (join [44] parts)
      | None => None
      end
  | JObj props =>
      if has_key (txt "toString") props then None
      else Some (txt "[object Object]")
  end.

(** ToNumber; [None] is the TypeError of [ToString]. *)
Definition ToNumber (v : jsval) : option number :=
  match v with
  | JUndefined => Some NaN
  | JNull => Some (Int 0)
  | JBool b => Some (if b then Int 1 else Int 0)
  | JNum n => Some n
  | JStr s => Some (StringToNumber s)
  | JArr _ | JObj _ =>
      match ToString v with
      | Some s => Some (StringToNumber s)
      | None => None
      end
  end.

(** *** Objects: properties in their enumeration order *)

(** A canonical array index: the decimal form of an integer below 2^32 - 1. *)
Definition array_index (k : text) : option N :=
  let '(v, cnt, rest) := take_digits k 0 O in
  match cnt, rest with
  | S _, [] =>
      if text_eqb (digits v) k && (v <? 4294967295) then Some v else None
  | _, _ => None
  end.

(** Own property lookup; [JUndefined] when the key is absent. *)
Fixpoint obj_get (k : text) (props : list (text * jsval)) : jsval :=
  match props with
  | [] => JUndefined
  | (k', v) :: r => if text_eqb k' k then v else obj_get k r
  end.

Fixpoint obj_replace (k : text) (v : jsval) (props : list (text * jsval))
  : list (text * jsval) :=
  match props with
  | [] => []
  | (k', v') :: r =>
      if text_eqb k' k then (k', v) :: r else (k', v') :: obj_replace k v r
  end.

(** A new index key goes before the first key that is not a smaller index. *)
Fixpoint obj_insert_index (i : N) (k : text) (v : jsval)
    (props : list (text * jsval)) : list (text * jsval) :=
  match props with
  | [] => [(k, v)]
  | (k', v') :: r =>
      match array_index k' with
      | Some j =>
          if j <? i then (k', v') :: obj_insert_index i k v r
          else (k, v) :: props
      | None => (k, v) :: props
      end
  end.

(** o[k] = v : an existing key keeps its place, a new index key is placed
    among the indices, any other new key goes last. *)
Definition obj_set (k : text) (v : jsval) (props : list (text * jsval))
  : list (text * jsval) :=
  if has_key k props then obj_replace k v props
  else
    match array_index k with
    | Some i => obj_insert_index i k v props
    | None => props ++ [(k, v)]
    end.

(** v.k for a value that is neither null nor undefined: none of the names
    read by the handlers is on a prototype. *)
Definition get_prop (k : text) (v : jsval) : jsval :=
  match v with
  | JObj props => obj_get k props
  | _ => JUndefined
  end.

(** ** JSON.stringify(value, null, 2) *)

Definition is_high_surrogate (c : N) : bool := (55296 <=? c) && (c <=? 56319).
Definition is_low_surrogate (c : N) : bool := (56320 <=? c) && (c <=? 57343).

Definition unicode_escape (c : N) : text :=
  [92; 117; hex_digit (c / 4096 mod 16); hex_digit (c / 256 mod 16);
   hex_digit (c / 16 mod 16); hex_digit (c mod 16)].

(** One code unit that is not a surrogate, as QuoteJSONString writes it. *)
Definition quote_unit (c : N) : text :=
  if c =? 8 then [92; 98]
  else if c =? 9 then [92; 116]
  else if c =? 10 then [92; 110]
  else if c =? 12 then [92; 102]
  else if c =? 13 then [92; 114]
  else if c =? 34 then [92; 34]
  else if c =? 92 then [92; 92]
  else if c <? 32 then unicode_escape c
  else [c].

Fixpoint quote_body (s : text) : text :=
  match s with
  | [] => []
  | c :: r =>
      if is_high_surrogate c then
        match r with
        | d :: r' =>
            if is_low_surrogate d then c :: d :: quote_body r'
            else unicode_escape c ++ quote_body r
        | [] => unicode_escape c
        end
      else if is_low_surrogate c then unicode_escape c ++ quote_body r
      else quote_unit c ++ quote_body r
  end.

(** QuoteJSONString *)
Definition quote (s : text) : text := 34 :: quote_body s ++ [34].

Definition gap : text := [32; 32].

Definition is_finite (n : number) : bool :=
  match n with
  | Int _ | Frac _ _ => true
  | _ => false
  end.

(** SerializeJSONProperty at the indentation [ind]; [None] is undefined. *)
Fixpoint serialize (ind : text) (v : jsval) {struct v} : option text :=
  match v with
  | JUndefined => None
  | JNull => Some (txt "null")
  | JBool b => Some (if b then txt "true" else txt "false")
  | JNum n => Some (if is_finite n then number_to_string n else txt "null")
  | JStr s => Some (quote s)
  | JArr items =>
      let ind' := ind ++ gap in
      let parts :=
        (fix go (l : list jsval) : list text :=
           match l with
           | [] => []
           | x :: r =>
               match serialize ind' x with
               | Some s => s
               | None => txt "null"
               end :: go r
           end) items in
      Some match parts with
           | [] => txt "[]"
           | _ => 91 :: 10 :: ind' ++ join (44 :: 10 :: ind') parts
                    ++ 10 :: ind ++ [93]
           end
  | JObj props =>
      let ind' := ind ++ gap in
      let parts :=
        (fix go (l : list (text * jsval)) : list text :=
           match l with
           | [] => []
           | (k, x) :: r =>
               match serialize ind' x with
               | Some s => (quote k ++ 58 :: 32 :: s) :: go r
               | None => go r
               end
           end) props in
      Some match parts with
           | [] => txt "{}"
           | _ => 123 :: 10 :: ind' ++ join (44 :: 10 :: ind') parts
                    ++ 10 :: ind ++ [125]
           end
  end.

Definition JSON_stringify (v : jsval) : option text := serialize [] v.

(** ** JSON.parse *)

Definition is_json_ws (c : N) : bool :=
  (c =? 9) || (c =? 10) || (c =? 13) || (c =? 32).

Fixpoint skip_ws (s : text) : text :=
  match s with
  | c :: r => if is_json_ws c then skip_ws r else s
  | [] => []
  end.

(** The characters of a string literal after the opening quote. *)
Fixpoint parse_chars (s : text) : option (text * text) :=
  match s with
  | [] => None
  | c :: r =>
      if c =? 34 then Some ([], r)
      else if c =? 92 then
        match r with
        | [] => None
        | e :: r1 =>
            let simple (x : N) :=
              match parse_chars r1 with
              | Some (str, rest) => Some (x :: str, rest)
              | None => None
              end in
            if e =? 34 then simple 34
            else if e =? 92 then simple 92
            else if e =? 47 then simple 47
            else if e =? 98 then simple 8
            else if e =? 102 then simple 12
            else if e =? 110 then simple 10
            else if e =? 114 then simple 13
            else if e =? 116 then simple 9
            else if e =? 117 then
              match r1 with
              | h1 :: h2 :: h3 :: h4 :: r2 =>
                  match hex_value h1, hex_value h2, hex_value h3, hex_value h4 with
                  | Some a, Some b, Some c', Some d =>
                      match parse_chars r2 with
                      | Some (str, rest) =>
                          Some (4096 * a + 256 * b + 16 * c' + d :: str, rest)
                      | None => None
                      end
                  | _, _, _, _ => None
                  end
              | _ => None
              end
            else None
        end
      else if c <? 32 then None
      else
        match parse_chars r with
        | Some (str, rest) => Some (c :: str, rest)
        | None => None
        end
  end.

(** A number literal: an optional minus sign, then 0 or a digit string
    without a leading zero, then an optional fraction (a dot and at least
    one digit) and an optional exponent (e or E, an optional sign, at least
    one digit).  The value is the exact value of the literal, which is the
    value JSON.parse gives when it is a safe integer. *)
Definition parse_number (s : text) : option (number * text) :=
  let '(neg, s1) :=
    match eat 45 s with
    | Some r => (true, r)
    | None => (false, s)
    end in
  let int_part :=
    match eat 48 s1 with
    | Some r => Some (0, r)
    | None =>
        let '(i, cnt, r) := take_digits s1 0 O in
        match cnt with O => None | _ => Some (i, r) end
    end in
  match int_part with
  | None => None
  | Some (i, r1) =>
      let frac_part :=
        match eat 46 r1 with
        | Some r =>
            let '(f, cnt, r') := take_digits r 0 O in
            match cnt with O => None | _ => Some (f, cnt, r') end
        | None => Some (0, O, r1)
        end in
      match frac_part with
      | None => None
      | Some (f, cf, r2) =>
          match take_exponent r2 with
          | None => None
          | Some (e, r3) =>
              Some (mk_dec neg (i * 10 ^ N.of_nat cf + f) (e - Z.of_nat cf), r3)
          end
      end
  end.

Definition expect (lit : text) (v : jsval) (s : text) : option (jsval * text) :=
  if text_eqb (take (length lit) s) lit then Some (v, drop (length lit) s)
  else None.

Inductive parsed (A : Type) :=
| Parsed (a : A) (rest : text)
| SyntaxErr
| OutOfFuel.
Arguments Parsed {A} a rest.
Arguments SyntaxErr {A}.
Arguments OutOfFuel {A}.

Definition of_option {A} (o : option (A * text)) : parsed A :=
  match o with
  | Some (a, rest) => Parsed a rest
  | None => SyntaxErr
  end.

(** A JSON value, after optional white space.  The items of an array and
    the members of an object are read until the closing bracket. *)
Fixpoint parse_value (fuel : nat) (s : text) {struct fuel} : parsed jsval :=
  match fuel with
  | O => OutOfFuel
  | S f =>
      match skip_ws s with
      | [] => SyntaxErr
      | c :: r =>
          if c =? 91 then
            match eat 93 (skip_ws r) with
            | Some r' => Parsed (JArr []) r'
            | None => parse_items f r []
            end
          else if c =? 123 then
            match eat 125 (skip_ws r) with
            | Some r' => Parsed (JObj []) r'
            | None => parse_members f r []
            end
          else if c =? 34 then
            match parse_chars r with
            | Some (str, rest) => Parsed (JStr str) rest
            | None => SyntaxErr
            end
          else if c =? 110 then of_option (expect (txt "null") JNull (c :: r))
          else if c =? 116 then of_option (expect (txt "true") (JBool true) (c :: r))
          else if c =? 102 then of_option (expect (txt "false") (JBool false) (c :: r))
          else
            match parse_number (c :: r) with
            | Some (n, rest) => Parsed (JNum n) rest
            | None => SyntaxErr
            end
      end
  end
with parse_items (fuel : nat) (s : text) (acc : list jsval) {struct fuel}
  : parsed jsval :=
  match fuel with
  | O => OutOfFuel
  | S f =>
      match parse_value f s with
      | Parsed v r =>
          match eat 44 (skip_ws r) with
          | Some r' => parse_items f r' (acc ++ [v])
          | None =>
              match eat 93 (skip_ws r) with
              | Some r' => Parsed (JArr (acc ++ [v])) r'
              | None => SyntaxErr
              end
          end
      | SyntaxErr => SyntaxErr
      | OutOfFuel => OutOfFuel
      end
  end
with parse_members (fuel : nat) (s : text) (acc : list (text * jsval))
  {struct fuel} : parsed jsval :=
  match fuel with
  | O => OutOfFuel
  | S f =>
      match eat 34 (skip_ws s) with
      | Some r =>
          match parse_chars r with
          | Some (k, r1) =>
              match eat 58 (skip_ws r1) with
              | Some r2 =>
                  match parse_value f r2 with
                  | Parsed v r3 =>
                      match eat 44 (skip_ws r3) with
                      | Some r' => parse_members f r' (obj_set k v acc)
                      | None =>
                          match eat 125 (skip_ws r3) with
                          | Some r' => Parsed (JObj (obj_set k v acc)) r'
                          | None => SyntaxErr
                          end
                      end
                  | SyntaxErr => SyntaxErr
                  | OutOfFuel => OutOfFuel
                  end
              | None => SyntaxErr
              end
          | None => SyntaxErr
          end
      | None => SyntaxErr
      end
  end.

(** JSON.parse: one value, white space around it, nothing else.  [None] is
    the SyntaxError. *)
Definition JSON_parse (s : text) : option jsval :=
  match parse_value (2 * length s + 2) s with
  | Parsed v rest =>
      match skip_ws rest with
      | [] => Some v
      | _ => None
      end
  | _ => None
  end.

(** ** Errors *)

Inductive errno := ENOENT | EACCES | EIO | ENOSPC | EMFILE | EISDIR.

(** The thrown values the program can see: a system error of [fs] carries
    a code, a SyntaxError comes from [JSON.parse], a TypeError from the
    runtime. *)
Inductive js_error :=
| SystemError (code : errno)
| SyntaxError
| TypeError.

(** err.code === 'ENOENT' *)
Definition code_is_ENOENT (e : js_error) : bool :=
  match e with
  | SystemError ENOENT => true
  | _ => false
  end.

(** err.name === 'SyntaxError' *)
Definition name_is_SyntaxError (e : js_error) : bool :=
  match e with
  | SyntaxError => true
  | _ => false
  end.

Inductive result (A : Type) :=
| Ok (a : A)
| Err (e : js_error).
Arguments Ok {A} a.
Arguments Err {A} e.

(** ** The file system *)

Inductive io_op :=
| ReadFile
| WriteFile (data : text)
| Rename.

(** An operation is logged when it is issued and when it completes. *)
Inductive io_event :=
| Issued (op : io_op)
| Completed (op : io_op) (outcome : option errno).

(** books.json, books.json.tmp, the outcome of each coming operation
    ([None] and an exhausted list: no injected failure) and the log. *)
Record world := {
  books_file : option text;
  tmp_file : option text;
  faults : list (option errno);
  log : list io_event
}.

Definition issue (op : io_op) (w : world) : world :=
  {| books_file := books_file w; tmp_file := tmp_file w;
     faults := faults w; log := log w ++ [Issued op] |}.

Definition next_fault (w : world) : option errno :=
  match faults w with
  | f :: _ => f
  | [] => None
  end.

(** The read completes: an injected ENOENT is the file having been removed
    by someone else. *)
Definition complete_read (w : world) : result text * world :=
  let done (o : option errno) (file : option text) :=
    {| books_file := file; tmp_file := tmp_file w;
       faults := tl (faults w); log := log w ++ [Completed ReadFile o] |} in
  match next_fault w with
  | Some ENOENT => (Err (SystemError ENOENT), done (Some ENOENT) None)
  | Some e => (Err (SystemError e), done (Some e) (books_file w))
  | None =>
      match books_file w with
      | Some raw => (Ok raw, done None (books_file w))
      | None => (Err (SystemError ENOENT), done (Some ENOENT) None)
      end
  end.

Definition complete_write (data : text) (w : world) : result unit * world :=
  let done (o : option errno) (tmp : option text) :=
    {| books_file := books_file w; tmp_file := tmp;
       faults := tl (faults w); log := log w ++ [Completed (WriteFile data) o] |} in
  match next_fault w with
  | Some e => (Err (SystemError e), done (Some e) (tmp_file w))
  | None => (Ok tt, done None (Some data))
  end.

Definition complete_rename (w : world) : result unit * world :=
  let done (o : option errno) (file tmp : option text) :=
    {| books_file := file; tmp_file := tmp;
       faults := tl (faults w); log := log w ++ [Completed Rename o] |} in
  match next_fault w with
  | Some e => (Err (SystemError e), done (Some e) (books_file w) (tmp_file w))
  | None =>
      match tmp_file w with
      | Some data => (Ok tt, done None (Some data) None)
      | None => (Err (SystemError ENOENT), done (Some ENOENT) (books_file w) None)
      end
  end.

(** await fs.readFile(BOOKS_FILE, 'utf8') *)
Definition readFile (w : world) : result text * world :=
  complete_read (issue ReadFile w).

(** await fs.writeFile(tmp, data, 'utf8') *)
Definition writeFile (data : text) (w : world) : result unit * world :=
  complete_write data (issue (WriteFile data) w).

(** await fs.rename(tmp, BOOKS_FILE) *)
Definition rename (w : world) : result unit * world :=
  complete_rename (issue Rename w).

(** ** The write queue *)

(** Where a running call of the write closure is suspended. *)
Inductive stage :=
| AwaitWriteFile (data : text)
| AwaitRename.

(** A promise of the queue: settled, a running call of the closure that
    writes [books], or a reaction registered on an earlier promise. *)
Inductive promise :=
| Settled (r : result unit)
| Running (books : jsval) (at_ : stage)
| Then (p : promise) (books : jsval)
| Catch (p : promise) (books : jsval).

(** The closure of writeBooksFile is called: it serializes the collection
    and issues the write of the temporary file. *)
Definition start (books : jsval) (w : world) : promise * world :=
  match JSON_stringify books with
  | Some data => (Running books (AwaitWriteFile data), issue (WriteFile data) w)
  | None => (Settled (Err TypeError), w)
  end.

(** The pending operation of a running call completes. *)
Definition resume (books : jsval) (at_ : stage) (w : world) : promise * world :=
  match at_ with
  | AwaitWriteFile data =>
      match complete_write data w with
      | (Ok _, w1) => (Running books AwaitRename, issue Rename w1)
      | (Err e, w1) => (Settled (Err e), w1)
      end
  | AwaitRename =>
      match complete_rename w with
      | (Ok _, w1) => (Settled (Ok tt), w1)
      | (Err e, w1) => (Settled (Err e), w1)
      end
  end.

(** One step of the chain: the innermost promise that is not settled
    moves; [None] when the whole chain is settled. *)
Fixpoint step (p : promise) (w : world) : option (promise * world) :=
  match p with
  | Settled _ => None
  | Running books at_ => Some (resume books at_ w)
  | Then q books =>
      match q with
      | Settled (Ok _) => Some (start books w)
      | Settled (Err e) => Some (Settled (Err e), w)
      | _ =>
          match step q w with
          | Some (q', w') => Some (Then q' books, w')
          | None => None
          end
      end
  | Catch q books =>
      match q with
      | Settled (Ok u) => Some (Settled (Ok u), w)
      | Settled (Err _) => Some (start books w)
      | _ =>
          match step q w with
          | Some (q', w') => Some (Catch q' books, w')
          | None => None
          end
      end
  end.

(** The closure of writeBooksFile run to its end. *)
Definition run_write (books : jsval) (w : world) : result unit * world :=
  match JSON_stringify books with
  | Some data =>
      match writeFile data w with
      | (Ok _, w1) => rename w1
      | (Err e, w1) => (Err e, w1)
      end
  | None => (Err TypeError, w)
  end.

(** A chain awaited to its end, with nothing else running. *)
Fixpoint settle (p : promise) (w : world) : result unit * world :=
  match p with
  | Settled r => (r, w)
  | Running books (AwaitWriteFile data) =>
      match complete_write data w with
      | (Ok _, w1) => rename w1
      | (Err e, w1) => (Err e, w1)
      end
  | Running books AwaitRename => complete_rename w
  | Then q books =>
      match settle q w with
      | (Ok _, w1) => run_write books w1
      | (Err e, w1) => (Err e, w1)
      end
  | Catch q books =>
      match settle q w with
      | (Ok u, w1) => (Ok u, w1)
      | (Err _, w1) => run_write books w1
      end
  end.

(** ** The store *)

Definition k_id : text := Eval cbv in txt "id".
Definition k_title : text := Eval cbv in txt "title".
Definition k_author : text := Eval cbv in txt "author".
Definition k_available : text := Eval cbv in txt "available".

Definition mk_book (id : jsval) (title author available : jsval) : jsval :=
  JObj [(k_id, id); (k_title, title); (k_author, author);
        (k_available, available)].

Definition SAMPLE_BOOKS : jsval :=
  JArr [mk_book (JNum (Int 1)) (JStr (txt "Atomic Habits"))
          (JStr (txt "James Clear")) (JBool true);
        mk_book (JNum (Int 2)) (JStr (txt "Deep Work"))
          (JStr (txt "Cal Newport")) (JBool false)].

(** The module state: the files and the writeQueue variable. *)
Record state := {
  st_world : world;
  writeQueue : promise
}.

(** Handlers run in this monad: a state, and a thrown error or a value. *)
Definition M (A : Type) := state -> result A * state.

Definition ret {A} (a : A) : M A := fun st => (Ok a, st).
Definition throw {A} (e : js_error) : M A := fun st => (Err e, st).
Definition bind {A B} (m : M A) (k : A -> M B) : M B :=
  fun st =>
    match m st with
    | (Ok a, st') => k a st'
    | (Err e, st') => (Err e, st')
    end.

Notation "'let*' x ':=' c 'in' k" := (bind c (fun x => k))
  (at level 10, x pattern, c at level 100, k at level 200).

Definition lift_option {A} (o : option A) : M A :=
  match o with
  | Some a => ret a
  | None => throw TypeError
  end.

(** writeQueue = writeQueue.then(() => fn()).catch(() => fn());
    return writeQueue *)
Definition enqueueWrite (books : jsval) (st : state) : state :=
  {| st_world := st_world st;
     writeQueue := Catch (Then (writeQueue st) books) books |}.

(** await of the queue's promise by the only running handler. *)
Definition await_queue : M unit :=
  fun st =>
    let '(r, w) := settle (writeQueue st) (st_world st) in
    (match r with Ok u => Ok u | Err e => Err e end,
     {| st_world := w; writeQueue := Settled r |}).

(** await writeBooksFile(books) *)
Definition writeBooksFile (books : jsval) : M unit :=
  fun st => await_queue (enqueueWrite books st).

(** { ...b } *)
Definition spread (b : jsval) : jsval :=
  match b with
  | JObj props => JObj props
  | JArr items => JObj (imap (fun i x => (digits (N.of_nat i), x)) items)
  | JStr s => JObj (imap (fun i c => (digits (N.of_nat i), JStr [c])) s)
  | _ => JObj []
  end.

Definition copy_books (books : jsval) : jsval :=
  match books with
  | JArr items => JArr (map spread items)
  | v => v
  end.

(** await readBooksFile() *)
Definition readBooksFile : M jsval :=
  fun st =>
    match readFile (st_world st) with
    | (Ok raw, w) =>
        let st1 := {| st_world := w; writeQueue := writeQueue st |} in
        match JSON_parse raw with
        | Some v => (Ok v, st1)
        | None => (Err SyntaxError, st1)
        end
    | (Err e, w) =>
        let st1 := {| st_world := w; writeQueue := writeQueue st |} in
        if code_is_ENOENT e then
          (let* _ := writeBooksFile SAMPLE_BOOKS in
           ret (copy_books SAMPLE_BOOKS)) st1
        else (Err e, st1)
    end.

(** ** The handlers *)

Record response := {
  status : Z;
  body : jsval
}.

Definition error_body (msg : string) : jsval :=
  JObj [(txt "error", JStr (txt msg))].

Definition respond (code : Z) (v : jsval) : response :=
  {| status := code; body := v |}.

(** The centralized error handler. *)
Definition error_handler (e : js_error) : response :=
  if code_is_ENOENT e then
    respond 500 (error_body "Books file missing and could not be created")
  else if name_is_SyntaxError e then
    respond 500 (error_body "Books file contains invalid JSON")
  else respond 500 (error_body "Internal server error").

(** try { ... } catch (err) { next(err) } *)
Definition handle (m : M response) (st : state) : response * state :=
  match m st with
  | (Ok r, st') => (r, st')
  | (Err e, st') => (error_handler e, st')
  end.

(** v.k; reading a property of null or undefined throws. *)
Definition member (k : text) (v : jsval) : M jsval :=
  match v with
  | JUndefined | JNull => throw TypeError
  | _ => ret (get_prop k v)
  end.

(** The receiver of an array method: anything else has no such method. *)
Definition as_array (v : jsval) : M (list jsval) :=
  match v with
  | JArr items => ret items
  | _ => throw TypeError
  end.

(** books.reduce((m, b) => Math.max(m, b.id || 0), 0) *)
Fixpoint max_id (items : list jsval) (m : number) : M number :=
  match items with
  | [] => ret m
  | b :: rest =>
      let* id := member k_id b in
      let* n := lift_option (ToNumber (if truthy id then id else JNum (Int 0))) in
      max_id rest (num_max m n)
  end.

(** b.id === id for a number id *)
Definition id_is (id : number) (v : jsval) : bool :=
  match v with
  | JNum n => num_eqb n id
  | _ => false
  end.

(** books.findIndex(b => b.id === id) *)
Fixpoint findIndex (id : number) (items : list jsval) (i : nat) : M (option nat) :=
  match items with
  | [] => ret None
  | b :: rest =>
      let* v := member k_id b in
      if id_is id v then ret (Some i) else findIndex id rest (S i)
  end.

(** books.filter(b => b.available === true) *)
Fixpoint filter_available (items : list jsval) : M (list jsval) :=
  match items with
  | [] => ret []
  | b :: rest =>
      let* v := member k_available b in
      let* rest' := filter_available rest in
      ret (match v with JBool true => b :: rest' | _ => rest' end)
  end.

(** book.k = v *)
Definition set_prop (k : text) (v : jsval) (b : jsval) : jsval :=
  match b with
  | JObj props => JObj (obj_set k v props)
  | _ => b
  end.

Definition is_undefined (v : jsval) : bool :=
  match v with
  | JUndefined => true
  | _ => false
  end.

(** GET /books *)
Definition get_books : state -> response * state :=
  handle (let* books := readBooksFile in ret (respond 200 books)).

(** GET /books/available *)
Definition get_available : state -> response * state :=
  handle (let* books := readBooksFile in
          let* items := as_array books in
          let* avail := filter_available items in
          ret (respond 200 (JArr avail))).

(** POST /books *)
Definition post_books (req_body : jsval) : state -> response * state :=
  handle (
    let* title := member k_title req_body in
    let* author := member k_author req_body in
    let* available := member k_available req_body in
    if negb (truthy title) || negb (truthy author) then
      ret (respond 400 (error_body "title and author are required"))
    else
      let* books := readBooksFile in
      let* items := as_array books in
      let* maxId := max_id items (Int 0) in
      let newBook :=
        mk_book (JNum (num_add maxId (Int 1))) title author
          (match available with JBool _ => available | _ => JBool true end) in
      let* _ := writeBooksFile (JArr (items ++ [newBook])) in
      ret (respond 201 newBook)).

(** !Number.isInteger(id) || id <= 0 *)
Definition invalid_id (id : number) : bool :=
  negb (is_integer id) || num_leb id (Int 0).

(** PUT /books/:id *)
Definition put_book (id_param : text) (req_body : jsval)
  : state -> response * state :=
  handle (
    let id := StringToNumber id_param in
    if invalid_id id then ret (respond 400 (error_body "Invalid id"))
    else
      let* title := member k_title req_body in
      let* author := member k_author req_body in
      let* available := member k_available req_body in
      if is_undefined title && is_undefined author && is_undefined available then
        ret (respond 400
               (error_body "Provide at least one of title, author, available"))
      else
        let* books := readBooksFile in
        let* items := as_array books in
        let* idx := findIndex id items O in
        match idx with
        | None => ret (respond 404 (error_body "Book not found"))
        | Some i =>
            let book := default JUndefined (items !! i) in
            let book1 :=
              if is_undefined title then book else set_prop k_title title book in
            let book2 :=
              if is_undefined author then book1
              else set_prop k_author author book1 in
            let book3 :=
              if is_undefined available then book2
              else set_prop k_available (JBool (truthy available)) book2 in
            let* _ := writeBooksFile (JArr (<[i := book3]> items)) in
            ret (respond 200 book3)
        end).

(** DELETE /books/:id *)
Definition delete_book (id_param : text) : state -> response * state :=
  handle (
    let id := StringToNumber id_param in
    if invalid_id id then ret (respond 400 (error_body "Invalid id"))
    else
      let* books := readBooksFile in
      let* items := as_array books in
      let* idx := findIndex id items O in
      match idx with
      | None => ret (respond 404 (error_body "Book not found"))
      | Some i =>
          let removed := default JUndefined (items !! i) in
          let* _ := writeBooksFile (JArr (delete i items)) in
          ret (respond 200
                 (JObj [(txt "message", JStr (txt "Deleted"));
                        (txt "book", removed)]))
      end).

(** ** Vocabulary of the statements *)

(** What may follow a number literal without extending it. *)
Definition stops (rest : text) : bool :=
  match rest with
  | [] => true
  | c :: _ => negb (is_digit c || (c =? 46) || (c =? 101) || (c =? 69))
  end.

(** White space only. *)
Definition blank (s : text) : bool := forallb is_json_ws s.

(** The parser's result once one more code unit is read. *)
Definition cons_char (c : N) (o : option (text * text)) : option (text * text) :=
  match o with
  | Some (str, rest) => Some (c :: str, rest)
  | None => None
  end.

(** The text [JSON.stringify] writes for a value inside a collection. *)
Definition ser (ind : text) (v : jsval) : text :=
  match serialize ind v with
  | Some s => s
  | None => txt "null"
  end.

Definition wrap_array (ind : text) (parts : list text) : text :=
  match parts with
  | [] => txt "[]"
  | _ => 91 :: 10 :: (ind ++ gap) ++ join (44 :: 10 :: ind ++ gap) parts
           ++ 10 :: ind ++ [93]
  end.

Definition wrap_object (ind : text) (parts : list text) : text :=
  match parts with
  | [] => txt "{}"
  | _ => 123 :: 10 :: (ind ++ gap) ++ join (44 :: 10 :: ind ++ gap) parts
           ++ 10 :: ind ++ [125]
  end.

Definition member_text (ind : text) (kv : text * jsval) : text :=
  quote kv.1 ++ 58 :: 32 :: ser ind kv.2.

(** Keys that [JSON.parse] keeps in the order of the text: pairwise
    distinct, none of them an array index. *)
Fixpoint plain_keys (ks : list text) : bool :=
  match ks with
  | [] => true
  | k :: r =>
      match array_index k with
      | Some _ => false
      | None => negb (existsb (text_eqb k) r) && plain_keys r
      end
  end.

(** Values that are written and read back unchanged: no undefined, numbers
    that are integers below 10^21 in magnitude, objects with plain keys. *)
Fixpoint storable (v : jsval) : bool :=
  match v with
  | JUndefined => false
  | JNull | JBool _ | JStr _ => true
  | JNum (Int z) => (Z.abs z <? 10 ^ 21)%Z
  | JNum _ => false
  | JArr items =>
      (fix go (l : list jsval) : bool :=
         match l with
         | [] => true
         | x :: r => storable x && go r
         end) items
  | JObj props =>
      plain_keys (map fst props) &&
      (fix go (l : list (text * jsval)) : bool :=
         match l with
         | [] => true
         | (_, x) :: r => storable x && go r
         end) props
  end.

(** Fuel that suffices to parse the text of a value. *)
Fixpoint need (v : jsval) : nat :=
  match v with
  | JArr items =>
      S ((fix go (l : list jsval) : nat :=
            match l with
            | [] => O
            | x :: r => S (need x + go r)
            end) items)
  | JObj props =>
      S ((fix go (l : list (text * jsval)) : nat :=
            match l with
            | [] => O
            | (_, x) :: r => S (need x + go r)
            end) props)
  | _ => 1%nat
  end.

Definition need_items (items : list jsval) : nat :=
  fold_right (fun x n => S (need x + n)) O items.

Definition need_members (props : list (text * jsval)) : nat :=
  fold_right (fun kv n => S (need kv.2 + n)) O props.

(** The first code unit of the text of a value. *)
Definition value_start (c : N) : bool :=
  is_digit c || (c =? 45) || (c =? 34) || (c =? 91) || (c =? 123) ||
  (c =? 110) || (c =? 116) || (c =? 102).

(** The object [JSON.parse] builds from members read in this order. *)
Definition rebuild (props acc : list (text * jsval)) : list (text * jsval) :=
  fold_left (fun a kv => obj_set kv.1 kv.2 a) props acc.

(** [v], written at any indentation after white space and followed by
    [rest], is read back as [v], leaving [rest]. *)
Definition reads_back (v : jsval) : Prop :=
  forall ind pre rest fuel,
    storable v = true -> blank pre = true -> blank ind = true ->
    stops rest = true -> (need v <= fuel)%nat ->
    parse_value fuel (pre ++ ser ind v ++ rest) = Parsed v rest.

(** *** States of the store *)

(** No failure is injected from here on. *)
Definition calm (w : world) : Prop := faults w = [].

(** The queue's promise is settled: no save is pending or running. *)
Definition idle (st : state) : Prop := exists r, writeQueue st = Settled r.

(** The world after one undisturbed read of the file. *)
Definition after_read (w : world) : world :=
  {| books_file := books_file w; tmp_file := tmp_file w; faults := [];
     log := log w ++ [Issued ReadFile;
                      Completed ReadFile
                        (match books_file w with
                         | Some _ => None
                         | None => Some ENOENT
                         end)] |}.

(** The world after one undisturbed save of the text [data]. *)
Definition after_save (data : text) (w : world) : world :=
  {| books_file := Some data; tmp_file := None; faults := [];
     log := log w ++ [Issued (WriteFile data); Completed (WriteFile data) None;
                      Issued Rename; Completed Rename None] |}.

Definition with_world (w : world) (st : state) : state :=
  {| st_world := w; writeQueue := writeQueue st |}.

Definition settled_ok (w : world) : state :=
  {| st_world := w; writeQueue := Settled (Ok tt) |}.

(** The collection the file holds, when it holds JSON. *)
Definition persisted (st : state) : option jsval :=
  match books_file (st_world st) with
  | Some raw => JSON_parse raw
  | None => None
  end.

(** *** Book records *)

Record book := {
  book_id : Z;
  book_title : text;
  book_author : text;
  book_available : bool
}.

Definition js_of_book (b : book) : jsval :=
  mk_book (JNum (Int (book_id b))) (JStr (book_title b))
    (JStr (book_author b)) (JBool (book_available b)).

Definition js_of_books (bs : list book) : jsval := JArr (map js_of_book bs).

(** max(existing ids, 0) *)
Definition max_book_id (bs : list book) : Z :=
  fold_left (fun m b => Z.max m (book_id b)) bs 0%Z.

(** The available field a created record gets from the payload. *)
Definition available_or_true (v : jsval) : jsval :=
  match v with
  | JBool b => JBool b
  | _ => JBool true
  end.

(** The payload supplies at least one of title, author, available. *)
Definition supplies_field (req_body : jsval) : bool :=
  negb (is_undefined (get_prop k_title req_body) &&
        is_undefined (get_prop k_author req_body) &&
        is_undefined (get_prop k_available req_body)).

(** No record of the collection has the id [id]. *)
Definition no_record (id : number) (items : list jsval) : Prop :=
  Forall (fun b => b <> JNull /\ b <> JUndefined /\
                   id_is id (get_prop k_id b) = false) items.

(** *** States used in examples *)

Definition world_with (file : option text) (fs : list (option errno)) : world :=
  {| books_file := file; tmp_file := None; faults := fs; log := [] |}.

(** A process that has just started, with this file on disk. *)
Definition initial_state (file : option text) : state :=
  settled_ok (world_with file []).

(** The file as seeding leaves it. *)
Definition seeded_state : state := initial_state (Some (ser [] SAMPLE_BOOKS)).

Definition sample_records : list book :=
  [ {| book_id := 1; book_title := txt "Atomic Habits";
       book_author := txt "James Clear"; book_available := true |};
    {| book_id := 2; book_title := txt "Deep Work";
       book_author := txt "Cal Newport"; book_available := false |} ].

Definition payload (title author : string) : list (text * jsval) :=
  [(k_title, JStr (txt title)); (k_author, JStr (txt author))].

(** *** The expected format of the file *)

(** A book record: positive integer id, non-empty text title and author,
    boolean available. *)
Definition is_record (v : jsval) : bool :=
  match v with
  | JObj props =>
      match obj_get k_id props, obj_get k_title props,
            obj_get k_author props, obj_get k_available props with
      | JNum (Int z), JStr (_ :: _), JStr (_ :: _), JBool _ => (0 <? z)%Z
      | _, _, _, _ => false
      end
  | _ => false
  end.

Definition id_of (v : jsval) : jsval := get_prop k_id v.

(** An ordered collection of book records. *)
Definition is_collection (v : jsval) : bool :=
  match v with
  | JArr items => forallb is_record items
  | _ => false
  end.

(** Number of writes of the temporary file that were issued. *)
Fixpoint writes_issued (l : list io_event) : nat :=
  match l with
  | [] => O
  | Issued (WriteFile _) :: r => S (writes_issued r)
  | _ :: r => writes_issued r
  end.

Fixpoint reads_issued (l : list io_event) : nat :=
  match l with
  | [] => O
  | Issued ReadFile :: r => S (reads_issued r)
  | _ :: r => reads_issued r
  end.

(** *** The data model on typed records *)



(** Position of the first record with the id [z]. *)
Fixpoint index_of (z : Z) (bs : list book) : option nat :=
  match bs with
  | [] => None
  | b :: r => if (book_id b =? z)%Z then Some O else S <$> index_of z r
  end.

(** The record a partial update makes of [b]. *)
Definition updated (title author available : jsval) (b : book) : book :=
  {| book_id := book_id b;
     book_title := match title with JStr t => t | _ => book_title b end;
     book_author := match author with JStr a => a | _ => book_author b end;
     book_available :=
       if is_undefined available then book_available b else truthy available |}.


(** The record create makes from a payload. *)
Definition created (id : Z) (title author : text) (available : jsval) : book :=
  {| book_id := id; book_title := title; book_author := author;
     book_available := match available with JBool b => b | _ => true end |}.

(** Successive creates, in order. *)
Fixpoint post_all (bodies : list jsval) (st : state) : list response * state :=
  match bodies with
  | [] => ([], st)
  | b :: rest =>
      let '(r, st1) := post_books b st in
      let '(rs, st2) := post_all rest st1 in
      (r :: rs, st2)
  end.

(** A payload whose title and author are non-empty text. *)
Definition text_payload (v : jsval) : Prop :=
  exists props t a,
    v = JObj props /\ obj_get k_title props = JStr t /\ t <> [] /\
    obj_get k_author props = JStr a /\ a <> [].

(** A field of a create payload that is absent or text. *)
Definition absent_or_any_text (v : jsval) : Prop :=
  v = JUndefined \/ exists t, v = JStr t.

(** *** Saves that overlap in time *)

(** What happens to the queue: a handler submits a save, or the chain
    moves by one step (an operation completes, a reaction runs). *)
Inductive event :=
| Submit (books : jsval)
| Tick.

(** A handler calls writeBooksFile(books), which calls enqueueWrite: the
    reactions are registered on the queue and nothing runs yet.  A tick
    moves the chain in the queue by one step. *)
Definition exec (ev : event) (st : state) : state :=
  match ev with
  | Submit books => enqueueWrite books st
  | Tick =>
      match step (writeQueue st) (st_world st) with
      | Some (p, w) => {| st_world := w; writeQueue := p |}
      | None => st
      end
  end.

Definition run (evs : list event) (st : state) : state :=
  fold_left (fun st ev => exec ev st) evs st.

(** The collections submitted, in submission order. *)
Fixpoint submitted (evs : list event) : list jsval :=
  match evs with
  | [] => []
  | Submit books :: r => books :: submitted r
  | Tick :: r => submitted r
  end.

Fixpoint ticks (n : nat) (st : state) : state :=
  match n with
  | O => st
  | S n' => ticks n' (exec Tick st)
  end.

(** await writeBooksFile(books) with nothing else running: one save run to
    its end before anything else. *)
Definition save_alone (books : jsval) (st : state) : state :=
  (writeBooksFile books st).2.

Definition saves_in_order (saves : list jsval) (st : state) : state :=
  fold_left (fun st books => save_alone books st) saves st.

(** Steps the chain still has to make, at most. *)
Fixpoint weight (p : promise) : nat :=
  match p with
  | Settled _ => 0
  | Running _ (AwaitWriteFile _) => 2
  | Running _ AwaitRename => 1
  | Then q _ => weight q + 3
  | Catch q _ => weight q + 3
  end.

(** The operation a chain is waiting for. *)
Fixpoint pending (p : promise) : option io_op :=
  match p with
  | Settled _ => None
  | Running _ (AwaitWriteFile data) => Some (WriteFile data)
  | Running _ AwaitRename => Some Rename
  | Then q _ => pending q
  | Catch q _ => pending q
  end.

Definition io_op_eqb (a b : io_op) : bool :=
  match a, b with
  | ReadFile, ReadFile => true
  | WriteFile d1, WriteFile d2 => text_eqb d1 d2
  | Rename, Rename => true
  | _, _ => false
  end.

(** Reads a log in which at most one operation is in flight at any time:
    an operation is issued only when none is in flight, and the operation
    that completes is the one in flight.  The result is the operation in
    flight at the end; [None] when the log is not of that shape. *)
Fixpoint scan (in_flight : option io_op) (l : list io_event)
  : option (option io_op) :=
  match l with
  | [] => Some in_flight
  | Issued op :: r =>
      match in_flight with
      | None => scan (Some op) r
      | Some _ => None
      end
  | Completed op _ :: r =>
      match in_flight with
      | Some op' => if io_op_eqb op op' then scan None r else None
      | None => None
      end
  end.

(** No two operations overlap, and none is in flight at the end. *)
Definition one_at_a_time (l : list io_event) : Prop := scan None l = Some None.

(** The operations of the save of the text [data]. *)
Definition about (data : text) (e : io_event) : Prop :=
  match e with
  | Issued (WriteFile d) | Completed (WriteFile d) _ => d = data
  | Issued Rename | Completed Rename _ => True
  | _ => False
  end.

(** The part of the log that belongs to one save: it begins with the write
    of that save's text and holds nothing of another save. *)
Definition block_of (books : jsval) (blk : list io_event) : Prop :=
  match JSON_stringify books with
  | Some data =>
      (exists l, blk = Issued (WriteFile data) :: l) /\ Forall (about data) blk
  | None => blk = []
  end.

(** A log made of one block for each save, in the order of the saves. *)
Fixpoint in_blocks (saves : list jsval) (l : list io_event) : Prop :=
  match saves with
  | [] => l = []
  | books :: rest =>
      exists blk l', l = blk ++ l' /\ block_of books blk /\ in_blocks rest l'
  end.

(** ** Arrays and records by reference

    The handlers above compute with values.  That is faithful as long as an
    array or a record they mutate is reachable from one place only.  The
    one place where the source could share is the seed constant
    SAMPLE_BOOKS, which [readBooksFile] serializes and copies.  Here the
    collection arrays and their records live in a heap, so that sharing can
    be stated; properties of a record hold values. *)

Abbreviation loc := nat.

(** An item of an array: a reference to a record, or a value that is not
    an object. *)
Inductive slot :=
| Ref (l : loc)
| Val (v : jsval).

Inductive cell :=
| ArrayCell (items : list slot)
| ObjectCell (props : list (text * jsval)).

Abbreviation heap := (list cell).

(** A new object: its location has never been used. *)
Definition alloc (c : cell) (h : heap) : loc * heap := (length h, h ++ [c]).

Definition read_slot (h : heap) (s : slot) : option jsval :=
  match s with
  | Val v => Some v
  | Ref l =>
      match h !! l with
      | Some (ObjectCell props) => Some (JObj props)
      | _ => None
      end
  end.

Fixpoint read_slots (h : heap) (items : list slot) : option (list jsval) :=
  match items with
  | [] => Some []
  | s :: r =>
      match read_slot h s, read_slots h r with
      | Some v, Some vs => Some (v :: vs)
      | _, _ => None
      end
  end.

(** The value a reference denotes in the heap [h]. *)
Definition read (h : heap) (s : slot) : option jsval :=
  match s with
  | Val v => Some v
  | Ref l =>
      match h !! l with
      | Some (ObjectCell props) => Some (JObj props)
      | Some (ArrayCell items) =>
          match read_slots h items with
          | Some vs => Some (JArr vs)
          | None => None
          end
      | None => None
      end
  end.

(** The objects a value consists of, allocated afresh (what JSON.parse and
    an array or object literal do). *)
Definition alloc_item (v : jsval) (h : heap) : slot * heap :=
  match v with
  | JObj props => let '(l, h') := alloc (ObjectCell props) h in (Ref l, h')
  | _ => (Val v, h)
  end.

Fixpoint alloc_items (items : list jsval) (h : heap) : list slot * heap :=
  match items with
  | [] => ([], h)
  | v :: r =>
      let '(s, h1) := alloc_item v h in
      let '(ss, h2) := alloc_items r h1 in
      (s :: ss, h2)
  end.

Definition alloc_value (v : jsval) (h : heap) : slot * heap :=
  match v with
  | JArr items =>
      let '(ss, h1) := alloc_items items h in
      let '(l, h2) := alloc (ArrayCell ss) h1 in
      (Ref l, h2)
  | _ => alloc_item v h
  end.

(** b => ({ ...b }) on the items of an array: one new record per item. *)
Fixpoint copy_items (h0 : heap) (items : list slot) (h : heap)
  : list slot * heap :=
  match items with
  | [] => ([], h)
  | s :: r =>
      let props :=
        match read_slot h0 s with
        | Some v => match spread v with JObj p => p | _ => [] end
        | None => []
        end in
      let '(l, h1) := alloc (ObjectCell props) h in
      let '(ss, h2) := copy_items h0 r h1 in
      (Ref l :: ss, h2)
  end.

(** arr.map(b => ({ ...b })) *)
Definition copy_array (l : loc) (h : heap) : option (slot * heap) :=
  match h !! l with
  | Some (ArrayCell items) =>
      let '(ss, h1) := copy_items h items h in
      let '(l', h2) := alloc (ArrayCell ss) h1 in
      Some (Ref l', h2)
  | _ => None
  end.

(** The module constant: the array at 0, its two records at 1 and 2. *)
Definition SAMPLE_BOOKS_ref : loc := O.

Definition initial_heap : heap :=
  match SAMPLE_BOOKS with
  | JArr [JObj p1; JObj p2] =>
      [ArrayCell [Ref 1%nat; Ref 2%nat]; ObjectCell p1; ObjectCell p2]
  | _ => []
  end.

(** The cells of the seed constant are as the module created them. *)
Definition seed_intact (h : heap) : Prop :=
  forall l, (l < 3)%nat -> h !! l = initial_heap !! l.

Record ref_state := {
  rs_heap : heap;
  rs_store : state
}.

(** readBooksFile, returning a reference. *)
Definition readBooksFile_ref (rs : ref_state) : result slot * ref_state :=
  let h := rs_heap rs in
  let st := rs_store rs in
  match readFile (st_world st) with
  | (Ok raw, w) =>
      let st1 := {| st_world := w; writeQueue := writeQueue st |} in
      match JSON_parse raw with
      | Some v =>
          let '(s, h') := alloc_value v h in
          (Ok s, {| rs_heap := h'; rs_store := st1 |})
      | None => (Err SyntaxError, {| rs_heap := h; rs_store := st1 |})
      end
  | (Err e, w) =>
      let st1 := {| st_world := w; writeQueue := writeQueue st |} in
      if code_is_ENOENT e then
        match read h (Ref SAMPLE_BOOKS_ref) with
        | Some seed =>
            match writeBooksFile seed st1 with
            | (Ok _, st2) =>
                match copy_array SAMPLE_BOOKS_ref h with
                | Some (s, h') => (Ok s, {| rs_heap := h'; rs_store := st2 |})
                | None => (Err TypeError, {| rs_heap := h; rs_store := st2 |})
                end
            | (Err e', st2) => (Err e', {| rs_heap := h; rs_store := st2 |})
            end
        | None => (Err TypeError, {| rs_heap := h; rs_store := st1 |})
        end
      else (Err e, {| rs_heap := h; rs_store := st1 |})
  end.

(** The references reachable from a returned collection: the array and the
    records it holds. *)
Definition reachable (h : heap) (s : slot) : list loc :=
  match s with
  | Val _ => []
  | Ref l =>
      l :: match h !! l with
           | Some (ArrayCell items) =>
               flat_map (fun s => match s with Ref l' => [l'] | Val _ => [] end)
                 items
           | _ => []
           end
  end.

(** Any mutation of the objects at [targets], and of nothing else. *)
Definition mutated (targets : list loc) (h h' : heap) : Prop :=
  forall l, l ∉ targets -> h' !! l = h !! l.

(** ** Vocabulary of the handlers' further properties *)

(** b.available === true *)
Definition available_true (b : jsval) : bool :=
  match get_prop k_available b with
  | JBool true => true
  | _ => false
  end.

Definition is_array (v : jsval) : bool :=
  match v with
  | JArr _ => true
  | _ => false
  end.

(** A value whose properties can be read: neither null nor undefined. *)
Definition readable (v : jsval) : Prop := v <> JNull /\ v <> JUndefined.

(** The answer to an error that is neither ENOENT nor a SyntaxError. *)
Definition internal_error : response :=
  respond 500 (error_body "Internal server error").

(** The events one read adds to the log. *)
Definition read_events (o : option errno) : list io_event :=
  [Issued ReadFile; Completed ReadFile o].

(** The events a failed write of the temporary file adds to the log. *)
Definition failed_write_events (data : text) (e : errno) : list io_event :=
  [Issued (WriteFile data); Completed (WriteFile data) (Some e)].

(** { message: 'Deleted', book: removed } *)
Definition deleted_body (removed : jsval) : jsval :=
  JObj [(txt "message", JStr (txt "Deleted")); (txt "book", removed)].

(** *** Two creates that overlap *)

(** What POST /books holds when it reaches its second await: the answer of
    the validation, or the collection to save and the new record. *)
Inductive prepared :=
| Rejected (r : response)
| Ready (books : list jsval) (newBook : jsval).

(** POST /books up to its second await (the await of the save). *)
Definition post_books_prepare (req_body : jsval) : M prepared :=
  let* title := member k_title req_body in
  let* author := member k_author req_body in
  let* available := member k_available req_body in
  if negb (truthy title) || negb (truthy author) then
    ret (Rejected (respond 400 (error_body "title and author are required")))
  else
    let* books := readBooksFile in
    let* items := as_array books in
    let* maxId := max_id items (Int 0) in
    let newBook :=
      mk_book (JNum (num_add maxId (Int 1))) title author
        (match available with JBool _ => available | _ => JBool true end) in
    ret (Ready (items ++ [newBook]) newBook).

(** POST /books from its second await on. *)
Definition post_books_commit (p : result prepared * state)
  : response * state :=
  match p with
  | (Ok (Rejected r), st) => (r, st)
  | (Ok (Ready books newBook), st) =>
      handle (let* _ := writeBooksFile (JArr books) in
              ret (respond 201 newBook)) st
  | (Err e, st) => (error_handler e, st)
  end.

(** Two POST requests of which the second is received while the first
    awaits its load: both have loaded when the first one saves. *)
Definition overlapping_creates (body1 body2 : jsval) (st : state)
  : response * response * state :=
  let '(p1, st1) := post_books_prepare body1 st in
  let '(p2, st2) := post_books_prepare body2 st1 in
  let '(r1, st3) := post_books_commit (p1, st2) in
  let '(r2, st4) := post_books_commit (p2, st3) in
  (r1, r2, st4).

(** ** Numbers the model shares with the runtime *)

(** The numbers on which the exact values of this model are the doubles of
    the runtime: NaN, the infinities and the safe integers.  A literal
    whose exact value is one of them is read as that value by Number() and
    by JSON.parse. *)
Definition exact (n : number) : bool :=
  match n with
  | NaN | Inf _ => true
  | Int z => (Z.abs z <=? MAX_SAFE_INTEGER)%Z
  | Frac _ _ => false
  end.

(** The id of a record, when it is a number, is one of them. *)
Definition exact_id (b : jsval) : bool :=
  match get_prop k_id b with
  | JNum n => exact n
  | _ => true
  end.

(** Values that are written and read back unchanged by the runtime too:
    [storable], with every number a safe integer. *)
Fixpoint safe_value (v : jsval) : bool :=
  match v with
  | JUndefined => false
  | JNull | JBool _ | JStr _ => true
  | JNum (Int z) => (Z.abs z <=? MAX_SAFE_INTEGER)%Z
  | JNum _ => false
  | JArr items =>
      (fix go (l : list jsval) : bool :=
         match l with
         | [] => true
         | x :: r => safe_value x && go r
         end) items
  | JObj props =>
      plain_keys (map fst props) &&
      (fix go (l : list (text * jsval)) : bool :=
         match l with
         | [] => true
         | (_, x) :: r => safe_value x && go r
         end) props
  end.

(** Ids that are safe integers. *)
Definition safe_ids (bs : list book) : Prop :=
  Forall (fun b => (Z.abs (book_id b) <= MAX_SAFE_INTEGER)%Z) bs.

(** A collection that is not the seed. *)
Definition shelf_records : list book :=
  [ {| book_id := 7; book_title := txt "Dune";
       book_author := txt "Frank Herbert"; book_available := false |};
    {| book_id := 3; book_title := txt "Emma";
       book_author := txt "Jane Austen"; book_available := true |} ].

(** The answer of update to a payload that supplies no field. *)
Definition no_field_answer : response :=
  respond 400 (error_body "Provide at least one of title, author, available").


(** * Properties *)

(** ** Digits *)

Lemma is_digit_spec c : is_digit c = true <-> 48 <= c <= 57.
Proof. unfold is_digit. rewrite andb_true_iff, !N.leb_le. tauto. Qed.

Lemma is_digit_false c : is_digit c = false <-> c < 48 \/ 57 < c.
Proof.
  unfold is_digit. rewrite andb_false_iff, !N.leb_gt. tauto.
Qed.

Lemma mod10_bounds n : 0 <= n mod 10 /\ n mod 10 < 10.
Proof. split; [apply N.le_0_l | apply N.mod_upper_bound; lia]. Qed.

Lemma digits_aux_app fuel : forall n acc,
  digits_aux fuel n acc = digits_aux fuel n [] ++ acc.
Proof.
  induction fuel as [|f IH]; intros n acc; simpl; [done|].
  destruct (n <? 10); [done|].
  rewrite (IH _ (_ :: acc)), (IH _ [_]), <- app_assoc. done.
Qed.

(** The value of a digit string, continuing from [acc]. *)
Lemma take_digits_app ds : forall rest acc cnt,
  Forall (fun c => is_digit c = true) ds ->
  take_digits (ds ++ rest) acc cnt =
  take_digits rest (fold_left (fun a c => 10 * a + (c - 48)) ds acc)
    (length ds + cnt)%nat.
Proof.
  induction ds as [|d ds IH]; intros rest acc cnt Hd; simpl; [done|].
  inversion Hd as [|? ? Hd1 Hd2]; subst. rewrite Hd1, IH by done.
  f_equal. lia.
Qed.

Lemma take_digits_stop rest acc cnt :
  match rest with [] => True | c :: _ => is_digit c = false end ->
  take_digits rest acc cnt = (acc, cnt, rest).
Proof. destruct rest as [|c r]; simpl; [done|]. by intros ->. Qed.

Lemma digits_aux_spec f : forall n,
  n < 10 ^ N.of_nat (S f) ->
  Forall (fun c => is_digit c = true) (digits_aux (S f) n []) /\
  (forall acc,
     fold_left (fun a c => 10 * a + (c - 48)) (digits_aux (S f) n []) acc
     = acc * 10 ^ N.of_nat (length (digits_aux (S f) n [])) + n) /\
  (0 < length (digits_aux (S f) n []))%nat /\
  (0 < n -> exists c r, digits_aux (S f) n [] = c :: r /\ c <> 48).
Proof.
  induction f as [|f IH]; intros n Hn.
  - assert (Hlt : n < 10) by (simpl in Hn; lia).
    cbn [digits_aux]. apply N.ltb_lt in Hlt as Hb. rewrite Hb.
    repeat split.
    + constructor; [|constructor]. apply is_digit_spec.
      rewrite N.mod_small by done. lia.
    + intros acc. simpl. rewrite N.mod_small by done. lia.
    + simpl. lia.
    + intros Hpos. eexists _, _. split; [done|].
      rewrite N.mod_small by done. lia.
  - remember (S f) as f' eqn:Hf'. cbn [digits_aux].
    destruct (N.ltb_spec n 10) as [Hlt|Hge].
    + destruct f'; [done|]. repeat split.
      * constructor; [|constructor]. apply is_digit_spec.
        rewrite N.mod_small by done. lia.
      * intros acc. simpl. rewrite N.mod_small by done. lia.
      * simpl. lia.
      * intros Hpos. eexists _, _. split; [done|].
        rewrite N.mod_small by done. lia.
    + assert (Hdiv : n / 10 < 10 ^ N.of_nat f').
      { apply N.Div0.div_lt_upper_bound.
        replace (N.of_nat (S f')) with (N.succ (N.of_nat f')) in Hn by lia.
        rewrite N.pow_succ_r' in Hn. done. }
      destruct (IH _ Hdiv) as (Hall & Hval & Hlen & Hhd).
      rewrite digits_aux_app. repeat split.
      * apply Forall_app. split; [done|]. constructor; [|constructor].
        apply is_digit_spec. pose proof (mod10_bounds n). lia.
      * intros acc. rewrite fold_left_app, Hval. simpl.
        rewrite length_app. simpl.
        replace (N.of_nat (length (digits_aux f' (n / 10) []) + 1))
          with (N.succ (N.of_nat (length (digits_aux f' (n / 10) [])))) by lia.
        rewrite N.pow_succ_r'.
        pose proof (N.div_mod n 10 ltac:(lia)).
        pose proof (mod10_bounds n). nia.
      * rewrite length_app. simpl. lia.
      * intros _. destruct Hhd as (c & r & -> & Hc).
        { apply N.div_str_pos. lia. }
        eexists _, _. split; [done|done].
Qed.

Lemma digits_fuel n : n < 10 ^ N.of_nat (S (N.to_nat (N.log2 n))).
Proof.
  destruct (N.eq_dec n 0) as [->|Hn]; [done|].
  replace (N.of_nat (S (N.to_nat (N.log2 n)))) with (N.succ (N.log2 n)) by lia.
  apply N.lt_le_trans with (2 ^ N.succ (N.log2 n)).
  - apply N.log2_spec. lia.
  - apply N.pow_le_mono_l. lia.
Qed.

Lemma digits_all n : Forall (fun c => is_digit c = true) (digits n).
Proof. apply digits_aux_spec, digits_fuel. Qed.

Lemma digits_value n acc :
  fold_left (fun a c => 10 * a + (c - 48)) (digits n) acc
  = acc * 10 ^ N.of_nat (length (digits n)) + n.
Proof. apply digits_aux_spec, digits_fuel. Qed.

Lemma digits_nonempty n : (0 < length (digits n))%nat.
Proof. apply digits_aux_spec, digits_fuel. Qed.

Lemma digits_head n : 0 < n -> exists c r, digits n = c :: r /\ c <> 48.
Proof. apply digits_aux_spec, digits_fuel. Qed.

Lemma digits_zero : digits 0 = [48].
Proof. reflexivity. Qed.

(** Reading back the digits of [n]. *)
Lemma take_digits_digits n rest :
  match rest with [] => True | c :: _ => is_digit c = false end ->
  take_digits (digits n ++ rest) 0 O = (n, length (digits n), rest).
Proof.
  intros Hrest. rewrite take_digits_app by apply digits_all.
  rewrite digits_value, take_digits_stop by done.
  repeat f_equal; lia.
Qed.

(** ** String literals *)

Lemma hex_split c : c < 65536 ->
  4096 * (c / 4096 mod 16) + 256 * (c / 256 mod 16) + 16 * (c / 16 mod 16)
  + c mod 16 = c.
Proof. intros H. zify. Z.to_euclidean_division_equations. lia. Qed.

Lemma hex_value_digit d : d < 16 -> hex_value (hex_digit d) = Some d.
Proof.
  intros H. unfold hex_value, hex_digit, is_digit.
  destruct (N.ltb_spec d 10).
  - replace ((48 <=? 48 + d) && (48 + d <=? 57)) with true.
    2:{ symmetry. apply andb_true_iff. rewrite !N.leb_le. lia. }
    f_equal. lia.
  - replace ((48 <=? 87 + d) && (87 + d <=? 57)) with false.
    2:{ symmetry. apply andb_false_iff. rewrite !N.leb_gt. lia. }
    replace ((97 <=? 87 + d) && (87 + d <=? 102)) with true.
    2:{ symmetry. apply andb_true_iff. rewrite !N.leb_le. lia. }
    f_equal. lia.
Qed.

Lemma mod16_lt n : n mod 16 < 16.
Proof. apply N.mod_upper_bound. lia. Qed.

Lemma parse_chars_escape c X : c < 65536 ->
  parse_chars (unicode_escape c ++ X) = cons_char c (parse_chars X).
Proof.
  intros Hc. unfold unicode_escape. cbn [app parse_chars].
  change (92 =? 34) with false. change (92 =? 92) with true.
  change (117 =? 34) with false. change (117 =? 92) with false.
  change (117 =? 47) with false. change (117 =? 98) with false.
  change (117 =? 102) with false. change (117 =? 110) with false.
  change (117 =? 114) with false. change (117 =? 116) with false.
  change (117 =? 117) with true. cbv iota.
  rewrite !hex_value_digit by apply mod16_lt.
  rewrite hex_split by done. done.
Qed.

Lemma parse_chars_literal c X :
  32 <= c -> c <> 34 -> c <> 92 ->
  parse_chars (c :: X) = cons_char c (parse_chars X).
Proof.
  intros H1 H2 H3. cbn [parse_chars].
  apply N.eqb_neq in H2, H3. rewrite H2, H3.
  destruct (N.ltb_spec c 32); [lia|done].
Qed.

Lemma parse_chars_quote_unit c X : c < 65536 ->
  parse_chars (quote_unit c ++ X) = cons_char c (parse_chars X).
Proof.
  intros Hc. unfold quote_unit.
  destruct (N.eqb_spec c 8) as [->|?]; [done|].
  destruct (N.eqb_spec c 9) as [->|?]; [done|].
  destruct (N.eqb_spec c 10) as [->|?]; [done|].
  destruct (N.eqb_spec c 12) as [->|?]; [done|].
  destruct (N.eqb_spec c 13) as [->|?]; [done|].
  destruct (N.eqb_spec c 34) as [->|?]; [done|].
  destruct (N.eqb_spec c 92) as [->|?]; [done|].
  destruct (N.ltb_spec c 32).
  - by apply parse_chars_escape.
  - by apply parse_chars_literal.
Qed.

Lemma surrogate_bounds c :
  is_high_surrogate c || is_low_surrogate c = true -> 55296 <= c <= 57343.
Proof.
  unfold is_high_surrogate, is_low_surrogate.
  rewrite orb_true_iff, !andb_true_iff, !N.leb_le. lia.
Qed.

(** A code unit outside the 16-bit range is written as it is. *)
Lemma quote_unit_large c : 65536 <= c -> quote_unit c = [c].
Proof.
  intros Hc. unfold quote_unit.
  repeat match goal with
         | |- context [c =? ?k] => destruct (N.eqb_spec c k) as [->|?]; [lia|]
         end.
  destruct (N.ltb_spec c 32); [lia|done].
Qed.

Lemma quote_body_cons c r :
  quote_body (c :: r) =
  if is_high_surrogate c then
    match r with
    | d :: r' =>
        if is_low_surrogate d then c :: d :: quote_body r'
        else unicode_escape c ++ quote_body r
    | [] => unicode_escape c
    end
  else if is_low_surrogate c then unicode_escape c ++ quote_body r
  else quote_unit c ++ quote_body r.
Proof. reflexivity. Qed.

Lemma parse_chars_quote_body_len n : forall s rest,
  (length s <= n)%nat ->
  parse_chars (quote_body s ++ 34 :: rest) = Some (s, rest).
Proof.
  induction n as [|n IH]; intros s rest Hlen.
  { destruct s; [done|simpl in Hlen; lia]. }
  destruct s as [|c r]; [done|]. rewrite quote_body_cons.
  destruct (is_high_surrogate c) eqn:Hh.
  - assert (Hb : 55296 <= c <= 57343) by (apply surrogate_bounds; by rewrite Hh).
    destruct r as [|d r']; cbv iota.
    + rewrite (parse_chars_escape c) by lia. done.
    + destruct (is_low_surrogate d) eqn:Hl.
      * assert (Hd : 55296 <= d <= 57343).
        { apply surrogate_bounds. rewrite Hl. apply orb_true_r. }
        cbn [app]. rewrite (parse_chars_literal c), (parse_chars_literal d) by lia.
        rewrite IH by (simpl in *; lia). done.
      * rewrite <- app_assoc, (parse_chars_escape c) by lia.
        rewrite IH by (simpl in *; lia). done.
  - destruct (is_low_surrogate c) eqn:Hl.
    + assert (Hb : 55296 <= c <= 57343).
      { apply surrogate_bounds. rewrite Hl. apply orb_true_r. }
      rewrite <- app_assoc, (parse_chars_escape c) by lia.
      rewrite IH by (simpl in *; lia). done.
    + rewrite <- app_assoc.
      destruct (N.ltb_spec c 65536).
      * rewrite (parse_chars_quote_unit c) by done.
        rewrite IH by (simpl in *; lia). done.
      * rewrite quote_unit_large by done. cbn [app].
        rewrite (parse_chars_literal c) by lia.
        rewrite IH by (simpl in *; lia). done.
Qed.

(** A quoted string is read back as the string it quotes. *)
Lemma parse_chars_quote_body s rest :
  parse_chars (quote_body s ++ 34 :: rest) = Some (s, rest).
Proof. by apply (parse_chars_quote_body_len (length s)). Qed.

(** ** Number literals *)

Lemma stops_spec rest :
  stops rest = true ->
  match rest with
  | [] => True
  | c :: _ => is_digit c = false /\ c <> 46 /\ c <> 101 /\ c <> 69
  end.
Proof.
  destruct rest as [|c r]; [done|]. simpl.
  rewrite negb_true_iff, !orb_false_iff, !N.eqb_neq. tauto.
Qed.

Lemma eat_cons c c' r : eat c (c' :: r) = if c' =? c then Some r else None.
Proof. reflexivity. Qed.

Lemma eat_ne c c' r : c' <> c -> eat c (c' :: r) = None.
Proof. intros H. simpl. apply N.eqb_neq in H. by rewrite H. Qed.

Lemma take_exponent_none rest :
  stops rest = true -> take_exponent rest = Some (0%Z, rest).
Proof.
  intros H%stops_spec. destruct rest as [|c r]; [done|].
  destruct H as (_ & _ & H1 & H2). unfold take_exponent.
  apply N.eqb_neq in H1, H2. by rewrite H1, H2.
Qed.

Lemma eat_dot_none rest : stops rest = true -> eat 46 rest = None.
Proof.
  intros H%stops_spec. destruct rest as [|c r]; [done|].
  apply eat_ne. tauto.
Qed.

Lemma eat_digits_none c n rest :
  c < 48 \/ (c = 48 /\ 0 < n) -> eat c (digits n ++ rest) = None.
Proof.
  intros Hc. destruct (N.eq_dec n 0) as [->|Hn].
  - rewrite digits_zero. cbn [app]. apply eat_ne. lia.
  - destruct (digits_head n) as (d & r & Hd & Hne); [lia|].
    pose proof (digits_all n) as Hall. rewrite Hd in Hall |- *.
    inversion Hall as [|? ? Hdig _]; subst. apply is_digit_spec in Hdig.
    cbn [app]. apply eat_ne. lia.
Qed.

(** The literal of a natural number, with or without a minus sign. *)
Lemma parse_number_digits neg n rest :
  stops rest = true ->
  parse_number (sign_text neg ++ digits n ++ rest)
  = Some (Int (if neg then - Z.of_N n else Z.of_N n), rest).
Proof.
  intros Hrest.
  assert (Hfollow : match rest with [] => True | c :: _ => is_digit c = false end).
  { apply stops_spec in Hrest. destruct rest; tauto. }
  assert (Hbody : forall b,
    (let int_part :=
       match eat 48 (digits n ++ rest) with
       | Some r => Some (0, r)
       | None =>
           let '(i, cnt, r) := take_digits (digits n ++ rest) 0 O in
           match cnt with O => None | _ => Some (i, r) end
       end in
     match int_part with
     | None => None
     | Some (i, r1) =>
         let frac_part :=
           match eat 46 r1 with
           | Some r =>
               let '(f, cnt, r') := take_digits r 0 O in
               match cnt with O => None | _ => Some (f, cnt, r') end
           | None => Some (0, O, r1)
           end in
         match frac_part with
         | None => None
         | Some (f, cf, r2) =>
             match take_exponent r2 with
             | None => None
             | Some (e, r3) =>
                 Some (mk_dec b (i * 10 ^ N.of_nat cf + f) (e - Z.of_nat cf), r3)
             end
         end
     end) = Some (Int (if b then - Z.of_N n else Z.of_N n), rest)).
  { intros b. cbv zeta.
    destruct (N.eq_dec n 0) as [->|Hn].
    - rewrite digits_zero. cbn [app]. rewrite eat_cons.
      change (48 =? 48) with true. cbv iota.
      rewrite eat_dot_none, take_exponent_none by done.
      by destruct b.
    - rewrite eat_digits_none by lia.
      rewrite take_digits_digits by done.
      pose proof (digits_nonempty n) as Hlen.
      destruct (length (digits n)) as [|k]; [lia|]. cbv iota.
      rewrite eat_dot_none, take_exponent_none by done.
      unfold mk_dec. change (0 <=? 0 - Z.of_nat 0)%Z with true. cbv iota.
      change (0 - Z.of_nat 0)%Z with 0%Z.
      rewrite Z.pow_0_r, Z.mul_1_r. change (N.of_nat 0) with 0.
      rewrite N.pow_0_r, N.mul_1_r, N.add_0_r. done. }
  unfold parse_number. destruct neg; unfold sign_text; cbn [app].
  - rewrite eat_cons. change (45 =? 45) with true. cbv iota. apply Hbody.
  - rewrite eat_digits_none by lia. apply Hbody.
Qed.

(** A printed integer is read back. *)
Lemma parse_number_to_string z rest :
  (Z.abs z < 10 ^ 21)%Z -> stops rest = true ->
  parse_number (number_to_string (Int z) ++ rest) = Some (Int z, rest).
Proof.
  intros Hz Hrest. unfold number_to_string.
  apply Z.ltb_lt in Hz. rewrite Hz. rewrite <- app_assoc.
    rewrite (parse_number_digits (z <? 0)%Z) by done.
  destruct (Z.ltb_spec z 0); do 3 f_equal; lia.
Qed.


(** ** Values: induction and the shape of their text *)

Lemma jsval_induction (P : jsval -> Prop) :
  P JUndefined -> P JNull -> (forall b, P (JBool b)) ->
  (forall n, P (JNum n)) -> (forall s, P (JStr s)) ->
  (forall items, Forall P items -> P (JArr items)) ->
  (forall props, Forall (fun kv => P kv.2) props -> P (JObj props)) ->
  forall v, P v.
Proof.
  intros Hu Hn Hb Hnum Hs Ha Ho.
  fix IH 1. intros [| |b|n|s|items|props].
  - exact Hu.
  - exact Hn.
  - apply Hb.
  - apply Hnum.
  - apply Hs.
  - apply Ha. induction items as [|x r IHr];
      [constructor | constructor; [apply IH | apply IHr]].
  - apply Ho. induction props as [|[k x] r IHr];
      [constructor | constructor; [apply IH | apply IHr]].
Qed.

Lemma serialize_array ind items :
  serialize ind (JArr items) = Some (wrap_array ind (map (ser (ind ++ gap)) items)).
Proof. reflexivity. Qed.

Lemma storable_array items :
  storable (JArr items) = forallb storable items.
Proof. reflexivity. Qed.

Lemma storable_object props :
  storable (JObj props) =
  plain_keys (map fst props) && forallb (fun kv => storable kv.2) props.
Proof.
  cbn [storable]. f_equal.
  induction props as [|[k x] r IH]; [done|]. cbn in *. by rewrite IH.
Qed.

Lemma need_array items : need (JArr items) = S (need_items items).
Proof. reflexivity. Qed.

Lemma need_object props : need (JObj props) = S (need_members props).
Proof.
  cbn [need]. f_equal. unfold need_members.
  induction props as [|[k x] r IH]; [done|].
  simpl. by rewrite IH.
Qed.

Lemma storable_serialize v ind :
  storable v = true -> serialize ind v = Some (ser ind v).
Proof. intros Hv. unfold ser. by destruct v. Qed.

Lemma serialize_object ind props :
  forallb (fun kv => storable kv.2) props = true ->
  serialize ind (JObj props)
  = Some (wrap_object ind (map (member_text (ind ++ gap)) props)).
Proof.
  intros Hst. cbn [serialize]. f_equal. unfold wrap_object.
  match goal with
  | |- match ?a with _ => _ end = match ?b with _ => _ end =>
      assert (Heq : a = b); [|by rewrite Heq]
  end.
  induction props as [|[k x] r IH]; [done|].
  cbn [forallb] in Hst. apply andb_true_iff in Hst as [Hx Hr].
  cbn [map]. rewrite (storable_serialize x) by done.
  rewrite IH by done. done.
Qed.

(** ** Reading back what was written *)

Lemma skip_ws_blank pre s : blank pre = true -> skip_ws (pre ++ s) = skip_ws s.
Proof.
  induction pre as [|c r IH]; [done|]. cbn [blank forallb app skip_ws].
  intros [Hc Hr]%andb_true_iff. rewrite Hc. by apply IH.
Qed.

Lemma skip_ws_head c s : is_json_ws c = false -> skip_ws (c :: s) = c :: s.
Proof. intros H. cbn [skip_ws]. by rewrite H. Qed.

Lemma blank_app a b : blank (a ++ b) = blank a && blank b.
Proof. apply forallb_app. Qed.

Lemma value_start_spec c :
  value_start c = true ->
  is_json_ws c = false /\ c <> 93 /\ c <> 125 /\ c <> 44 /\ c <> 58.
Proof.
  unfold value_start, is_json_ws, is_digit.
  rewrite !orb_true_iff, !orb_false_iff, andb_true_iff, !N.eqb_eq, !N.eqb_neq,
    !N.leb_le.
  lia.
Qed.

Lemma parse_value_S f s :
  parse_value (S f) s =
  match skip_ws s with
  | [] => SyntaxErr
  | c :: r =>
      if c =? 91 then
        match eat 93 (skip_ws r) with
        | Some r' => Parsed (JArr []) r'
        | None => parse_items f r []
        end
      else if c =? 123 then
        match eat 125 (skip_ws r) with
        | Some r' => Parsed (JObj []) r'
        | None => parse_members f r []
        end
      else if c =? 34 then
        match parse_chars r with
        | Some (str, rest) => Parsed (JStr str) rest
        | None => SyntaxErr
        end
      else if c =? 110 then of_option (expect (txt "null") JNull (c :: r))
      else if c =? 116 then of_option (expect (txt "true") (JBool true) (c :: r))
      else if c =? 102 then of_option (expect (txt "false") (JBool false) (c :: r))
      else
        match parse_number (c :: r) with
        | Some (n, rest) => Parsed (JNum n) rest
        | None => SyntaxErr
        end
  end.
Proof. reflexivity. Qed.

Lemma parse_items_S f s acc :
  parse_items (S f) s acc =
  match parse_value f s with
  | Parsed v r =>
      match eat 44 (skip_ws r) with
      | Some r' => parse_items f r' (acc ++ [v])
      | None =>
          match eat 93 (skip_ws r) with
          | Some r' => Parsed (JArr (acc ++ [v])) r'
          | None => SyntaxErr
          end
      end
  | SyntaxErr => SyntaxErr
  | OutOfFuel => OutOfFuel
  end.
Proof. reflexivity. Qed.

Lemma parse_members_S f s acc :
  parse_members (S f) s acc =
  match eat 34 (skip_ws s) with
  | Some r =>
      match parse_chars r with
      | Some (k, r1) =>
          match eat 58 (skip_ws r1) with
          | Some r2 =>
              match parse_value f r2 with
              | Parsed v r3 =>
                  match eat 44 (skip_ws r3) with
                  | Some r' => parse_members f r' (obj_set k v acc)
                  | None =>
                      match eat 125 (skip_ws r3) with
                      | Some r' => Parsed (JObj (obj_set k v acc)) r'
                      | None => SyntaxErr
                      end
                  end
              | SyntaxErr => SyntaxErr
              | OutOfFuel => OutOfFuel
              end
          | None => SyntaxErr
          end
      | None => SyntaxErr
      end
  | None => SyntaxErr
  end.
Proof. reflexivity. Qed.

Lemma number_head neg n :
  exists c s, sign_text neg ++ digits n = c :: s /\
              is_digit c || (c =? 45) = true.
Proof.
  destruct neg; unfold sign_text; cbn [app].
  - by eexists _, _.
  - pose proof (digits_all n) as Hall. pose proof (digits_nonempty n) as Hlen.
    destruct (digits n) as [|c r]; [simpl in Hlen; lia|].
    inversion Hall as [|? ? Hc _]; subst. eexists _, _. split; [done|].
    by rewrite Hc.
Qed.

Lemma number_start c : is_digit c || (c =? 45) = true -> value_start c = true.
Proof.
  unfold value_start. intros [->| ->]%orb_true_iff; [done|].
  by rewrite orb_true_r.
Qed.

Lemma ser_head ind v :
  storable v = true -> exists c s, ser ind v = c :: s /\ value_start c = true.
Proof.
  intros Hv. destruct v as [| |b|n|s|items|props]; try done.
  - by eexists _, _.
  - destruct b; by eexists _, _.
  - destruct n as [| |z|]; try done. cbn in Hv. unfold ser. cbn.
    rewrite Hv. destruct (number_head (z <? 0)%Z (Z.to_N (Z.abs z)))
      as (c & s & Hs & Hc).
    exists c, s. split; [done|]. by apply number_start.
  - by eexists _, _.
  - unfold ser. rewrite serialize_array. cbv iota.
    unfold wrap_array. destruct (map _ items); by eexists _, _.
  - unfold ser. rewrite storable_object in Hv.
    apply andb_true_iff in Hv as [_ Hv]. rewrite serialize_object by done.
    cbv iota. unfold wrap_object. destruct (map _ props); by eexists _, _.
Qed.

Lemma expect_app lit v rest : expect lit v (lit ++ rest) = Some (v, rest).
Proof.
  unfold expect, text_eqb. rewrite take_app_length, drop_app_length.
  by rewrite bool_decide_eq_true_2.
Qed.

(** A value whose text starts a number literal is read by [parse_number]. *)
Lemma parse_value_number f pre c s :
  blank pre = true -> is_digit c || (c =? 45) = true ->
  parse_value (S f) (pre ++ c :: s) =
  match parse_number (c :: s) with
  | Some (n, rest) => Parsed (JNum n) rest
  | None => SyntaxErr
  end.
Proof.
  intros Hpre Hc. rewrite parse_value_S, skip_ws_blank by done.
  assert (Hs : value_start c = true).
  { unfold value_start. apply orb_true_iff in Hc as [->| ->]; [done|].
    by rewrite orb_true_r. }
  apply value_start_spec in Hs as (Hws & _).
  rewrite skip_ws_head by done.
  assert (48 <= c <= 57 \/ c = 45) as Hr.
  { apply orb_true_iff in Hc as [Hc|Hc]; [left; by apply is_digit_spec|].
    right. by apply N.eqb_eq. }
  repeat match goal with
         | |- context [c =? ?k] =>
             destruct (N.eqb_spec c k) as [->|?]; [lia|]
         end.
  done.
Qed.

Lemma stops_newline s : stops (10 :: s) = true.
Proof. reflexivity. Qed.

Lemma stops_comma s : stops (44 :: s) = true.
Proof. reflexivity. Qed.

Lemma blank_gap ind : blank ind = true -> blank (ind ++ gap) = true.
Proof. intros H. by rewrite blank_app, H. Qed.

Lemma blank_newline ind : blank ind = true -> blank (10 :: ind) = true.
Proof. intros H. change (is_json_ws 10 && blank ind = true). by rewrite H. Qed.

Lemma skip_ws_value pre ind v rest :
  storable v = true -> blank pre = true ->
  exists c s, ser ind v = c :: s /\ value_start c = true /\
              skip_ws (pre ++ ser ind v ++ rest) = c :: s ++ rest.
Proof.
  intros Hv Hpre. destruct (ser_head ind v Hv) as (c & s & Hs & Hc).
  exists c, s. split_and!; [done..|].
  rewrite skip_ws_blank, Hs by done. cbn [app].
  apply skip_ws_head. by apply value_start_spec.
Qed.

(** The items of a non-empty array, up to the closing bracket. *)
Lemma parse_items_join ind ind' items :
  Forall reads_back items -> forallb storable items = true ->
  blank ind = true -> blank ind' = true -> items <> [] ->
  forall pre acc fuel tail,
    blank pre = true -> (need_items items <= fuel)%nat ->
    parse_items fuel
      (pre ++ join (44 :: 10 :: ind') (map (ser ind') items)
           ++ 10 :: ind ++ 93 :: tail) acc
    = Parsed (JArr (acc ++ items)) tail.
Proof.
  intros HP Hst Hind Hind'. induction items as [|x r IH]; [done|]. intros _.
  inversion HP as [|? ? Hx HPr]; subst.
  cbn [forallb] in Hst. apply andb_true_iff in Hst as [Hsx Hsr].
  intros pre acc fuel tail Hpre Hfuel.
  cbn [need_items fold_right] in Hfuel.
  destruct fuel as [|f]; [lia|]. rewrite parse_items_S.
  destruct r as [|y r'].
  - cbn [map join]. rewrite Hx; [|done..|apply stops_newline|lia].
    change (10 :: ind ++ 93 :: tail) with ((10 :: ind) ++ 93 :: tail).
    rewrite skip_ws_blank by by apply blank_newline.
    rewrite skip_ws_head by done. done.
  - change (map (ser ind') (x :: y :: r'))
      with (ser ind' x :: map (ser ind') (y :: r')).
    change (join (44 :: 10 :: ind') (ser ind' x :: map (ser ind') (y :: r')))
      with (ser ind' x ++ (44 :: 10 :: ind')
              ++ join (44 :: 10 :: ind') (map (ser ind') (y :: r'))).
    rewrite <- !app_assoc.
    rewrite Hx; [|done..|apply stops_comma|lia].
    cbn [app]. rewrite skip_ws_head by done. rewrite eat_cons.
    change (44 =? 44) with true. cbv iota.
    change (10 :: ind' ++ ?X) with ((10 :: ind') ++ X).
    rewrite IH; [|done..|by apply blank_newline|].
    + by rewrite <- app_assoc.
    + fold (need_items (y :: r')) in Hfuel. lia.
Qed.

(** The members of a non-empty object, up to the closing brace. *)
Lemma parse_members_join ind ind' props :
  Forall (fun kv => reads_back kv.2) props ->
  forallb (fun kv => storable kv.2) props = true ->
  blank ind = true -> blank ind' = true -> props <> [] ->
  forall pre acc fuel tail,
    blank pre = true -> (need_members props <= fuel)%nat ->
    parse_members fuel
      (pre ++ join (44 :: 10 :: ind') (map (member_text ind') props)
           ++ 10 :: ind ++ 125 :: tail) acc
    = Parsed (JObj (rebuild props acc)) tail.
Proof.
  intros HP Hst Hind Hind'. induction props as [|[k x] r IH]; [done|]. intros _.
  inversion HP as [|? ? Hx HPr]; subst. cbn [snd] in Hx.
  cbn [forallb snd] in Hst. apply andb_true_iff in Hst as [Hsx Hsr].
  intros pre acc fuel tail Hpre Hfuel.
  cbn [need_members fold_right snd] in Hfuel.
  destruct fuel as [|f]; [lia|]. rewrite parse_members_S.
  assert (Hmember : forall X,
    match eat 34 (skip_ws (pre ++ member_text ind' (k, x) ++ X)) with
    | Some r0 =>
        match parse_chars r0 with
        | Some (k0, r1) =>
            match eat 58 (skip_ws r1) with
            | Some r2 => Some (k0, r2)
            | None => None
            end
        | None => None
        end
    | None => None
    end = Some (k, 32 :: ser ind' x ++ X)).
  { intros X. unfold member_text, quote. cbn [fst snd app].
    rewrite skip_ws_blank by done. rewrite skip_ws_head by done.
    rewrite eat_cons. change (34 =? 34) with true. cbv iota.
    rewrite <- !app_assoc. cbn [app]. rewrite parse_chars_quote_body.
    rewrite skip_ws_head by done. done. }
  destruct r as [|[k' y] r'].
  - cbn [map join].
    specialize (Hmember (10 :: ind ++ 125 :: tail)).
    destruct (eat 34 _) as [r0|]; [|done].
    destruct (parse_chars r0) as [[k0 r1]|]; [|done].
    destruct (eat 58 _) as [r2|]; [|done].
    injection Hmember as -> ->.
    change (32 :: ser ind' x ++ ?X) with ([32] ++ ser ind' x ++ X).
    rewrite Hx; [|done..|apply stops_newline|lia].
    change (10 :: ind ++ 125 :: tail) with ((10 :: ind) ++ 125 :: tail).
    rewrite skip_ws_blank by by apply blank_newline.
    rewrite skip_ws_head by done. done.
  - change (map (member_text ind') ((k, x) :: (k', y) :: r'))
      with (member_text ind' (k, x) :: map (member_text ind') ((k', y) :: r')).
    change (join (44 :: 10 :: ind')
              (member_text ind' (k, x) :: map (member_text ind') ((k', y) :: r')))
      with (member_text ind' (k, x) ++ (44 :: 10 :: ind')
              ++ join (44 :: 10 :: ind') (map (member_text ind') ((k', y) :: r'))).
    rewrite <- !app_assoc.
    match goal with
    | |- context [pre ++ member_text ind' (k, x) ++ ?X] =>
        specialize (Hmember X)
    end.
    destruct (eat 34 _) as [r0|]; [|done].
    destruct (parse_chars r0) as [[k0 r1]|]; [|done].
    destruct (eat 58 _) as [r2|]; [|done].
    injection Hmember as -> ->.
    change (32 :: ser ind' x ++ ?X) with ([32] ++ ser ind' x ++ X).
    rewrite Hx; [|done..|apply stops_comma|lia].
    cbn [app]. rewrite skip_ws_head by done. rewrite eat_cons.
    change (44 =? 44) with true. cbv iota.
    change (10 :: ind' ++ ?X) with ((10 :: ind') ++ X).
    rewrite IH; [done|done..|by apply blank_newline|].
    fold (need_members ((k', y) :: r')) in Hfuel. lia.
Qed.

(** ** Objects rebuilt key by key *)

Lemma text_eqb_eq a b : text_eqb a b = true <-> a = b.
Proof. unfold text_eqb. apply bool_decide_eq_true. Qed.

Lemma text_eqb_refl a : text_eqb a a = true.
Proof. by apply text_eqb_eq. Qed.

Lemma has_key_spec k props :
  has_key k props = existsb (text_eqb k) (map fst props).
Proof.
  induction props as [|[k' v] r IH]; [done|]. cbn. rewrite IH. f_equal.
  unfold text_eqb. apply bool_decide_ext. naive_solver.
Qed.

Lemma plain_keys_app_cons ks k r :
  plain_keys (ks ++ k :: r) = true ->
  array_index k = None /\ existsb (text_eqb k) ks = false.
Proof.
  induction ks as [|k0 ks IH]; cbn [app plain_keys existsb].
  - destruct (array_index k); [done|]. done.
  - destruct (array_index k0); [done|].
    intros [Hne Hr]%andb_true_iff. destruct (IH Hr) as [Hi Hk].
    split; [done|]. rewrite Hk, orb_false_r.
    apply negb_true_iff in Hne. rewrite existsb_app in Hne.
    apply orb_false_iff in Hne as [_ Hne]. cbn in Hne.
    apply orb_false_iff in Hne as [Hne _].
    unfold text_eqb in *. apply bool_decide_eq_false in Hne.
    apply bool_decide_eq_false. naive_solver.
Qed.

Lemma rebuild_plain props : forall acc,
  plain_keys (map fst (acc ++ props)) = true ->
  rebuild props acc = acc ++ props.
Proof.
  induction props as [|[k v] r IH]; intros acc Hk.
  - by rewrite app_nil_r.
  - unfold rebuild. cbn [fold_left fst snd]. fold (rebuild r (obj_set k v acc)).
    rewrite map_app in Hk. cbn [map fst] in Hk.
    destruct (plain_keys_app_cons _ _ _ Hk) as [Hi Hne].
    unfold obj_set. rewrite has_key_spec, Hne, Hi.
    rewrite IH; rewrite <- app_assoc; [done|].
    by rewrite map_app.
Qed.

(** ** The round trip of a value *)

Lemma wrap_shape c d ind ind' J rest :
  (c :: 10 :: ind' ++ J ++ 10 :: ind ++ [d]) ++ rest
  = c :: (10 :: ind') ++ J ++ 10 :: ind ++ d :: rest.
Proof. cbn [app]. rewrite <- !app_assoc. cbn [app]. by rewrite <- !app_assoc. Qed.

Lemma eat_join_none d c0 s0 sep ps X :
  is_json_ws c0 = false -> c0 <> d ->
  eat d (skip_ws (join sep ((c0 :: s0) :: ps) ++ X)) = None.
Proof.
  intros Hws Hne. destruct ps; cbn [join app];
    rewrite skip_ws_head by done; by apply eat_ne.
Qed.


Lemma reads_back_all v : reads_back v.
Proof.
  induction v as [| |b|n|s|items IH|props IH] using jsval_induction;
    intros ind pre rest fuel Hst Hpre Hind Hrest Hfuel; try done.
  - destruct fuel as [|f]; [simpl in Hfuel; lia|].
    rewrite parse_value_S, skip_ws_blank by done. done.
  - destruct fuel as [|f]; [simpl in Hfuel; lia|].
    rewrite parse_value_S, skip_ws_blank by done. by destruct b.
  - destruct fuel as [|f]; [simpl in Hfuel; lia|].
    destruct n as [| |z|]; try done. cbn in Hst.
    unfold ser. cbn [serialize is_finite].
    assert (Hn : number_to_string (Int z)
                 = sign_text (z <? 0)%Z ++ digits (Z.to_N (Z.abs z))).
    { unfold number_to_string. by rewrite Hst. }
    destruct (number_head (z <? 0)%Z (Z.to_N (Z.abs z))) as (c & s & Hs & Hc).
    rewrite Hn, Hs. cbn [app]. rewrite parse_value_number by done.
    change (c :: s ++ rest) with ((c :: s) ++ rest). rewrite <- Hs, <- Hn.
    rewrite parse_number_to_string; [done| |done]. by apply Z.ltb_lt.
  - destruct fuel as [|f]; [simpl in Hfuel; lia|].
    rewrite parse_value_S, skip_ws_blank by done.
    unfold ser. cbn [serialize]. unfold quote. cbn [app].
    rewrite <- app_assoc. cbn [app]. rewrite skip_ws_head by done.
    change (34 =? 91) with false. change (34 =? 123) with false.
    change (34 =? 34) with true. cbv iota.
    by rewrite parse_chars_quote_body.
  - rewrite need_array in Hfuel. destruct fuel as [|f]; [lia|].
    rewrite storable_array in Hst.
    unfold ser. rewrite serialize_array. cbv iota. unfold wrap_array.
    destruct items as [|x r].
    { rewrite parse_value_S, skip_ws_blank by done. done. }
    remember (x :: r) as items eqn:Hitems.
    assert (Hne : items <> []) by by subst.
    destruct (map (ser (ind ++ gap)) items) as [|p ps] eqn:Hparts.
    { subst. done. }
    rewrite <- Hparts. rewrite wrap_shape.
    rewrite parse_value_S, skip_ws_blank by done.
    rewrite skip_ws_head by done.
    change (91 =? 91) with true. cbv iota.
    rewrite skip_ws_blank by (apply blank_newline; by apply blank_gap).
    assert (Hfirst : forall X, eat 93 (skip_ws
              (join (44 :: 10 :: ind ++ gap) (p :: ps) ++ X)) = None).
    { intros X. subst items. cbn [forallb] in Hst.
      apply andb_true_iff in Hst as [Hx _].
      destruct (ser_head (ind ++ gap) x Hx) as (c & s & Hs & Hc).
      apply value_start_spec in Hc as (Hws & Hc & _).
      cbn [map] in Hparts. injection Hparts as <- <-. rewrite Hs.
      by apply eat_join_none. }
    rewrite Hparts at 1. rewrite Hfirst.
    rewrite (parse_items_join ind (ind ++ gap) items); try done.
    + by apply blank_gap.
    + apply blank_newline. by apply blank_gap.
    + lia.
  - rewrite need_object in Hfuel. destruct fuel as [|f]; [lia|].
    rewrite storable_object in Hst. apply andb_true_iff in Hst as [Hkeys Hst].
    unfold ser. rewrite serialize_object by done. cbv iota.
    unfold wrap_object.
    destruct props as [|kv r].
    { rewrite parse_value_S, skip_ws_blank by done. done. }
    remember (kv :: r) as props eqn:Hprops.
    assert (Hne : props <> []) by by subst.
    destruct (map (member_text (ind ++ gap)) props) as [|p ps] eqn:Hparts.
    { subst. done. }
    rewrite <- Hparts. rewrite wrap_shape.
    rewrite parse_value_S, skip_ws_blank by done.
    rewrite skip_ws_head by done.
    change (123 =? 91) with false. change (123 =? 123) with true. cbv iota.
    rewrite skip_ws_blank by (apply blank_newline; by apply blank_gap).
    assert (Hfirst : forall X, eat 125 (skip_ws
              (join (44 :: 10 :: ind ++ gap) (p :: ps) ++ X)) = None).
    { intros X. subst props. cbn [map] in Hparts. injection Hparts as <- <-.
      unfold member_text, quote. cbn [app]. by apply eat_join_none. }
    rewrite Hparts at 1. rewrite Hfirst.
    rewrite (parse_members_join ind (ind ++ gap) props); try done.
    + by rewrite (rebuild_plain props []).
    + by apply blank_gap.
    + apply blank_newline. by apply blank_gap.
    + lia.
Qed.

Lemma join_length_bound {A} (n : A -> nat) (p : A -> text) sep (l : list A) :
  (2 <= length sep)%nat ->
  Forall (fun a => (n a <= length (p a))%nat) l ->
  (fold_right (fun a acc => S (n a + acc)) O l
   <= length (join sep (map p l)) + 2)%nat.
Proof.
  intros Hsep Hall. induction l as [|a r IH]; [simpl; lia|].
  inversion Hall as [|? ? Ha Hr]; subst. specialize (IH Hr).
  destruct r as [|b r'].
  - simpl. lia.
  - change (map p (a :: b :: r')) with (p a :: map p (b :: r')).
    change (join sep (p a :: map p (b :: r')))
      with (p a ++ sep ++ join sep (map p (b :: r'))).
    rewrite !length_app. cbn [fold_right] in *. lia.
Qed.

Lemma need_le_length v : forall ind,
  storable v = true -> (need v <= length (ser ind v))%nat.
Proof.
  induction v as [| |b|n|s|items IH|props IH] using jsval_induction;
    intros ind Hst; try done.
  - simpl. lia.
  - destruct b; simpl; lia.
  - destruct (ser_head ind (JNum n) Hst) as (c & s & -> & _). simpl. lia.
  - unfold ser. cbn [serialize need]. unfold quote. simpl. lia.
  - rewrite need_array. unfold ser. rewrite serialize_array. cbv iota.
    rewrite storable_array in Hst. unfold wrap_array.
    destruct items as [|x r]; [simpl; lia|].
    remember (x :: r) as items eqn:Hitems.
    destruct (map (ser (ind ++ gap)) items) as [|p ps] eqn:Hparts.
    { subst. done. }
    rewrite <- Hparts. cbn [length]. rewrite !length_app. cbn [length].
    pose proof (join_length_bound need (ser (ind ++ gap))
                  (44 :: 10 :: ind ++ gap) items) as Hb.
    unfold need_items. rewrite length_app.
    assert (Nat.le 2 (length (44 :: 10 :: ind ++ gap))) by (simpl; lia).
    assert (Forall (fun a => (need a <= length (ser (ind ++ gap) a))%nat) items).
    { apply Forall_forall. intros a Ha.
      rewrite Forall_forall in IH. apply IH; [done|].
      rewrite forallb_forall in Hst. apply Hst. by apply list_elem_of_In. }
    specialize (Hb ltac:(done) ltac:(done)). lia.
  - rewrite need_object. rewrite storable_object in Hst.
    apply andb_true_iff in Hst as [_ Hst].
    unfold ser. rewrite serialize_object by done. cbv iota.
    unfold wrap_object.
    destruct props as [|kv r]; [simpl; lia|].
    remember (kv :: r) as props eqn:Hprops.
    destruct (map (member_text (ind ++ gap)) props) as [|p ps] eqn:Hparts.
    { subst. done. }
    rewrite <- Hparts. cbn [length]. rewrite !length_app. cbn [length].
    pose proof (join_length_bound (fun kv => need kv.2)
                  (member_text (ind ++ gap))
                  (44 :: 10 :: ind ++ gap) props) as Hb.
    unfold need_members. rewrite length_app.
    assert (Nat.le 2 (length (44 :: 10 :: ind ++ gap))) by (simpl; lia).
    assert (Forall (fun a => (need a.2 <= length (member_text (ind ++ gap) a))%nat)
              props).
    { apply Forall_forall. intros a Ha.
      rewrite Forall_forall in IH. unfold member_text.
      rewrite length_app. cbn [length].
      assert (need a.2 <= length (ser (ind ++ gap) a.2))%nat; [|lia].
      apply IH; [done|].
      rewrite forallb_forall in Hst. apply Hst. by apply list_elem_of_In. }
    specialize (Hb ltac:(done) ltac:(done)). lia.
Qed.

(** What [JSON.stringify] writes for a storable value is read back by
    [JSON.parse] as the same value. *)
Lemma JSON_round_trip v :
  storable v = true ->
  exists s, JSON_stringify v = Some s /\ JSON_parse s = Some v.
Proof.
  intros Hst. exists (ser [] v). split.
  { unfold JSON_stringify. by apply storable_serialize. }
  unfold JSON_parse.
  pose proof (reads_back_all v [] [] [] (2 * length (ser [] v) + 2)%nat Hst) as H.
  rewrite app_nil_r in H. cbn [app] in H. rewrite H; [done|done..|].
  pose proof (need_le_length v [] Hst). lia.
Qed.


(** ** The store without failures *)

Lemma stringify_array items :
  JSON_stringify (JArr items) = Some (ser [] (JArr items)).
Proof. reflexivity. Qed.

Lemma run_write_calm books data w :
  calm w -> JSON_stringify books = Some data ->
  run_write books w = (Ok tt, after_save data w).
Proof.
  unfold calm. intros Hw Hs. unfold run_write. rewrite Hs.
  unfold writeFile, complete_write, rename, complete_rename, issue, next_fault.
  cbn. rewrite Hw. cbn. unfold after_save. by rewrite <- !app_assoc.
Qed.

Lemma writeBooksFile_calm books data st :
  calm (st_world st) -> idle st -> JSON_stringify books = Some data ->
  writeBooksFile books st = (Ok tt, settled_ok (after_save data (st_world st))).
Proof.
  intros Hw [r Hq] Hs. unfold writeBooksFile, await_queue, enqueueWrite.
  cbn [writeQueue st_world settle]. rewrite Hq. cbn [settle].
  destruct r as [[]|e]; rewrite (run_write_calm _ data) by done; done.
Qed.

Lemma readFile_calm w :
  calm w ->
  readFile w = (match books_file w with
                | Some raw => Ok raw
                | None => Err (SystemError ENOENT)
                end, after_read w).
Proof.
  unfold calm. intros Hw.
  unfold readFile, complete_read, issue, next_fault, after_read. cbn.
  rewrite Hw. cbn. destruct (books_file w) eqn:Hf; cbn; rewrite ?Hf;
    by rewrite <- !app_assoc.
Qed.

(** Loading an existing file. *)
Lemma readBooksFile_calm raw st :
  calm (st_world st) -> books_file (st_world st) = Some raw ->
  readBooksFile st =
  (match JSON_parse raw with
   | Some v => Ok v
   | None => Err SyntaxError
   end, with_world (after_read (st_world st)) st).
Proof.
  intros Hw Hf. unfold readBooksFile. rewrite readFile_calm by done.
  rewrite Hf. by destruct (JSON_parse raw).
Qed.

Lemma sample_text : exists data, JSON_stringify SAMPLE_BOOKS = Some data.
Proof. by eexists. Qed.

(** Loading when there is no file: the file is seeded. *)
Lemma readBooksFile_seed st :
  calm (st_world st) -> idle st -> books_file (st_world st) = None ->
  readBooksFile st =
  (Ok SAMPLE_BOOKS,
   settled_ok (after_save (ser [] SAMPLE_BOOKS) (after_read (st_world st)))).
Proof.
  intros Hw Hq Hf. unfold readBooksFile. rewrite readFile_calm by done.
  rewrite Hf. cbn [code_is_ENOENT]. unfold bind.
  rewrite (writeBooksFile_calm _ (ser [] SAMPLE_BOOKS)); done.
Qed.

(** ** What a successful save leaves behind *)

Lemma run_write_ok books w u w' :
  run_write books w = (Ok u, w') ->
  books_file w' = JSON_stringify books /\ tmp_file w' = None.
Proof.
  unfold run_write. destruct (JSON_stringify books) as [data|]; [|done].
  unfold writeFile, complete_write, rename, complete_rename, issue, next_fault.
  cbn. destruct (faults w) as [|[e|] fs]; cbn; try done.
  - by intros [= <- <-].
  - destruct fs as [|[e|] fs']; cbn; try done; by intros [= <- <-].
Qed.

Lemma settle_enqueue_ok q books w u w' :
  settle (Catch (Then q books) books) w = (Ok u, w') ->
  books_file w' = JSON_stringify books /\ tmp_file w' = None.
Proof.
  cbn [settle]. destruct (settle q w) as [[v|e] w1].
  - destruct (run_write books w1) as [[v'|e'] w2] eqn:Hrun.
    + intros [= <- <-]. by eapply run_write_ok.
    + apply run_write_ok.
  - apply run_write_ok.
Qed.

Lemma writeBooksFile_ok books st u st' :
  writeBooksFile books st = (Ok u, st') ->
  books_file (st_world st') = JSON_stringify books /\
  writeQueue st' = Settled (Ok u).
Proof.
  unfold writeBooksFile, await_queue, enqueueWrite. cbn [writeQueue st_world].
  destruct (settle _ _) as [[v|e] w] eqn:Hs; [|done].
  intros [= <- <-]. cbn. split; [|done]. by eapply settle_enqueue_ok.
Qed.


(** ** Handlers: generic facts *)

Lemma status_error_handler e : status (error_handler e) = 500%Z.
Proof.
  unfold error_handler.
  destruct (code_is_ENOENT e); [done|]. by destruct (name_is_SyntaxError e).
Qed.

Lemma member_object k props st :
  member k (JObj props) st = (Ok (obj_get k props), st).
Proof. reflexivity. Qed.


Lemma findIndex_pure id items : forall i st r st',
  findIndex id items i st = (r, st') -> st' = st.
Proof.
  induction items as [|b rest IH]; intros i st r st'; cbn [findIndex].
  - by intros [= _ <-].
  - unfold bind. destruct b; cbn; try (by intros [= _ <-]);
      repeat match goal with
             | |- context [if ?c then _ else _] => destruct c; cbn
             end;
      try (by intros [= _ <-]); apply IH.
Qed.

(** The ids of typed records are read as they are. *)
Lemma max_id_books bs : forall m st,
  Forall (fun b => (0 < book_id b)%Z) bs ->
  max_id (map js_of_book bs) (Int m) st
  = (Ok (Int (fold_left (fun m b => Z.max m (book_id b)) bs m)), st).
Proof.
  induction bs as [|b r IH]; intros m st Hpos; [done|].
  inversion Hpos as [|? ? Hb Hr]; subst.
  cbn [map max_id]. unfold bind. cbn [js_of_book mk_book member get_prop obj_get].
  change (text_eqb k_id k_id) with true. cbv iota. unfold ret at 1.
  assert (Ht : truthy (JNum (Int (book_id b))) = true).
  { cbn. destruct (book_id b); done. }
  rewrite Ht. cbn [ToNumber lift_option]. unfold ret at 1.
  cbn [num_max num_cmp fold_left].
  replace (match (m ?= book_id b)%Z with Lt => Int (book_id b) | _ => Int m end)
    with (Int (Z.max m (book_id b))).
  2:{ unfold Z.max. by destruct (m ?= book_id b)%Z. }
  by apply IH.
Qed.

(** ** Property assignment *)

Lemma text_eqb_false a b : text_eqb a b = false <-> a <> b.
Proof. unfold text_eqb. apply bool_decide_eq_false. Qed.

Lemma obj_get_absent k props : has_key k props = false -> obj_get k props = JUndefined.
Proof.
  induction props as [|[k' v] r IH]; [done|]. cbn.
  intros [Hk Hr]%orb_false_iff. rewrite Hk. by apply IH.
Qed.

Lemma obj_get_replace_eq k v props :
  has_key k props = true -> obj_get k (obj_replace k v props) = v.
Proof.
  induction props as [|[k' v'] r IH]; [done|]. cbn.
  destruct (text_eqb k' k) eqn:Hk; cbn; rewrite Hk; [done|]. apply IH.
Qed.

Lemma obj_get_replace_ne k k0 v props :
  k0 <> k -> obj_get k0 (obj_replace k v props) = obj_get k0 props.
Proof.
  intros Hne. induction props as [|[k' v'] r IH]; [done|]. cbn.
  destruct (text_eqb k' k) eqn:Hk; cbn.
  - apply text_eqb_eq in Hk as ->.
    apply text_eqb_false in Hne as Hne'.
    assert (text_eqb k k0 = false) as ->; [|done].
    apply text_eqb_false. congruence.
  - destruct (text_eqb k' k0); [done|]. apply IH.
Qed.

Lemma obj_get_insert_index_eq i k v props :
  has_key k props = false -> obj_get k (obj_insert_index i k v props) = v.
Proof.
  induction props as [|[k' v'] r IH]; cbn.
  - by rewrite text_eqb_refl.
  - intros [Hk Hr]%orb_false_iff.
    destruct (array_index k') as [j|]; [destruct (j <? i)|]; cbn;
      rewrite ?Hk, ?text_eqb_refl; [by apply IH|done..].
Qed.

Lemma obj_get_insert_index_ne i k k0 v props :
  k0 <> k -> obj_get k0 (obj_insert_index i k v props) = obj_get k0 props.
Proof.
  intros Hne. assert (Hk : text_eqb k k0 = false).
  { apply text_eqb_false. congruence. }
  induction props as [|[k' v'] r IH]; cbn.
  - by rewrite Hk.
  - destruct (array_index k') as [j|]; [destruct (j <? i)|]; cbn;
      rewrite ?Hk; try done.
    destruct (text_eqb k' k0); [done|]. apply IH.
Qed.

Lemma obj_get_app k props1 props2 :
  obj_get k (props1 ++ props2) =
  if has_key k props1 then obj_get k props1 else obj_get k props2.
Proof.
  induction props1 as [|[k' v] r IH]; [done|]. cbn.
  destruct (text_eqb k' k); [done|]. apply IH.
Qed.

(** Reading the property just assigned. *)
Lemma obj_get_set_eq k v props : obj_get k (obj_set k v props) = v.
Proof.
  unfold obj_set. destruct (has_key k props) eqn:Hk.
  - by apply obj_get_replace_eq.
  - destruct (array_index k).
    + by apply obj_get_insert_index_eq.
    + rewrite obj_get_app, Hk. cbn. by rewrite text_eqb_refl.
Qed.

(** Reading any other property. *)
Lemma obj_get_set_ne k k0 v props :
  k0 <> k -> obj_get k0 (obj_set k v props) = obj_get k0 props.
Proof.
  intros Hne. unfold obj_set. destruct (has_key k props) eqn:Hk.
  - by apply obj_get_replace_ne.
  - destruct (array_index k).
    + by apply obj_get_insert_index_ne.
    + rewrite obj_get_app. destruct (has_key k0 props) eqn:Hk0; [done|].
      cbn. assert (text_eqb k k0 = false) as ->.
      { apply text_eqb_false. congruence. }
      by rewrite obj_get_absent.
Qed.

Lemma get_set_prop_eq k v b :
  (exists props, b = JObj props) -> get_prop k (set_prop k v b) = v.
Proof. intros [props ->]. apply obj_get_set_eq. Qed.

Lemma get_set_prop_ne k k0 v b :
  k0 <> k -> get_prop k0 (set_prop k v b) = get_prop k0 b.
Proof. intros Hne. destruct b; try done. by apply obj_get_set_ne. Qed.

Lemma set_prop_object k v b :
  (exists props, b = JObj props) -> exists props', set_prop k v b = JObj props'.
Proof. intros [props ->]. by eexists. Qed.

(** ** Searching by id *)

Lemma id_is_object id b :
  id_is id (get_prop k_id b) = true -> exists props, b = JObj props.
Proof. destruct b; try done. by eexists. Qed.

(** What findIndex returns: the first position whose id matches. *)
Lemma findIndex_some id items : forall i0 st i st',
  findIndex id items i0 st = (Ok (Some i), st') ->
  exists j book,
    i = (i0 + j)%nat /\ items !! j = Some book /\
    id_is id (get_prop k_id book) = true /\
    forall j' b, (j' < j)%nat -> items !! j' = Some b ->
                 id_is id (get_prop k_id b) = false.
Proof.
  induction items as [|b rest IH]; intros i0 st i st'; cbn [findIndex].
  - by intros [= ].
  - unfold bind.
    destruct (member k_id b st) as [[v|e] st1] eqn:Hm; [|done].
    assert (v = get_prop k_id b) as ->.
    { destruct b; cbn in Hm; by inversion Hm. }
    destruct (id_is id (get_prop k_id b)) eqn:Hid.
    + intros [= <- <-]. exists O, b. split_and!; [lia|done|done|].
      intros j' b' Hj. lia.
    + intros Hfind. apply IH in Hfind as (j & book & -> & Hj & Hbook & Hfirst).
      exists (S j), book. split_and!; [lia|done|done|].
      intros [|j'] b' Hlt Hb'; cbn in Hb'.
      * by injection Hb' as <-.
      * eapply Hfirst; [|done]. lia.
Qed.

Lemma findIndex_none id items : forall i0 st,
  Forall (fun b => b <> JNull /\ b <> JUndefined /\
                   id_is id (get_prop k_id b) = false) items ->
  findIndex id items i0 st = (Ok None, st).
Proof.
  induction items as [|b rest IH]; intros i0 st Hall; [done|].
  inversion Hall as [|? ? (Hn & Hu & Hid) Hr]; subst.
  cbn [findIndex]. unfold bind.
  assert (member k_id b st = (Ok (get_prop k_id b), st)) as ->.
  { by destruct b. }
  rewrite Hid. by apply IH.
Qed.

(** ** The id of the path *)

Lemma invalid_id_positive z : (0 < z)%Z -> invalid_id (Int z) = false.
Proof.
  intros Hz. unfold invalid_id, num_leb. cbn.
  by destruct (Z.compare_spec z 0); try lia.
Qed.

Lemma digit_not_space c : is_digit c = true -> is_str_ws c = false.
Proof.
  intros Hc. apply is_digit_spec in Hc. unfold is_str_ws.
  repeat match goal with
  | |- context [c =? ?k] =>
      replace (c =? k) with false by (symmetry; apply N.eqb_neq; lia)
  end.
  replace (c <=? 8202) with true by (symmetry; apply N.leb_le; lia).
  replace (8192 <=? c) with false by (symmetry; apply N.leb_gt; lia).
  reflexivity.
Qed.

Lemma trim_left_head s :
  match s with [] => True | c :: _ => is_str_ws c = false end ->
  trim_left s = s.
Proof. destruct s as [|c r]; [done|]. cbn. by intros ->. Qed.

Lemma trim_no_space s :
  Forall (fun c => is_str_ws c = false) s -> trim s = s.
Proof.
  intros Hs. unfold trim. rewrite (trim_left_head s).
  2:{ by destruct Hs. }
  rewrite (trim_left_head (rev s)); [apply rev_involutive|].
  apply Forall_rev in Hs. by destruct Hs.
Qed.

Lemma trim_digits n : trim (digits n) = digits n.
Proof.
  apply trim_no_space. eapply Forall_impl; [apply digits_all|].
  intros c. apply digit_not_space.
Qed.

(** The decimal digits of [n] read as an unsigned decimal literal. *)
Lemma str_unsigned_decimal_digits neg n :
  str_unsigned_decimal neg (digits n)
  = Int (if neg then - Z.of_N n else Z.of_N n).
Proof.
  unfold str_unsigned_decimal.
  assert (Hinf : text_eqb (digits n) (txt "Infinity") = false).
  { apply text_eqb_false. intros Heq. pose proof (digits_all n) as Hall.
    rewrite Heq in Hall. by inversion Hall. }
  rewrite Hinf.
  pose proof (take_digits_digits n [] I) as Htake.
  rewrite app_nil_r in Htake. rewrite Htake.
  cbn [eat]. pose proof (digits_nonempty n) as Hlen.
  destruct (length (digits n)) as [|k]; [lia|].
  cbn [take_exponent]. unfold mk_dec. cbn [Nat.add N.of_nat Z.of_nat].
  change (0 <=? 0 - 0)%Z with true. cbv iota.
  f_equal. change (10 ^ 0) with 1. change (10 ^ (0 - 0))%Z with 1%Z.
  destruct neg; lia.
Qed.

Lemma StringToNumber_digits n :
  0 < n -> StringToNumber (digits n) = Int (Z.of_N n).
Proof.
  intros Hn. unfold StringToNumber. rewrite trim_digits.
  pose proof (str_unsigned_decimal_digits false n) as Hdec.
  destruct (digits_head n Hn) as (c & r & Hd & Hc).
  pose proof (digits_all n) as Hall. rewrite Hd in Hall, Hdec.
  apply Forall_cons in Hall as [Hdig _]. apply is_digit_spec in Hdig.
  rewrite Hd.
  assert (Hcases : c = 49 \/ c = 50 \/ c = 51 \/ c = 52 \/ c = 53 \/ c = 54 \/
                   c = 55 \/ c = 56 \/ c = 57) by lia.
  destruct Hcases as [->|[->|[->|[->|[->|[->|[->|[->| ->]]]]]]]];
    exact Hdec.
Qed.

Lemma StringToNumber_minus n :
  StringToNumber (45 :: digits n) = Int (- Z.of_N n).
Proof.
  unfold StringToNumber.
  assert (Htrim : trim (45 :: digits n) = 45 :: digits n).
  { apply trim_no_space. constructor; [done|].
    eapply Forall_impl; [apply digits_all|]. intros c. apply digit_not_space. }
  rewrite Htrim. apply (str_unsigned_decimal_digits true).
Qed.


(** ** Create *)

Lemma available_or_true_eq v :
  match v with JBool _ => v | _ => JBool true end = available_or_true v.
Proof. by destruct v. Qed.

(** The handler once the payload has passed validation. *)
Lemma post_books_valid props st :
  truthy (obj_get k_title props) = true ->
  truthy (obj_get k_author props) = true ->
  post_books (JObj props) st =
  handle (
    let* books := readBooksFile in
    let* items := as_array books in
    let* maxId := max_id items (Int 0) in
    let newBook :=
      mk_book (JNum (num_add maxId (Int 1))) (obj_get k_title props)
        (obj_get k_author props)
        (available_or_true (obj_get k_available props)) in
    let* _ := writeBooksFile (JArr (items ++ [newBook])) in
    ret (respond 201 newBook)) st.
Proof.
  intros Ht Ha. unfold post_books, handle, bind.
  rewrite !member_object, Ht, Ha. cbn [negb orb].
  by rewrite available_or_true_eq.
Qed.



Lemma post_books_calm props st bs :
  truthy (obj_get k_title props) = true ->
  truthy (obj_get k_author props) = true ->
  calm (st_world st) -> idle st ->
  persisted st = Some (js_of_books bs) ->
  Forall (fun b => (0 < book_id b)%Z) bs ->
  let created :=
    mk_book (JNum (Int (max_book_id bs + 1))) (obj_get k_title props)
      (obj_get k_author props)
      (available_or_true (obj_get k_available props)) in
  post_books (JObj props) st
  = (respond 201 created,
     settled_ok (after_save (ser [] (JArr (map js_of_book bs ++ [created])))
                   (after_read (st_world st)))).
Proof.
  intros Ht Ha Hcalm Hidle Hfile Hpos created.
  rewrite post_books_valid by done.
  unfold persisted in Hfile.
  destruct (books_file (st_world st)) as [raw|] eqn:Hraw; [|done].
  unfold handle, bind. rewrite (readBooksFile_calm raw) by done.
  rewrite Hfile. cbn [js_of_books as_array ret].
  rewrite max_id_books by done. fold (max_book_id bs).
  cbn [num_add]. fold created.
  erewrite writeBooksFile_calm; [done|done| |apply stringify_array].
  destruct Hidle as [r Hr]. by exists r.
Qed.




(** ** Update and delete: the id of the path *)

Lemma member_defined k b st :
  b <> JNull -> b <> JUndefined -> member k b st = (Ok (get_prop k b), st).
Proof. intros Hn Hu. by destruct b. Qed.

Lemma supplies_field_member req_body st :
  supplies_field req_body = true ->
  member k_title req_body st = (Ok (get_prop k_title req_body), st) /\
  member k_author req_body st = (Ok (get_prop k_author req_body), st) /\
  member k_available req_body st = (Ok (get_prop k_available req_body), st).
Proof. intros Hs. by destruct req_body. Qed.

(** C10 (amended): for a path segment that Number() reads as the model
    does (its value is NaN, an infinity or a safe integer): when the value
    is not a positive integer, update and delete answer 400 'Invalid id'
    without any load or save.  When it is a positive integer, an update
    whose payload supplies none of title, author, available answers 400
    before the collection is loaded; and when no record of the loaded
    collection (its numeric ids safe integers) has that id, delete answers
    404 'Book not found', and so does update when the payload supplies a
    field; nothing is saved after the load, so an existing file keeps its
    contents and no record is created.  A minus sign followed by decimal
    digits is not a positive integer, and the decimal digits of a positive
    safe integer are. *)
Theorem invalid_id_400_unknown_id_404 (seg : text) (req_body : jsval) (st : state) :
  exact (StringToNumber seg) = true ->
  (invalid_id (StringToNumber seg) = true ->
     put_book seg req_body st = (respond 400 (error_body "Invalid id"), st) /\
     delete_book seg st = (respond 400 (error_body "Invalid id"), st)) /\
  (invalid_id (StringToNumber seg) = false ->
     (readable req_body -> supplies_field req_body = false ->
        put_book seg req_body st = (no_field_answer, st)) /\
     (forall items st1,
        readBooksFile st = (Ok (JArr items), st1) ->
        forallb exact_id items = true ->
        no_record (StringToNumber seg) items ->
        delete_book seg st = (respond 404 (error_body "Book not found"), st1) /\
        (supplies_field req_body = true ->
           put_book seg req_body st
           = (respond 404 (error_body "Book not found"), st1)) /\
        (forall raw, calm (st_world st) ->
           books_file (st_world st) = Some raw ->
           books_file (st_world st1) = Some raw))) /\
  (forall n, (Z.of_N n <= MAX_SAFE_INTEGER)%Z ->
     exact (StringToNumber (45 :: digits n)) = true /\
     invalid_id (StringToNumber (45 :: digits n)) = true /\
     (0 < n ->
        exact (StringToNumber (digits n)) = true /\
        invalid_id (StringToNumber (digits n)) = false)).
Proof.
  intros _. split_and!.
  - intros Hbad. unfold put_book, delete_book, handle. by rewrite Hbad.
  - intros Hgood. split.
    + intros [Hn Hu] Hs. unfold put_book, handle, bind. rewrite Hgood.
      rewrite !member_defined by done.
      unfold supplies_field in Hs. apply negb_false_iff in Hs. by rewrite Hs.
    + intros items st1 Hload _ Hnone. split_and!.
      * unfold delete_book, handle, bind. rewrite Hgood, Hload.
        cbn [as_array ret]. by rewrite findIndex_none.
      * intros Hs. unfold put_book, handle, bind. rewrite Hgood.
        destruct (supplies_field_member req_body st Hs) as (-> & -> & ->).
        unfold supplies_field in Hs. apply negb_true_iff in Hs. rewrite Hs.
        rewrite Hload. cbn [as_array ret]. by rewrite findIndex_none.
      * intros raw Hcalm Hfile.
        rewrite (readBooksFile_calm raw) in Hload by done.
        by injection Hload as _ <-.
  - intros n Hn. rewrite StringToNumber_minus. split_and!.
    + cbn [exact]. apply Z.leb_le. lia.
    + unfold invalid_id, num_leb. cbn.
      by destruct (Z.compare_spec (- Z.of_N n) 0); try lia.
    + intros Hpos. rewrite StringToNumber_digits by done. split.
      * cbn [exact]. apply Z.leb_le. lia.
      * apply invalid_id_positive. lia.
Qed.

(** C10 as stated fails on update: a positive-integer id that matches no
    record is answered 400, not 404, when the payload supplies no field. *)
Lemma update_unknown_id_without_fields :
  invalid_id (StringToNumber (txt "99")) = false /\
  (exists st1, readBooksFile seeded_state = (Ok SAMPLE_BOOKS, st1)) /\
  no_record (StringToNumber (txt "99"))
    (match SAMPLE_BOOKS with JArr items => items | _ => [] end) /\
  status (put_book (txt "99") (JObj []) seeded_state).1 = 400%Z.
Proof.
  split_and!.
  - reflexivity.
  - eexists. vm_compute. reflexivity.
  - repeat constructor; done.
  - vm_compute. reflexivity.
Qed.

(** ** Partial update *)

(** C8: a successful partial update (status 200) found the first record
    whose id is the requested one in the loaded collection; in the record
    it returns, a supplied title or author has the payload's value, a
    supplied available is the payload's value coerced to a boolean, and
    every property that was not supplied, the id included, has the value it
    had; the collection it saved is the loaded one with that record
    replaced in place, every other record unchanged at its position. *)
Theorem partial_update_frame (seg : text) (req_body : jsval) (st : state)
    (resp : response) (st' : state) :
  put_book seg req_body st = (resp, st') ->
  status resp = 200%Z ->
  let id := StringToNumber seg in
  let title := get_prop k_title req_body in
  let author := get_prop k_author req_body in
  let available := get_prop k_available req_body in
  exists items i book st1,
    readBooksFile st = (Ok (JArr items), st1) /\
    items !! i = Some book /\
    id_is id (get_prop k_id book) = true /\
    (forall j b, (j < i)%nat -> items !! j = Some b ->
                 id_is id (get_prop k_id b) = false) /\
    get_prop k_title (body resp)
    = (if is_undefined title then get_prop k_title book else title) /\
    get_prop k_author (body resp)
    = (if is_undefined author then get_prop k_author book else author) /\
    get_prop k_available (body resp)
    = (if is_undefined available then get_prop k_available book
       else JBool (truthy available)) /\
    (forall k, k <> k_title -> k <> k_author -> k <> k_available ->
               get_prop k (body resp) = get_prop k book) /\
    books_file (st_world st')
    = JSON_stringify (JArr (<[i := body resp]> items)) /\
    length (<[i := body resp]> items) = length items /\
    (forall j, j <> i -> (<[i := body resp]> items) !! j = items !! j).
Proof.
  intros Hput H200 id title author available.
  unfold put_book, handle in Hput. fold id in Hput.
  destruct (invalid_id id).
  { injection Hput as <- _. done. }
  unfold bind in Hput.
  destruct (member k_title req_body st) as [[t|e] s1] eqn:Hm1.
  2:{ injection Hput as <- _. by rewrite status_error_handler in H200. }
  assert (Hbody : req_body <> JNull /\ req_body <> JUndefined).
  { by destruct req_body. }
  destruct Hbody as [Hn Hu].
  rewrite member_defined in Hm1 by done. injection Hm1 as <- <-.
  rewrite !member_defined in Hput by done.
  fold title author available in Hput.
  destruct (is_undefined title && is_undefined author && is_undefined available).
  { injection Hput as <- _. done. }
  destruct (readBooksFile st) as [[books|e] st1] eqn:Hload.
  2:{ injection Hput as <- _. by rewrite status_error_handler in H200. }
  destruct books as [| | | | |items|]; cbn [as_array throw ret] in Hput;
    try (injection Hput as <- _; by rewrite status_error_handler in H200).
  destruct (findIndex id items 0 st1) as [[[i|]|e] st2] eqn:Hfind.
  2:{ injection Hput as <- _. done. }
  2:{ injection Hput as <- _. by rewrite status_error_handler in H200. }
  apply findIndex_pure in Hfind as Hst. subst st2.
  apply findIndex_some in Hfind as (j & book & -> & Hj & Hid & Hfirst).
  cbn [Nat.add] in Hput. rewrite Hj in Hput. cbn [default] in Hput.
  destruct (id_is_object _ _ Hid) as [props Hprops].
  set (book1 := if is_undefined title then book
                else set_prop k_title title book) in Hput.
  set (book2 := if is_undefined author then book1
                else set_prop k_author author book1) in Hput.
  set (book3 := if is_undefined available then book2
                else set_prop k_available (JBool (truthy available)) book2)
    in Hput.
  destruct (writeBooksFile _ st1) as [[u|e] st3] eqn:Hsave.
  2:{ injection Hput as <- _. by rewrite status_error_handler in H200. }
  injection Hput as <- <-. cbn [body respond].
  apply writeBooksFile_ok in Hsave as [Hfile _].
  assert (Ho1 : exists p, book1 = JObj p).
  { unfold book1. destruct (is_undefined title); [by eexists|].
    apply set_prop_object. by eexists. }
  assert (Ho2 : exists p, book2 = JObj p).
  { unfold book2. destruct (is_undefined author); [done|].
    by apply set_prop_object. }
  exists items, j, book, st1. split_and!; try done.
  - unfold book3, book2, book1.
    destruct (is_undefined available), (is_undefined author),
      (is_undefined title);
      rewrite ?get_set_prop_ne by done; try done;
      apply get_set_prop_eq; by eexists.
  - unfold book3, book2.
    destruct (is_undefined available), (is_undefined author);
      rewrite ?get_set_prop_ne by done; try done;
      unfold book1; destruct (is_undefined title);
      rewrite ?get_set_prop_ne by done; try done;
      by apply get_set_prop_eq.
  - unfold book3. destruct (is_undefined available).
    + unfold book2, book1.
      destruct (is_undefined author), (is_undefined title);
        by rewrite ?get_set_prop_ne by done.
    + by apply get_set_prop_eq.
  - intros k Hk1 Hk2 Hk3. unfold book3, book2, book1.
    destruct (is_undefined available), (is_undefined author),
      (is_undefined title); by rewrite ?get_set_prop_ne by done.
  - apply length_insert.
  - intros j' Hne. by apply list_lookup_insert_ne.
Qed.


(** ** The parser never runs out of fuel *)

Lemma skip_ws_length s : (length (skip_ws s) <= length s)%nat.
Proof.
  induction s as [|c r IH]; [done|]. cbn [skip_ws].
  destruct (is_json_ws c); simpl; lia.
Qed.

Lemma eat_length c s r : eat c s = Some r -> length s = S (length r).
Proof.
  destruct s as [|c' s']; [done|]. cbn.
  destruct (c' =? c); [|done]. by intros [= ->].
Qed.

Lemma eat_skip_length c s r :
  eat c (skip_ws s) = Some r -> (length r < length s)%nat.
Proof.
  intros H%eat_length. pose proof (skip_ws_length s). lia.
Qed.

Lemma parse_chars_length_aux n : forall s str rest,
  (length s <= n)%nat ->
  parse_chars s = Some (str, rest) -> (length rest < length s)%nat.
Proof.
  induction n as [|n IH]; intros s str rest Hn.
  { destruct s; [done|simpl in Hn; lia]. }
  destruct s as [|c r]; [done|]. cbn [parse_chars].
  assert (Hrec : forall t x o, (length t <= n)%nat ->
            match parse_chars t with
            | Some (str, rest) => Some (x :: str, rest)
            | None => None
            end = Some o -> (length o.2 < length t)%nat).
  { intros t x o Ht. destruct (parse_chars t) as [[s' r']|] eqn:Hp; [|done].
    intros [= <-]. cbn. by eapply IH. }
  simpl in Hn.
  destruct (c =? 34). { intros [= _ <-]. simpl. lia. }
  destruct (c =? 92).
  - destruct r as [|e r1]; [done|]. simpl in Hn.
    repeat match goal with
           | |- context [if ?b then _ else _] => destruct b
           end;
      try done;
      try (intros H; apply (Hrec r1 _ (str, rest)) in H; simpl in *; lia).
    destruct r1 as [|h1 [|h2 [|h3 [|h4 r2]]]]; try done.
    destruct (hex_value h1), (hex_value h2), (hex_value h3), (hex_value h4);
      try done.
    intros H. apply (Hrec r2 _ (str, rest)) in H; simpl in *; lia.
  - destruct (c <? 32); [done|].
    intros H. apply (Hrec r _ (str, rest)) in H; simpl in *; lia.
Qed.

Lemma parse_chars_length s str rest :
  parse_chars s = Some (str, rest) -> (length rest < length s)%nat.
Proof. by apply (parse_chars_length_aux (length s)). Qed.

Lemma take_digits_length s : forall acc cnt a cnt' rest,
  take_digits s acc cnt = (a, cnt', rest) ->
  (length rest + cnt' = length s + cnt)%nat.
Proof.
  induction s as [|c r IH]; intros acc cnt a cnt' rest; cbn [take_digits].
  - intros [= _ <- <-]. done.
  - destruct (is_digit c).
    + intros H%IH. simpl. lia.
    + intros [= _ <- <-]. done.
Qed.

Lemma take_exponent_length s e rest :
  take_exponent s = Some (e, rest) -> (length rest <= length s)%nat.
Proof.
  unfold take_exponent. destruct s as [|c r]; [by intros [= _ <-]|].
  destruct ((c =? 101) || (c =? 69)); [|by intros [= _ <-]].
  destruct (eat 45 r) as [r'|] eqn:H45; [|destruct (eat 43 r) as [r'|] eqn:H43].
  - destruct (take_digits r' 0 0) as [[v cnt] rest'] eqn:Ht.
    destruct cnt; [done|]. intros [= _ <-].
    apply take_digits_length in Ht. apply eat_length in H45. simpl. lia.
  - destruct (take_digits r' 0 0) as [[v cnt] rest'] eqn:Ht.
    destruct cnt; [done|]. intros [= _ <-].
    apply take_digits_length in Ht. apply eat_length in H43. simpl. lia.
  - destruct (take_digits r 0 0) as [[v cnt] rest'] eqn:Ht.
    destruct cnt; [done|]. intros [= _ <-].
    apply take_digits_length in Ht. simpl. lia.
Qed.

Lemma parse_number_length s n rest :
  parse_number s = Some (n, rest) -> (length rest < length s)%nat.
Proof.
  unfold parse_number.
  assert (Hsign : exists neg s1,
    (match eat 45 s with Some r => (true, r) | None => (false, s) end)
    = (neg, s1) /\ (length s1 <= length s)%nat).
  { destruct (eat 45 s) as [r|] eqn:He; eexists _, _; (split; [done|]).
    - apply eat_length in He. lia.
    - done. }
  destruct Hsign as (neg & s1 & -> & Hs1).
  assert (Hint : forall i r1,
    (match eat 48 s1 with
     | Some r => Some (0, r)
     | None =>
         let '(i, cnt, r) := take_digits s1 0 0 in
         match cnt with O => None | S _ => Some (i, r) end
     end) = Some (i, r1) -> (length r1 < length s1)%nat).
  { intros i r1. destruct (eat 48 s1) as [r|] eqn:He.
    - intros [= _ <-]. apply eat_length in He. lia.
    - destruct (take_digits s1 0 0) as [[v cnt] r] eqn:Ht.
      destruct cnt; [done|]. intros [= _ <-].
      apply take_digits_length in Ht. lia. }
  destruct (match eat 48 s1 with Some r => _ | None => _ end)
    as [[i r1]|]; [|done].
  specialize (Hint _ _ eq_refl).
  assert (Hfrac : forall f cf r2,
    (match eat 46 r1 with
     | Some r =>
         let '(f, cnt, r') := take_digits r 0 0 in
         match cnt with O => None | S _ => Some (f, cnt, r') end
     | None => Some (0, O, r1)
     end) = Some (f, cf, r2) -> (length r2 <= length r1)%nat).
  { intros f cf r2. destruct (eat 46 r1) as [r|] eqn:He.
    - destruct (take_digits r 0 0) as [[v cnt] r'] eqn:Ht.
      destruct cnt; [done|]. intros [= _ _ <-].
      apply take_digits_length in Ht. apply eat_length in He. lia.
    - by intros [= _ _ <-]. }
  destruct (match eat 46 r1 with Some r => _ | None => _ end)
    as [[[f cf] r2]|]; [|done].
  specialize (Hfrac _ _ _ eq_refl).
  destruct (take_exponent r2) as [[e r3]|] eqn:He; [|done].
  intros [= _ <-]. apply take_exponent_length in He. lia.
Qed.

Lemma expect_length lit v s a rest :
  lit <> [] -> expect lit v s = Some (a, rest) -> (length rest < length s)%nat.
Proof.
  intros Hne. unfold expect, text_eqb. case_bool_decide as Heq; [|done].
  intros [= _ <-]. rewrite length_drop.
  assert (length (take (length lit) s) = length lit) as Hl by by rewrite Heq.
  rewrite length_take in Hl.
  assert (0 < length lit)%nat by (destruct lit; [done|simpl; lia]). lia.
Qed.

(** What the parser returns is a proper suffix of what it was given. *)
Lemma parse_consumes fuel :
  (forall s v rest, parse_value fuel s = Parsed v rest ->
                    (length rest < length s)%nat) /\
  (forall s acc v rest, parse_items fuel s acc = Parsed v rest ->
                        (length rest < length s)%nat) /\
  (forall s acc v rest, parse_members fuel s acc = Parsed v rest ->
                        (length rest < length s)%nat).
Proof.
  induction fuel as [|f (IHv & IHi & IHm)]; [done|]. split_and!.
  - intros s v rest. rewrite parse_value_S.
    pose proof (skip_ws_length s) as Hws.
    destruct (skip_ws s) as [|c r]; [done|]. simpl in Hws.
    destruct (c =? 91).
    { destruct (eat 93 (skip_ws r)) as [r'|] eqn:He.
      - intros [= _ <-]. apply eat_skip_length in He. lia.
      - intros H%IHi. lia. }
    destruct (c =? 123).
    { destruct (eat 125 (skip_ws r)) as [r'|] eqn:He.
      - intros [= _ <-]. apply eat_skip_length in He. lia.
      - intros H%IHm. lia. }
    destruct (c =? 34).
    { destruct (parse_chars r) as [[str rest']|] eqn:Hp; [|done].
      intros [= _ <-]. apply parse_chars_length in Hp. lia. }
    assert (Hlit : forall lit a,
      lit <> [] -> of_option (expect lit a (c :: r)) = Parsed v rest ->
      (length rest < length s)%nat).
    { intros lit a Hne. destruct (expect lit a (c :: r)) as [[a' r']|] eqn:He;
        [|done].
      intros [= _ <-]. apply expect_length in He; [|done]. simpl in He. lia. }
    destruct (c =? 110); [by apply Hlit|].
    destruct (c =? 116); [by apply Hlit|].
    destruct (c =? 102); [by apply Hlit|].
    destruct (parse_number (c :: r)) as [[n rest']|] eqn:Hn; [|done].
    intros [= _ <-]. apply parse_number_length in Hn. simpl in Hn. lia.
  - intros s acc v rest. rewrite parse_items_S.
    destruct (parse_value f s) as [x r| |] eqn:Hv; [|done..].
    apply IHv in Hv.
    destruct (eat 44 (skip_ws r)) as [r'|] eqn:He.
    + intros H%IHi. apply eat_skip_length in He. lia.
    + destruct (eat 93 (skip_ws r)) as [r'|] eqn:He'; [|done].
      intros [= _ <-]. apply eat_skip_length in He'. lia.
  - intros s acc v rest. rewrite parse_members_S.
    destruct (eat 34 (skip_ws s)) as [r|] eqn:H1; [|done].
    apply eat_skip_length in H1.
    destruct (parse_chars r) as [[k r1]|] eqn:H2; [|done].
    apply parse_chars_length in H2.
    destruct (eat 58 (skip_ws r1)) as [r2|] eqn:H3; [|done].
    apply eat_skip_length in H3.
    destruct (parse_value f r2) as [x r3| |] eqn:Hv; [|done..].
    apply IHv in Hv.
    destruct (eat 44 (skip_ws r3)) as [r'|] eqn:He.
    + intros H%IHm. apply eat_skip_length in He. lia.
    + destruct (eat 125 (skip_ws r3)) as [r'|] eqn:He'; [|done].
      intros [= _ <-]. apply eat_skip_length in He'. lia.
Qed.

Lemma parse_fuel fuel :
  (forall s, (2 * length s + 1 <= fuel)%nat -> parse_value fuel s <> OutOfFuel) /\
  (forall s acc, (2 * length s + 2 <= fuel)%nat ->
                 parse_items fuel s acc <> OutOfFuel) /\
  (forall s acc, (2 * length s + 2 <= fuel)%nat ->
                 parse_members fuel s acc <> OutOfFuel).
Proof.
  induction fuel as [|f (IHv & IHi & IHm)].
  { split_and!; intros; lia. }
  destruct (parse_consumes f) as (Cv & Ci & Cm). split_and!.
  - intros s Hf. rewrite parse_value_S.
    pose proof (skip_ws_length s) as Hws.
    destruct (skip_ws s) as [|c r]; [done|]. simpl in Hws.
    destruct (c =? 91).
    { destruct (eat 93 (skip_ws r)); [done|]. apply IHi. lia. }
    destruct (c =? 123).
    { destruct (eat 125 (skip_ws r)); [done|]. apply IHm. lia. }
    destruct (c =? 34). { by destruct (parse_chars r) as [[? ?]|]. }
    destruct (c =? 110). { by destruct (expect _ _ _) as [[? ?]|]. }
    destruct (c =? 116). { by destruct (expect _ _ _) as [[? ?]|]. }
    destruct (c =? 102). { by destruct (expect _ _ _) as [[? ?]|]. }
    by destruct (parse_number (c :: r)) as [[? ?]|].
  - intros s acc Hf. rewrite parse_items_S.
    destruct (parse_value f s) as [x r| |] eqn:Hv; [|done|].
    + apply Cv in Hv.
      destruct (eat 44 (skip_ws r)) as [r'|] eqn:He.
      * apply eat_skip_length in He. apply IHi. lia.
      * by destruct (eat 93 (skip_ws r)).
    + exfalso. revert Hv. apply IHv. lia.
  - intros s acc Hf. rewrite parse_members_S.
    destruct (eat 34 (skip_ws s)) as [r|] eqn:H1; [|done].
    apply eat_skip_length in H1.
    destruct (parse_chars r) as [[k r1]|] eqn:H2; [|done].
    apply parse_chars_length in H2.
    destruct (eat 58 (skip_ws r1)) as [r2|] eqn:H3; [|done].
    apply eat_skip_length in H3.
    destruct (parse_value f r2) as [x r3| |] eqn:Hv; [|done|].
    + apply Cv in Hv.
      destruct (eat 44 (skip_ws r3)) as [r'|] eqn:He.
      * apply eat_skip_length in He. apply IHm. lia.
      * by destruct (eat 125 (skip_ws r3)).
    + exfalso. revert Hv. apply IHv. lia.
Qed.

(** [JSON_parse] gives its parser enough fuel: [None] is a syntax error. *)
Lemma JSON_parse_fuel s : parse_value (2 * length s + 2) s <> OutOfFuel.
Proof. apply parse_fuel. lia. Qed.


(** ** A file that is not JSON *)

(** C7 (amended): when the file exists and its contents are not valid JSON,
    load fails with the SyntaxError of the parser, which is not the
    missing-file error; nothing is written (no seeding, no repair: the
    only operation is the read, and both files are as they were); and
    every handler that loads answers 500 with the message 'Books file
    contains invalid JSON', which no other error gets. *)
Theorem invalid_json_is_reported (raw : text) (st : state) :
  calm (st_world st) ->
  books_file (st_world st) = Some raw ->
  JSON_parse raw = None ->
  let st' := with_world (after_read (st_world st)) st in
  let answer := respond 500 (error_body "Books file contains invalid JSON") in
  readBooksFile st = (Err SyntaxError, st') /\
  code_is_ENOENT SyntaxError = false /\
  books_file (st_world st') = Some raw /\
  tmp_file (st_world st') = tmp_file (st_world st) /\
  log (st_world st') = log (st_world st) ++
                       [Issued ReadFile; Completed ReadFile None] /\
  get_books st = (answer, st') /\
  get_available st = (answer, st') /\
  (forall props,
     truthy (obj_get k_title props) = true ->
     truthy (obj_get k_author props) = true ->
     post_books (JObj props) st = (answer, st')) /\
  (forall seg req_body,
     invalid_id (StringToNumber seg) = false ->
     supplies_field req_body = true ->
     put_book seg req_body st = (answer, st')) /\
  (forall seg,
     invalid_id (StringToNumber seg) = false ->
     delete_book seg st = (answer, st')) /\
  (forall e, error_handler e = answer -> e = SyntaxError).
Proof.
  intros Hcalm Hfile Hbad st' answer.
  assert (Hload : readBooksFile st = (Err SyntaxError, st')).
  { rewrite (readBooksFile_calm raw) by done. by rewrite Hbad. }
  split_and!; try done.
  - unfold st', after_read. cbn. by rewrite Hfile.
  - unfold get_books, handle, bind. by rewrite Hload.
  - unfold get_available, handle, bind. by rewrite Hload.
  - intros props Ht Ha. rewrite post_books_valid by done.
    unfold handle, bind. by rewrite Hload.
  - intros seg req_body Hid Hs. unfold put_book, handle, bind. rewrite Hid.
    destruct (supplies_field_member req_body st Hs) as (-> & -> & ->).
    unfold supplies_field in Hs. apply negb_true_iff in Hs. rewrite Hs.
    by rewrite Hload.
  - intros seg Hid. unfold delete_book, handle, bind. by rewrite Hid, Hload.
  - intros e. unfold error_handler.
    destruct e as [[]| |]; cbn; try done.
Qed.

(** C7 as stated fails: a file that holds JSON which is not a collection of
    book records is loaded without any error, and listing answers 200. *)
Lemma wrong_shape_is_not_reported :
  let st := initial_state (Some (txt "{}")) in
  JSON_parse (txt "{}") = Some (JObj []) /\
  is_collection (JObj []) = false /\
  (readBooksFile st).1 = Ok (JObj []) /\
  status (get_books st).1 = 200%Z.
Proof. vm_compute. done. Qed.

(** ** A write that fails *)

(** A call of the write closure that fails is followed by a second call:
    the catch reaction of [enqueueWrite] runs the closure again. *)
Lemma enqueueWrite_runs_again books w e w1 :
  run_write books w = (Err e, w1) ->
  settle (Catch (Then (Settled (Ok tt)) books) books) w = run_write books w1.
Proof. intros Hrun. cbn [settle]. by rewrite Hrun. Qed.

(** C4 fails on the code: with the file holding an empty collection and the
    first write of the temporary file failing with EIO, create issues the
    write twice, and, the second attempt succeeding, answers 201: the
    failure is neither propagated nor reported.  When the second attempt
    fails too, the answer is 500 after two attempts. *)
Lemma failed_write_is_attempted_twice :
  let body := JObj (payload "X" "Y") in
  let once := settled_ok (world_with (Some (txt "[]")) [None; Some EIO]) in
  let twice := settled_ok (world_with (Some (txt "[]")) [None; Some EIO; Some EIO]) in
  status (post_books body once).1 = 201%Z /\
  writes_issued (log (st_world (post_books body once).2)) = 2%nat /\
  status (post_books body twice).1 = 500%Z /\
  writes_issued (log (st_world (post_books body twice).2)) = 2%nat.
Proof. vm_compute. done. Qed.


(** ** Typed collections in the store *)

Lemma storable_book b :
  (Z.abs (book_id b) < 10 ^ 21)%Z -> storable (js_of_book b) = true.
Proof.
  intros Hb. apply Z.ltb_lt in Hb. unfold js_of_book, mk_book.
  rewrite storable_object. cbn [map fst forallb snd storable].
  rewrite Hb. reflexivity.
Qed.

Lemma storable_books bs :
  Forall (fun b => (Z.abs (book_id b) < 10 ^ 21)%Z) bs ->
  storable (js_of_books bs) = true.
Proof.
  intros Hall. unfold js_of_books. rewrite storable_array.
  induction Hall as [|b r Hb Hr IH]; [done|].
  cbn [map forallb]. by rewrite storable_book, IH.
Qed.

(** After an undisturbed save of a storable value the file holds it. *)
Lemma persisted_after_save v w :
  storable v = true ->
  persisted (settled_ok (after_save (ser [] v) w)) = Some v.
Proof.
  intros Hv. unfold persisted. cbn.
  destruct (JSON_round_trip v Hv) as (s & Hs & Hp).
  unfold JSON_stringify in Hs. rewrite (storable_serialize v) in Hs by done.
  by injection Hs as ->.
Qed.

Lemma save_storable v st :
  calm (st_world st) -> idle st -> storable v = true ->
  writeBooksFile v st = (Ok tt, settled_ok (after_save (ser [] v) (st_world st))).
Proof.
  intros Hc Hi Hv. apply writeBooksFile_calm; [done..|].
  unfold JSON_stringify. by apply storable_serialize.
Qed.

Lemma calm_after_save data w : calm (after_save data w).
Proof. reflexivity. Qed.

Lemma idle_settled_ok w : idle (settled_ok w).
Proof. by eexists. Qed.

Lemma calm_after_read w : calm (after_read w).
Proof. reflexivity. Qed.

Lemma idle_with_world w st : idle st -> idle (with_world w st).
Proof. intros [r Hr]. by exists r. Qed.

(** Loading a file that holds a collection. *)
Lemma load_persisted v st :
  calm (st_world st) -> persisted st = Some v ->
  readBooksFile st = (Ok v, with_world (after_read (st_world st)) st).
Proof.
  intros Hc Hp. unfold persisted in Hp.
  destruct (books_file (st_world st)) as [raw|] eqn:Hraw; [|done].
  rewrite (readBooksFile_calm raw) by done. by rewrite Hp.
Qed.

Lemma persisted_with_read st :
  persisted (with_world (after_read (st_world st)) st) = persisted st.
Proof. reflexivity. Qed.

(** ** Ids *)

Lemma max_book_id_app bs b :
  max_book_id (bs ++ [b]) = Z.max (max_book_id bs) (book_id b).
Proof. unfold max_book_id. by rewrite fold_left_app. Qed.

Lemma fold_max_ge bs : forall m,
  (m <= fold_left (fun m b => Z.max m (book_id b)) bs m)%Z /\
  Forall (fun b => (book_id b <= fold_left (fun m b => Z.max m (book_id b)) bs m)%Z) bs.
Proof.
  induction bs as [|b r IH]; intros m; cbn [fold_left]; [split; [lia|done]|].
  destruct (IH (Z.max m (book_id b))) as [H1 H2]. split; [lia|].
  constructor; [lia|done].
Qed.

(** Every id of the collection is at most the maximum. *)
Lemma max_book_id_ge bs : Forall (fun b => (book_id b <= max_book_id bs)%Z) bs.
Proof. apply fold_max_ge. Qed.

Lemma max_book_id_nonneg bs : (0 <= max_book_id bs)%Z.
Proof. apply (fold_max_ge bs 0). Qed.

(** ** Create on a typed collection *)

Lemma create_typed props st bs t a :
  calm (st_world st) -> idle st ->
  persisted st = Some (js_of_books bs) ->
  Forall (fun b => (0 < book_id b)%Z) bs ->
  (max_book_id bs + 1 < 10 ^ 21)%Z ->
  obj_get k_title props = JStr t -> t <> [] ->
  obj_get k_author props = JStr a -> a <> [] ->
  let nb := created (max_book_id bs + 1) t a (obj_get k_available props) in
  exists st',
    post_books (JObj props) st = (respond 201 (js_of_book nb), st') /\
    calm (st_world st') /\ idle st' /\
    persisted st' = Some (js_of_books (bs ++ [nb])).
Proof.
  intros Hc Hi Hp Hpos Hmax Ht Htne Ha Hane nb.
  assert (Htt : truthy (obj_get k_title props) = true).
  { rewrite Ht. by destruct t. }
  assert (Hta : truthy (obj_get k_author props) = true).
  { rewrite Ha. by destruct a. }
  rewrite (post_books_calm props st bs Htt Hta Hc Hi Hp Hpos).
  rewrite Ht, Ha.
  assert (Hnb : mk_book (JNum (Int (max_book_id bs + 1))) (JStr t) (JStr a)
                  (available_or_true (obj_get k_available props))
                = js_of_book nb).
  { unfold nb, created, js_of_book. cbn. by destruct (obj_get k_available props). }
  rewrite Hnb.
  assert (Hst : storable (js_of_books (bs ++ [nb])) = true).
  { apply storable_books. apply Forall_app. split.
    - pose proof (max_book_id_ge bs) as Hge.
      apply Forall_forall. intros b Hb.
      rewrite Forall_forall in Hge, Hpos.
      specialize (Hge b Hb). specialize (Hpos b Hb). lia.
    - constructor; [|done]. cbn. pose proof (max_book_id_nonneg bs). lia. }
  unfold js_of_books in Hst. rewrite map_app in Hst. cbn [map] in Hst.
  eexists. split; [reflexivity|]. split_and!.
  - apply calm_after_save.
  - apply idle_settled_ok.
  - rewrite persisted_after_save by done. unfold js_of_books.
    by rewrite map_app.
Qed.


(** ** Ids in creation order *)

Lemma safe_below_print_limit : (MAX_SAFE_INTEGER < 10 ^ 21)%Z.
Proof. reflexivity. Qed.

Lemma post_all_ids bodies : forall st bs,
  calm (st_world st) -> idle st ->
  persisted st = Some (js_of_books bs) ->
  Forall (fun b => (0 < book_id b)%Z) bs ->
  Forall text_payload bodies ->
  (max_book_id bs + Z.of_nat (length bodies) < 10 ^ 21)%Z ->
  map status (post_all bodies st).1 = map (fun _ => 201%Z) bodies /\
  map (fun r => get_prop k_id (body r)) (post_all bodies st).1
  = map (fun k => JNum (Int k)) (seqZ (max_book_id bs + 1) (Z.of_nat (length bodies))).
Proof.
  induction bodies as [|b rest IH]; intros st bs Hc Hi Hp Hpos Hpay Hmax.
  { done. }
  inversion Hpay as [|? ? (props & t & a & -> & Ht & Htne & Ha & Hane) Hrest];
    subst.
  cbn [length] in Hmax.
  destruct (create_typed props st bs t a) as (st1 & Hpost & Hc1 & Hi1 & Hp1);
    try done; [lia|].
  cbn [post_all]. rewrite Hpost.
  set (nb := created (max_book_id bs + 1) t a (obj_get k_available props)) in *.
  assert (Hmax1 : max_book_id (bs ++ [nb]) = (max_book_id bs + 1)%Z).
  { rewrite max_book_id_app. unfold nb. cbn. lia. }
  destruct (IH st1 (bs ++ [nb])) as [Hs Hids]; try done.
  { apply Forall_app. split; [done|]. constructor; [|done]. cbn.
    pose proof (max_book_id_nonneg bs). lia. }
  { rewrite Hmax1. lia. }
  destruct (post_all rest st1) as [rs st2]. cbn [fst map] in *.
  rewrite Hs, Hids, Hmax1. split; [done|].
  cbn [length]. rewrite (seqZ_cons (max_book_id bs + 1)) by lia. cbn [map].
  do 3 f_equal; lia.
Qed.

(** C1 (amended): create gives the new record the id max(ids, 0) + 1 of the
    collection it loaded, which is greater than every id in that
    collection, and saves the collection with the record appended; so N
    creates into an empty collection get the ids 1..N in creation order.
    Ids are in the range of safe integers, where the addition is exact. *)
Theorem create_assigns_next_id :
  (forall props st bs t a,
     calm (st_world st) -> idle st ->
     persisted st = Some (js_of_books bs) ->
     Forall (fun b => (0 < book_id b)%Z) bs ->
     (max_book_id bs < MAX_SAFE_INTEGER)%Z ->
     obj_get k_title props = JStr t -> t <> [] ->
     obj_get k_author props = JStr a -> a <> [] ->
     let nb := created (max_book_id bs + 1) t a (obj_get k_available props) in
     exists st',
       post_books (JObj props) st = (respond 201 (js_of_book nb), st') /\
       Forall (fun b => (book_id b < book_id nb)%Z) bs /\
       persisted st' = Some (js_of_books (bs ++ [nb]))) /\
  (forall bodies st,
     calm (st_world st) -> idle st ->
     persisted st = Some (JArr []) ->
     Forall text_payload bodies ->
     (Z.of_nat (length bodies) <= MAX_SAFE_INTEGER)%Z ->
     map status (post_all bodies st).1 = map (fun _ => 201%Z) bodies /\
     map (fun r => get_prop k_id (body r)) (post_all bodies st).1
     = map (fun k => JNum (Int k)) (seqZ 1 (Z.of_nat (length bodies)))).
Proof.
  split.
  - intros props st bs t a Hc Hi Hp Hpos Hmax Ht Htne Ha Hane nb.
    assert (Hlim : (max_book_id bs + 1 < 10 ^ 21)%Z).
    { pose proof safe_below_print_limit. lia. }
    destruct (create_typed props st bs t a Hc Hi Hp Hpos Hlim Ht Htne Ha Hane)
      as (st' & Hpost & _ & _ & Hp').
    exists st'. split_and!; [exact Hpost| |exact Hp'].
    pose proof (max_book_id_ge bs) as Hge. eapply Forall_impl; [exact Hge|].
    intros b Hb. cbn in *. lia.
  - intros bodies st Hc Hi Hp Hpay Hn.
    apply (post_all_ids bodies st [] Hc Hi Hp (Forall_nil_2 _) Hpay).
    change (max_book_id []) with 0%Z. pose proof safe_below_print_limit. lia.
Qed.

(** C1 as stated fails: after the record with the greatest id (3) is
    deleted, the next create assigns 3 again. *)
Lemma deleted_greatest_id_is_assigned_again :
  let req := JObj (payload "X" "Y") in
  let '(r1, st1) := post_books req seeded_state in
  let '(r2, st2) := delete_book (txt "3") st1 in
  let '(r3, st3) := post_books req st2 in
  get_prop k_id (body r1) = JNum (Int 3) /\
  status r2 = 200%Z /\
  status r3 = 201%Z /\
  get_prop k_id (body r3) = JNum (Int 3).
Proof. vm_compute. done. Qed.


(** ** Save, then load *)

Lemma save_then_load_storable v st :
  calm (st_world st) -> idle st -> storable v = true ->
  exists st1 st2,
    writeBooksFile v st = (Ok tt, st1) /\ readBooksFile st1 = (Ok v, st2).
Proof.
  intros Hc Hi Hv. eexists _, _. split; [by apply save_storable|].
  apply load_persisted; [apply calm_after_save|].
  by apply persisted_after_save.
Qed.

Lemma js_of_book_inj b1 b2 : js_of_book b1 = js_of_book b2 -> b1 = b2.
Proof.
  destruct b1, b2. unfold js_of_book, mk_book. cbn. intros H.
  inversion H. by subst.
Qed.

Lemma js_of_books_inj bs1 bs2 : js_of_books bs1 = js_of_books bs2 -> bs1 = bs2.
Proof.
  unfold js_of_books. intros [= H]. revert bs2 H.
  induction bs1 as [|b r IH]; intros [|b' r']; cbn [map]; try done.
  intros H.
  assert (Hb : js_of_book b = js_of_book b') by congruence.
  assert (Hr : map js_of_book r = map js_of_book r') by congruence.
  f_equal; [by apply js_of_book_inj|by apply IH].
Qed.

Lemma safe_ids_print bs :
  safe_ids bs -> Forall (fun b => (Z.abs (book_id b) < 10 ^ 21)%Z) bs.
Proof.
  intros Hs. eapply Forall_impl; [exact Hs|]. intros b Hb. cbn in Hb.
  pose proof safe_below_print_limit. lia.
Qed.

(** C2: a collection of book records (ids that are safe integers, text
    titles and authors, boolean availability) that is saved is what the
    next load returns: the same records, field by field, in the same
    order, whatever the file held before.  No failure is injected and no
    other save is pending. *)
Theorem save_then_load (bs : list book) (st : state) :
  calm (st_world st) -> idle st ->
  safe_ids bs ->
  exists st1 st2,
    writeBooksFile (js_of_books bs) st = (Ok tt, st1) /\
    readBooksFile st1 = (Ok (js_of_books bs), st2) /\
    forall bs', js_of_books bs' = js_of_books bs -> bs' = bs.
Proof.
  intros Hc Hi Hids.
  destruct (save_then_load_storable (js_of_books bs) st Hc Hi
              (storable_books bs (safe_ids_print bs Hids)))
    as (st1 & st2 & Hsave & Hload).
  exists st1, st2. split_and!; [exact Hsave|exact Hload|].
  intros bs'. apply js_of_books_inj.
Qed.

(** ** The handlers on a typed collection *)


Lemma findIndex_books z bs : forall i0 st,
  findIndex (Int z) (map js_of_book bs) i0 st
  = (Ok ((fun i => (i0 + i)%nat) <$> index_of z bs), st).
Proof.
  induction bs as [|b r IH]; intros i0 st; [done|].
  cbn [map findIndex index_of]. unfold bind.
  cbn [js_of_book mk_book member get_prop obj_get].
  change (text_eqb k_id k_id) with true. cbv iota. unfold ret at 1.
  cbn [id_is]. unfold num_eqb. cbn [num_cmp].
  destruct (Z.eqb_spec (book_id b) z) as [->|Hne].
  - rewrite Z.compare_refl. cbn. by rewrite Nat.add_0_r.
  - destruct (Z.compare_spec (book_id b) z); try done;
      rewrite IH; destruct (index_of z r) as [j|]; cbn; try done;
      by rewrite Nat.add_succ_r.
Qed.

Lemma index_of_lookup z bs i :
  index_of z bs = Some i -> exists b, bs !! i = Some b /\ book_id b = z.
Proof.
  revert i. induction bs as [|b r IH]; intros i; [done|]. cbn.
  destruct (Z.eqb_spec (book_id b) z) as [Heq|Hne].
  - intros [= <-]. by exists b.
  - destruct (index_of z r) as [j|]; [|done]. cbn. intros [= <-].
    by apply IH.
Qed.



Lemma storable_ids_insert bs i b' :
  Forall (fun b => (Z.abs (book_id b) < 10 ^ 21)%Z) bs ->
  (forall b, bs !! i = Some b -> book_id b' = book_id b) ->
  Forall (fun b => (Z.abs (book_id b) < 10 ^ 21)%Z) (<[i := b']> bs).
Proof.
  intros Hall Hid. destruct (bs !! i) as [b|] eqn:Hb.
  - apply Forall_insert; [exact Hall|]. rewrite (Hid b eq_refl).
    rewrite Forall_lookup in Hall. exact (Hall i b Hb).
  - rewrite list_insert_ge; [done|]. by apply lookup_ge_None.
Qed.




(** ** The data model is preserved *)








(** ** The write queue under interleaving *)

Lemma step_none p w : step p w = None -> exists r, p = Settled r.
Proof.
  induction p as [r|b s|q IH b|q IH b]; cbn [step].
  - by eexists.
  - done.
  - destruct q as [[u|e]| | |]; try done;
      destruct (step _ w) as [[q' w']|] eqn:Hs; try done;
      intros _; by destruct (IH eq_refl).
  - destruct q as [[u|e]| | |]; try done;
      destruct (step _ w) as [[q' w']|] eqn:Hs; try done;
      intros _; by destruct (IH eq_refl).
Qed.

Lemma settle_start books w :
  settle (start books w).1 (start books w).2 = run_write books w.
Proof.
  unfold start, run_write. destruct (JSON_stringify books) as [data|]; [|done].
  cbn [fst snd settle]. unfold writeFile.
  by destruct (complete_write data (issue (WriteFile data) w)) as [[[]|e] w1].
Qed.

Lemma settle_resume books s w :
  settle (resume books s w).1 (resume books s w).2 = settle (Running books s) w.
Proof.
  destruct s as [data|]; cbn [resume settle].
  - by destruct (complete_write data w) as [[[]|e] w1].
  - by destruct (complete_rename w) as [[[]|e] w1].
Qed.

(** A step does not change what the chain settles to. *)
Lemma step_settle p : forall w p' w',
  step p w = Some (p', w') -> settle p' w' = settle p w.
Proof.
  induction p as [r|b s|q IH b|q IH b]; intros w p' w'; cbn [step].
  - done.
  - intros [= Hr]. pose proof (settle_resume b s w) as H.
    rewrite Hr in H. exact H.
  - assert (Hin : forall q0, q0 = q ->
              match step q w with
              | Some (q', w') => Some (Then q' b, w')
              | None => None
              end = Some (p', w') -> settle p' w' = settle (Then q b) w).
    { intros q0 _. destruct (step q w) as [[q' w1]|] eqn:Hs; [|done].
      intros [= <- <-]. cbn [settle]. by rewrite (IH _ _ _ Hs). }
    destruct q as [[u|e]| | |]; try (by apply (Hin _ eq_refl)).
    + intros [= Hr]. pose proof (settle_start b w) as H.
      rewrite Hr in H. exact H.
    + by intros [= <- <-].
  - assert (Hin : forall q0, q0 = q ->
              match step q w with
              | Some (q', w') => Some (Catch q' b, w')
              | None => None
              end = Some (p', w') -> settle p' w' = settle (Catch q b) w).
    { intros q0 _. destruct (step q w) as [[q' w1]|] eqn:Hs; [|done].
      intros [= <- <-]. cbn [settle]. by rewrite (IH _ _ _ Hs). }
    destruct q as [[u|e]| | |]; try (by apply (Hin _ eq_refl)).
    + by intros [= <- <-].
    + intros [= Hr]. pose proof (settle_start b w) as H.
      rewrite Hr in H. exact H.
Qed.

Lemma exec_tick_settle st :
  settle (writeQueue (exec Tick st)) (st_world (exec Tick st))
  = settle (writeQueue st) (st_world st).
Proof.
  cbn [exec].
  destruct (step (writeQueue st) (st_world st)) as [[p' w']|] eqn:Hs; [|done].
  cbn [writeQueue st_world]. by apply step_settle.
Qed.

(** A step does not change the state the queue is awaited to. *)
Lemma await_exec_tick st : (await_queue (exec Tick st)).2 = (await_queue st).2.
Proof. unfold await_queue. by rewrite exec_tick_settle. Qed.

(** Awaiting after enqueueWrite is awaiting first and then saving alone. *)
Lemma await_enqueueWrite books st :
  (await_queue (enqueueWrite books st)).2
  = save_alone books (await_queue st).2.
Proof.
  unfold save_alone, writeBooksFile, await_queue, enqueueWrite.
  cbn [writeQueue st_world settle].
  by destruct (settle (writeQueue st) (st_world st)) as [[u|e] w1].
Qed.

Lemma await_idle st : idle st -> (await_queue st).2 = st.
Proof.
  intros [r Hr]. destruct st as [w q]. cbn in Hr. subst q. reflexivity.
Qed.

Lemma idle_await st : idle (await_queue st).2.
Proof.
  unfold await_queue.
  destruct (settle (writeQueue st) (st_world st)) as [r w]. by exists r.
Qed.

Lemma idle_save_alone books st : idle (save_alone books st).
Proof. unfold save_alone, writeBooksFile. apply idle_await. Qed.

(** Whatever the interleaving, the queue is awaited to the state the
    saves give when run one after the other in submission order. *)
Lemma run_settle evs : forall st,
  (await_queue (run evs st)).2
  = saves_in_order (submitted evs) (await_queue st).2.
Proof.
  induction evs as [|ev evs IH]; intros st; [done|].
  cbn [run fold_left]. fold (run evs (exec ev st)). rewrite IH.
  destruct ev as [books|]; cbn [submitted].
  - cbn [saves_in_order fold_left]. fold (saves_in_order (submitted evs)).
    f_equal. cbn [exec]. apply await_enqueueWrite.
  - by rewrite await_exec_tick.
Qed.

(** *** The chain settles *)

Lemma weight_start books w : (weight (start books w).1 <= 2)%nat.
Proof. unfold start. destruct (JSON_stringify books); simpl; lia. Qed.

Lemma weight_resume books s w :
  (weight (resume books s w).1 < weight (Running books s))%nat.
Proof.
  destruct s as [data|]; cbn [resume].
  - destruct (complete_write data w) as [[[]|e] w1]; simpl; lia.
  - destruct (complete_rename w) as [[[]|e] w1]; simpl; lia.
Qed.

Lemma step_weight p : forall w p' w',
  step p w = Some (p', w') -> (weight p' < weight p)%nat.
Proof.
  induction p as [r|b s|q IH b|q IH b]; intros w p' w'; cbn [step].
  - done.
  - intros [= Hr]. pose proof (weight_resume b s w) as H.
    by rewrite Hr in H.
  - assert (Hin : match step q w with
                  | Some (q', w') => Some (Then q' b, w')
                  | None => None
                  end = Some (p', w') -> (weight p' < weight (Then q b))%nat).
    { destruct (step q w) as [[q' w1]|] eqn:Hs; [|done].
      intros [= <- <-]. apply IH in Hs. simpl. lia. }
    destruct q as [[u|e]| | |]; try (by apply Hin).
    + intros [= Hr]. pose proof (weight_start b w) as H.
      rewrite Hr in H. simpl in *. lia.
    + intros [= <- <-]. simpl. lia.
  - assert (Hin : match step q w with
                  | Some (q', w') => Some (Catch q' b, w')
                  | None => None
                  end = Some (p', w') -> (weight p' < weight (Catch q b))%nat).
    { destruct (step q w) as [[q' w1]|] eqn:Hs; [|done].
      intros [= <- <-]. apply IH in Hs. simpl. lia. }
    destruct q as [[u|e]| | |]; try (by apply Hin).
    + intros [= <- <-]. simpl. lia.
    + intros [= Hr]. pose proof (weight_start b w) as H.
      rewrite Hr in H. simpl in *. lia.
Qed.

Lemma ticks_settled n st : idle st -> ticks n st = st.
Proof.
  intros [r Hr]. induction n as [|n IH]; [done|].
  cbn [ticks exec]. rewrite Hr. cbn [step]. exact IH.
Qed.

(** After at most [weight] steps the queue is settled. *)
Lemma ticks_settle n : forall st,
  (weight (writeQueue st) <= n)%nat -> ticks n st = (await_queue st).2.
Proof.
  induction n as [|n IH]; intros st Hn.
  - assert (Hi : idle st).
    { destruct (writeQueue st) as [r|b s|q b|q b] eqn:Hq;
        [by exists r|destruct s|..]; simpl in Hn; lia. }
    by rewrite await_idle.
  - cbn [ticks]. rewrite <- await_exec_tick. cbn [exec].
    destruct (step (writeQueue st) (st_world st)) as [[p' w']|] eqn:Hs.
    + apply IH. cbn [writeQueue]. apply step_weight in Hs. lia.
    + destruct (step_none _ _ Hs) as [r Hr].
      assert (Hi : idle st) by (by exists r).
      by rewrite ticks_settled, await_idle.
Qed.

(** *** One operation at a time *)

Lemma io_op_eqb_refl op : io_op_eqb op op = true.
Proof. destruct op; [done| |done]. apply text_eqb_refl. Qed.

Lemma scan_app l1 : forall f l2,
  scan f (l1 ++ l2) = match scan f l1 with
                      | Some f' => scan f' l2
                      | None => None
                      end.
Proof.
  induction l1 as [|e r IH]; intros f l2; [done|]. cbn [app scan].
  destruct e as [op|op o]; destruct f as [op'|]; try done.
  destruct (io_op_eqb op op'); [apply IH|done].
Qed.

Lemma scan_issue op w :
  scan None (log w) = Some None ->
  scan None (log (issue op w)) = Some (Some op).
Proof. intros H. unfold issue. cbn [log]. by rewrite scan_app, H. Qed.

Lemma scan_complete_write data w :
  scan None (log w) = Some (Some (WriteFile data)) ->
  scan None (log (complete_write data w).2) = Some None.
Proof.
  intros H. unfold complete_write.
  destruct (next_fault w); cbn [snd log]; rewrite scan_app, H; cbn [scan];
    by rewrite io_op_eqb_refl.
Qed.

Lemma scan_complete_rename w :
  scan None (log w) = Some (Some Rename) ->
  scan None (log (complete_rename w).2) = Some None.
Proof.
  intros H. unfold complete_rename.
  destruct (next_fault w); [|destruct (tmp_file w)]; cbn [snd log];
    by rewrite scan_app, H.
Qed.

Lemma scan_start books w :
  scan None (log w) = Some None ->
  scan None (log (start books w).2) = Some (pending (start books w).1).
Proof.
  intros H. unfold start. destruct (JSON_stringify books); [|done].
  by apply scan_issue.
Qed.

Lemma scan_resume books s w :
  scan None (log w) = Some (pending (Running books s)) ->
  scan None (log (resume books s w).2) = Some (pending (resume books s w).1).
Proof.
  intros H. destruct s as [data|]; cbn [resume pending] in *.
  - pose proof (scan_complete_write data w H) as Hc.
    destruct (complete_write data w) as [[[]|e] w1]; cbn [fst snd] in *.
    + by apply scan_issue.
    + done.
  - pose proof (scan_complete_rename w H) as Hc.
    by destruct (complete_rename w) as [[[]|e] w1].
Qed.

(** A step keeps the log in step with the chain. *)
Lemma step_scan p : forall w p' w',
  scan None (log w) = Some (pending p) ->
  step p w = Some (p', w') ->
  scan None (log w') = Some (pending p').
Proof.
  induction p as [r|b s|q IH b|q IH b]; intros w p' w' Hw; cbn [step].
  - done.
  - intros [= Hr]. pose proof (scan_resume b s w Hw) as H.
    by rewrite Hr in H.
  - cbn [pending] in Hw.
    assert (Hin : match step q w with
                  | Some (q', w') => Some (Then q' b, w')
                  | None => None
                  end = Some (p', w') ->
                  scan None (log w') = Some (pending p')).
    { destruct (step q w) as [[q' w1]|] eqn:Hs; [|done].
      intros [= <- <-]. cbn [pending]. by eapply IH. }
    destruct q as [[u|e]| | |]; try (by apply Hin).
    + intros [= Hr]. pose proof (scan_start b w Hw) as H.
      by rewrite Hr in H.
    + by intros [= <- <-].
  - cbn [pending] in Hw.
    assert (Hin : match step q w with
                  | Some (q', w') => Some (Catch q' b, w')
                  | None => None
                  end = Some (p', w') ->
                  scan None (log w') = Some (pending p')).
    { destruct (step q w) as [[q' w1]|] eqn:Hs; [|done].
      intros [= <- <-]. cbn [pending]. by eapply IH. }
    destruct q as [[u|e]| | |]; try (by apply Hin).
    + by intros [= <- <-].
    + intros [= Hr]. pose proof (scan_start b w Hw) as H.
      by rewrite Hr in H.
Qed.

Lemma exec_scan ev st :
  scan None (log (st_world st)) = Some (pending (writeQueue st)) ->
  scan None (log (st_world (exec ev st)))
  = Some (pending (writeQueue (exec ev st))).
Proof.
  destruct ev as [books|]; cbn [exec].
  - done.
  - intros H.
    destruct (step (writeQueue st) (st_world st)) as [[p' w']|] eqn:Hs; [|done].
    cbn [writeQueue st_world]. by eapply step_scan.
Qed.

Lemma run_scan evs : forall st,
  scan None (log (st_world st)) = Some (pending (writeQueue st)) ->
  scan None (log (st_world (run evs st)))
  = Some (pending (writeQueue (run evs st))).
Proof.
  induction evs as [|ev evs IH]; intros st Hc; [done|].
  cbn [run fold_left]. apply IH. by apply exec_scan.
Qed.

Lemma ticks_scan n : forall st,
  scan None (log (st_world st)) = Some (pending (writeQueue st)) ->
  scan None (log (st_world (ticks n st)))
  = Some (pending (writeQueue (ticks n st))).
Proof.
  induction n as [|n IH]; intros st Hc; [done|].
  cbn [ticks]. apply IH. by apply exec_scan.
Qed.

(** *** The log of the saves *)

Lemma about_app data l1 l2 :
  Forall (about data) l1 -> Forall (about data) l2 -> Forall (about data) (l1 ++ l2).
Proof. intros. by apply Forall_app. Qed.

Lemma run_write_log books w :
  exists blk,
    log (run_write books w).2 = log w ++ blk /\
    match JSON_stringify books with
    | Some data =>
        (exists l, blk = Issued (WriteFile data) :: l) /\ Forall (about data) blk
    | None => blk = []
    end.
Proof.
  unfold run_write. destruct (JSON_stringify books) as [data|].
  2:{ exists []. by rewrite app_nil_r. }
  unfold writeFile, complete_write, rename, complete_rename, issue, next_fault.
  cbn. destruct (faults w) as [|[e|] fs]; cbn.
  - eexists. rewrite <- !app_assoc. split; [done|]. split; [by eexists|].
    repeat constructor.
  - eexists. rewrite <- !app_assoc. split; [done|]. split; [by eexists|].
    repeat constructor.
  - destruct fs as [|[e|] fs']; cbn;
      (eexists; rewrite <- !app_assoc; split; [done|]; split; [by eexists|];
       repeat constructor).
Qed.

Lemma save_alone_log books st :
  idle st ->
  exists blk,
    log (st_world (save_alone books st)) = log (st_world st) ++ blk /\
    block_of books blk.
Proof.
  intros [r Hr]. unfold save_alone, writeBooksFile, await_queue, enqueueWrite.
  cbn [writeQueue st_world]. rewrite Hr. unfold block_of. cbn [settle].
  destruct (run_write_log books (st_world st)) as (blk1 & Hl1 & Hb1).
  destruct r as [u|e].
  - destruct (run_write books (st_world st)) as [[u'|e'] w1] eqn:Hrun;
      cbn [snd st_world] in *.
    + by exists blk1.
    + destruct (run_write_log books w1) as (blk2 & Hl2 & Hb2).
      destruct (run_write books w1) as [r2 w2]. cbn [snd st_world] in *.
      exists (blk1 ++ blk2). rewrite Hl2, Hl1, <- app_assoc. split; [done|].
      destruct (JSON_stringify books) as [data|].
      * destruct Hb1 as [[l ->] Hf1]. destruct Hb2 as [_ Hf2].
        split; [by eexists|]. by apply Forall_app.
      * by subst.
  - destruct (run_write books (st_world st)) as [r1 w1]. cbn [snd st_world] in *.
    by exists blk1.
Qed.

Lemma saves_in_order_log saves : forall st,
  idle st ->
  exists l,
    log (st_world (saves_in_order saves st)) = log (st_world st) ++ l /\
    in_blocks saves l.
Proof.
  induction saves as [|b rest IH]; intros st Hi.
  - exists []. by rewrite app_nil_r.
  - cbn [saves_in_order fold_left]. fold (saves_in_order rest (save_alone b st)).
    destruct (IH (save_alone b st) (idle_save_alone b st)) as (l & Hl & Hin).
    destruct (save_alone_log b st Hi) as (blk & Hblk & Hb).
    exists (blk ++ l). rewrite Hl, Hblk, <- app_assoc. split; [done|].
    cbn [in_blocks]. by exists blk, l.
Qed.

Lemma idle_saves_in_order saves : forall st,
  idle st -> idle (saves_in_order saves st).
Proof.
  induction saves as [|b rest IH]; intros st Hi; [done|].
  cbn [saves_in_order fold_left]. apply IH, idle_save_alone.
Qed.

(** C3: saves submitted through enqueueWrite at any moments, with the
    steps of the chain interleaved in any way, run one operation at a time
    (the log never has two operations in flight); the queue settles after
    finitely many steps, in the state that awaiting writeBooksFile for each
    save, alone and one after the other in submission order, gives: the
    same files, log and settled result; that log is one block per save in
    submission order, each block beginning with the write of its own save:
    a save whose write fails does not keep the later ones from running. *)
Theorem saves_run_one_at_a_time_in_order (evs : list event) (st0 : state) :
  idle st0 ->
  one_at_a_time (log (st_world st0)) ->
  let c := run evs st0 in
  let final := saves_in_order (submitted evs) st0 in
  scan None (log (st_world c)) = Some (pending (writeQueue c)) /\
  ticks (weight (writeQueue c)) c = final /\
  idle final /\
  one_at_a_time (log (st_world final)) /\
  exists l, log (st_world final) = log (st_world st0) ++ l /\
            in_blocks (submitted evs) l.
Proof.
  intros Hi Hw c final.
  assert (Hc : scan None (log (st_world c)) = Some (pending (writeQueue c))).
  { apply run_scan. destruct Hi as [r Hr]. by rewrite Hr. }
  assert (Hticks : ticks (weight (writeQueue c)) c = final).
  { rewrite ticks_settle by done. unfold c, final.
    by rewrite run_settle, await_idle. }
  assert (Hidle : idle final) by (by apply idle_saves_in_order).
  split_and!; [exact Hc|exact Hticks|exact Hidle| |].
  - pose proof (ticks_scan (weight (writeQueue c)) c Hc) as Hs.
    rewrite Hticks in Hs. destruct Hidle as [r Hr]. by rewrite Hr in Hs.
  - by apply saves_in_order_log.
Qed.


(** ** The seed and its copies *)

Lemma sample_is_typed : SAMPLE_BOOKS = js_of_books sample_records.
Proof. reflexivity. Qed.

Lemma sample_storable : storable SAMPLE_BOOKS = true.
Proof. reflexivity. Qed.

Lemma read_slot_app h k s v : read_slot h s = Some v -> read_slot (h ++ k) s = Some v.
Proof.
  destruct s as [l|v']; [|done]. cbn [read_slot].
  destruct (h !! l) as [c|] eqn:Hl; [|done].
  by rewrite (lookup_app_l_Some _ _ _ _ Hl).
Qed.

Lemma read_slots_app h k items vs :
  read_slots h items = Some vs -> read_slots (h ++ k) items = Some vs.
Proof.
  revert vs. induction items as [|s r IH]; intros vs; [done|]. cbn [read_slots].
  destruct (read_slot h s) as [v|] eqn:Hs; [|done].
  destruct (read_slots h r) as [vs'|] eqn:Hr; [|done].
  intros [= <-]. by rewrite (read_slot_app _ _ _ _ Hs), (IH _ eq_refl).
Qed.

Lemma alloc_item_spec v h :
  exists k, (alloc_item v h).2 = h ++ k /\
            read_slot (h ++ k) (alloc_item v h).1 = Some v.
Proof.
  destruct v; try (exists []; by rewrite app_nil_r).
  exists [ObjectCell props]. cbn [alloc_item alloc fst snd read_slot].
  split; [done|]. by rewrite list_lookup_middle.
Qed.

Lemma alloc_items_spec items : forall h,
  exists k, (alloc_items items h).2 = h ++ k /\
            read_slots (h ++ k) (alloc_items items h).1 = Some items.
Proof.
  induction items as [|v r IH]; intros h.
  - exists []. by rewrite app_nil_r.
  - cbn [alloc_items]. destruct (alloc_item_spec v h) as (k1 & Hh1 & Hr1).
    destruct (alloc_item v h) as [s h1]. cbn [fst snd] in *. subst h1.
    destruct (IH (h ++ k1)) as (k2 & Hh2 & Hr2).
    destruct (alloc_items r (h ++ k1)) as [ss h2]. cbn [fst snd] in *. subst h2.
    exists (k1 ++ k2). rewrite app_assoc. split; [done|]. cbn [read_slots].
    by rewrite (read_slot_app _ _ _ _ Hr1), Hr2.
Qed.

(** A value placed in the heap is read back from its reference. *)
Lemma read_alloc_value v h :
  read (alloc_value v h).2 (alloc_value v h).1 = Some v.
Proof.
  destruct v as [| |b|n|s|items|props]; try done.
  - cbn [alloc_value]. destruct (alloc_items_spec items h) as (k & Hh & Hr).
    destruct (alloc_items items h) as [ss h1]. cbn [fst snd] in *. subst h1.
    cbn [alloc fst snd read]. rewrite list_lookup_middle by done.
    by rewrite (read_slots_app _ _ _ _ Hr).
  - cbn [alloc_value alloc_item alloc fst snd read].
    by rewrite list_lookup_middle.
Qed.

Lemma seed_intact_length h : seed_intact h -> (3 <= length h)%nat.
Proof.
  intros Hs. specialize (Hs 2%nat ltac:(lia)).
  apply lookup_lt_Some with (x := default (ArrayCell []) (initial_heap !! 2%nat)).
  by rewrite Hs.
Qed.

Lemma read_seed h : seed_intact h -> read h (Ref SAMPLE_BOOKS_ref) = Some SAMPLE_BOOKS.
Proof.
  intros Hs. unfold read, SAMPLE_BOOKS_ref.
  rewrite (Hs 0%nat) by lia. cbn [initial_heap SAMPLE_BOOKS mk_book lookup].
  cbn. rewrite (Hs 1%nat), (Hs 2%nat) by lia. reflexivity.
Qed.

(** The copy of the seed: two new records and a new array that holds them. *)
Lemma copy_seed h :
  seed_intact h ->
  exists p1 p2,
    SAMPLE_BOOKS = JArr [JObj p1; JObj p2] /\
    copy_array SAMPLE_BOOKS_ref h
    = Some (Ref (length h + 2)%nat,
            h ++ [ObjectCell p1; ObjectCell p2;
                  ArrayCell [Ref (length h); Ref (length h + 1)%nat]]).
Proof.
  intros Hs. eexists _, _. split; [reflexivity|].
  unfold copy_array, SAMPLE_BOOKS_ref. rewrite (Hs 0%nat) by lia.
  cbn [initial_heap SAMPLE_BOOKS mk_book lookup]. cbn.
  rewrite (Hs 1%nat), (Hs 2%nat) by lia. cbn.
  rewrite !length_app. cbn. rewrite <- !app_assoc. cbn.
  do 3 f_equal; lia.
Qed.

(** The first load when there is no file, by reference. *)
Lemma seed_load rs :
  seed_intact (rs_heap rs) ->
  calm (st_world (rs_store rs)) -> idle (rs_store rs) ->
  books_file (st_world (rs_store rs)) = None ->
  exists p1 p2,
    SAMPLE_BOOKS = JArr [JObj p1; JObj p2] /\
    readBooksFile_ref rs
    = (Ok (Ref (length (rs_heap rs) + 2)%nat),
       {| rs_heap := rs_heap rs ++
            [ObjectCell p1; ObjectCell p2;
             ArrayCell [Ref (length (rs_heap rs));
                        Ref (length (rs_heap rs) + 1)%nat]];
          rs_store := settled_ok (after_save (ser [] SAMPLE_BOOKS)
                                    (after_read (st_world (rs_store rs)))) |}).
Proof.
  intros Hs Hc Hi Hf. destruct (copy_seed _ Hs) as (p1 & p2 & Hsample & Hcopy).
  exists p1, p2. split; [exact Hsample|].
  unfold readBooksFile_ref. rewrite readFile_calm by done. rewrite Hf.
  cbn [code_is_ENOENT]. rewrite read_seed by done.
  rewrite (writeBooksFile_calm _ (ser [] SAMPLE_BOOKS));
    [|apply calm_after_read|by apply idle_with_world|reflexivity].
  by rewrite Hcopy.
Qed.

Lemma lookup_copy (h : list cell) c0 c1 c2 :
  (h ++ [c0; c1; c2]) !! length h = Some c0 /\
  (h ++ [c0; c1; c2]) !! (length h + 1)%nat = Some c1 /\
  (h ++ [c0; c1; c2]) !! (length h + 2)%nat = Some c2.
Proof.
  split_and!.
  - by rewrite list_lookup_middle.
  - rewrite lookup_app_r by lia.
    by replace (length h + 1 - length h)%nat with 1%nat by lia.
  - rewrite lookup_app_r by lia.
    by replace (length h + 2 - length h)%nat with 2%nat by lia.
Qed.

Lemma read_copy (h : list cell) p1 p2 :
  read (h ++ [ObjectCell p1; ObjectCell p2;
              ArrayCell [Ref (length h); Ref (length h + 1)%nat]])
    (Ref (length h + 2)%nat)
  = Some (JArr [JObj p1; JObj p2]).
Proof.
  destruct (lookup_copy h (ObjectCell p1) (ObjectCell p2)
              (ArrayCell [Ref (length h); Ref (length h + 1)%nat]))
    as (H0 & H1 & H2).
  unfold read. rewrite H2. cbn [read_slots read_slot]. by rewrite H0, H1.
Qed.

Lemma seed_intact_app h k : seed_intact h -> seed_intact (h ++ k).
Proof.
  intros Hs l Hl. rewrite <- (Hs l Hl). apply lookup_app_l.
  pose proof (seed_intact_length h Hs). lia.
Qed.

Lemma load_existing rs raw v :
  calm (st_world (rs_store rs)) ->
  books_file (st_world (rs_store rs)) = Some raw ->
  JSON_parse raw = Some v ->
  exists s rs', readBooksFile_ref rs = (Ok s, rs') /\ read (rs_heap rs') s = Some v.
Proof.
  intros Hc Hf Hp. unfold readBooksFile_ref. rewrite readFile_calm by done.
  rewrite Hf, Hp. pose proof (read_alloc_value v (rs_heap rs)) as Hr.
  destruct (alloc_value v (rs_heap rs)) as [s h']. by eexists _, _.
Qed.

(** The store by reference and the store by value agree. *)
Lemma readBooksFile_ref_agrees rs :
  seed_intact (rs_heap rs) ->
  let '(r, rs') := readBooksFile_ref rs in
  let '(r0, st') := readBooksFile (rs_store rs) in
  rs_store rs' = st' /\
  match r, r0 with
  | Ok s, Ok v => read (rs_heap rs') s = Some v
  | Err e, Err e0 => e = e0
  | _, _ => False
  end.
Proof.
  intros Hs. unfold readBooksFile_ref, readBooksFile.
  destruct (readFile _) as [[raw|e] w].
  - destruct (JSON_parse raw) as [v|]; [|done].
    pose proof (read_alloc_value v (rs_heap rs)) as Hr.
    by destruct (alloc_value v (rs_heap rs)) as [s h'].
  - destruct (code_is_ENOENT e); [|done].
    rewrite read_seed by done. unfold bind.
    destruct (writeBooksFile SAMPLE_BOOKS _) as [[u|e'] st2]; [|done].
    destruct (copy_seed _ Hs) as (p1 & p2 & Hsample & ->).
    split; [done|]. cbn [ret rs_heap copy_books].
    rewrite read_copy. by rewrite Hsample.
Qed.

(** What the loader of the handlers returns is what the load by reference
    leaves at the returned reference. *)
Lemma ref_load_value rs s rs1 v :
  seed_intact (rs_heap rs) ->
  readBooksFile_ref rs = (Ok s, rs1) ->
  read (rs_heap rs1) s = Some v ->
  readBooksFile (rs_store rs) = (Ok v, rs_store rs1).
Proof.
  intros Hs Hload Hread. pose proof (readBooksFile_ref_agrees rs Hs) as Hag.
  rewrite Hload in Hag.
  destruct (readBooksFile (rs_store rs)) as [[v0|e] st']; destruct Hag as [-> Hr];
    [|done].
  rewrite Hread in Hr. by injection Hr as ->.
Qed.

(** C6: when there is no file, load (readBooksFile, of which
    readBooksFile_ref is the reading with object identity: same store, same
    value) writes the file with the two sample records (ids 1 and 2) and
    returns a new array of two new records that hold the same values, the
    copy of the seed: none of the returned objects existed before the
    call, so none is an object of the seed constant, and no existing object
    was changed.  Whatever is then done to the returned array and records,
    a later load returns the two sample records again, both when the file
    is still there and when it has been removed and is seeded again. *)
Theorem first_load_seeds_a_fresh_copy (rs : ref_state) :
  seed_intact (rs_heap rs) ->
  calm (st_world (rs_store rs)) -> idle (rs_store rs) ->
  books_file (st_world (rs_store rs)) = None ->
  exists s rs1,
    readBooksFile_ref rs = (Ok s, rs1) /\
    readBooksFile (rs_store rs) = (Ok (copy_books SAMPLE_BOOKS), rs_store rs1) /\
    copy_books SAMPLE_BOOKS = SAMPLE_BOOKS /\
    books_file (st_world (rs_store rs1)) = JSON_stringify SAMPLE_BOOKS /\
    persisted (rs_store rs1) = Some SAMPLE_BOOKS /\
    SAMPLE_BOOKS = js_of_books sample_records /\
    map book_id sample_records = [1; 2]%Z /\
    read (rs_heap rs1) s = Some SAMPLE_BOOKS /\
    (forall l, l ∈ reachable (rs_heap rs1) s -> (length (rs_heap rs) <= l)%nat) /\
    rs_heap rs `prefix_of` rs_heap rs1 /\
    forall h' st',
      mutated (reachable (rs_heap rs1) s) (rs_heap rs1) h' ->
      calm (st_world st') -> idle st' ->
      books_file (st_world st') = books_file (st_world (rs_store rs1)) \/
      books_file (st_world st') = None ->
      exists s' rs2,
        readBooksFile_ref {| rs_heap := h'; rs_store := st' |} = (Ok s', rs2) /\
        read (rs_heap rs2) s' = Some SAMPLE_BOOKS /\
        readBooksFile st' = (Ok SAMPLE_BOOKS, rs_store rs2).
Proof.
  intros Hs Hc Hi Hf.
  destruct (seed_load rs Hs Hc Hi Hf) as (p1 & p2 & Hsample & Hload).
  pose proof (seed_intact_length _ Hs) as Hlen.
  set (n := length (rs_heap rs)) in *.
  set (h1 := rs_heap rs ++ [ObjectCell p1; ObjectCell p2;
                            ArrayCell [Ref n; Ref (n + 1)%nat]]) in *.
  destruct (lookup_copy (rs_heap rs) (ObjectCell p1) (ObjectCell p2)
              (ArrayCell [Ref n; Ref (n + 1)%nat])) as (Hl0 & Hl1 & Hl2).
  fold n h1 in Hl0, Hl1, Hl2.
  assert (Hreach : reachable h1 (Ref (n + 2)%nat) = [(n + 2)%nat; n; (n + 1)%nat]).
  { unfold reachable. by rewrite Hl2. }
  assert (Hread : read h1 (Ref (n + 2)%nat) = Some SAMPLE_BOOKS).
  { rewrite Hsample. apply read_copy. }
  pose proof (ref_load_value rs _ _ SAMPLE_BOOKS Hs Hload Hread) as Hval.
  eexists _, _. split; [exact Hload|]. cbn [rs_heap rs_store] in *.
  split_and!.
  - exact Hval.
  - reflexivity.
  - reflexivity.
  - by apply persisted_after_save.
  - reflexivity.
  - reflexivity.
  - exact Hread.
  - intros l. fold h1. rewrite Hreach. intros Hl.
    repeat (apply elem_of_cons in Hl as [->|Hl]); try lia.
    by apply elem_of_nil in Hl.
  - by apply prefix_app_r.
  - fold h1. rewrite Hreach. intros h' st' Hmut Hc' Hi' Hfile.
    assert (Hs' : seed_intact h').
    { intros l Hl. rewrite Hmut.
      - unfold h1. by apply seed_intact_app.
      - intros Hin. repeat (apply elem_of_cons in Hin as [->|Hin]); try lia.
        by apply elem_of_nil in Hin. }
    destruct Hfile as [Hfile|Hfile].
    + change (books_file (st_world st') = Some (ser [] SAMPLE_BOOKS)) in Hfile.
      destruct (load_existing {| rs_heap := h'; rs_store := st' |}
                  (ser [] SAMPLE_BOOKS) SAMPLE_BOOKS) as (s' & rs2 & Hl' & Hr');
        [done|done| |].
      { destruct (JSON_round_trip SAMPLE_BOOKS sample_storable) as (t & Ht & Hp).
        by injection Ht as <-. }
      exists s', rs2. split_and!; [exact Hl'|exact Hr'|].
      exact (ref_load_value {| rs_heap := h'; rs_store := st' |} _ _ _ Hs' Hl' Hr').
    + destruct (seed_load {| rs_heap := h'; rs_store := st' |} Hs' Hc' Hi' Hfile)
        as (q1 & q2 & Hq & Hload').
      assert (Hr' : read (h' ++ [ObjectCell q1; ObjectCell q2;
                                 ArrayCell [Ref (length h');
                                            Ref (length h' + 1)%nat]])
                      (Ref (length h' + 2)%nat) = Some SAMPLE_BOOKS).
      { rewrite Hq. apply read_copy. }
      eexists _, _. split_and!; [exact Hload'|exact Hr'|].
      exact (ref_load_value {| rs_heap := h'; rs_store := st' |} _ _ _ Hs' Hload' Hr').
Qed.


(** * The theorems on the sample collection *)

(** Create on the seeded file: the new record gets the id 3. *)
Lemma create_assigns_next_id_witness :
  let nb := created 3 (txt "X") (txt "Y") JUndefined in
  exists st',
    post_books (JObj (payload "X" "Y")) seeded_state
    = (respond 201 (js_of_book nb), st') /\
    Forall (fun b => (book_id b < book_id nb)%Z) sample_records /\
    persisted st' = Some (js_of_books (sample_records ++ [nb])).
Proof.
  apply (proj1 create_assigns_next_id (payload "X" "Y") seeded_state
           sample_records (txt "X") (txt "Y")).
  - reflexivity.
  - exists (Ok tt). reflexivity.
  - vm_compute. reflexivity.
  - repeat constructor.
  - vm_compute. reflexivity.
  - reflexivity.
  - discriminate.
  - reflexivity.
  - discriminate.
Defined.

(** Another collection saved over the seeded file: the load, which
    returned the sample records before the save, returns that collection
    after it. *)
Lemma save_then_load_witness :
  (readBooksFile seeded_state).1 = Ok SAMPLE_BOOKS /\
  exists st1 st2,
    writeBooksFile (js_of_books shelf_records) seeded_state = (Ok tt, st1) /\
    readBooksFile st1 = (Ok (js_of_books shelf_records), st2) /\
    forall bs', js_of_books bs' = js_of_books shelf_records ->
                bs' = shelf_records.
Proof.
  split; [vm_compute; reflexivity|].
  apply (save_then_load shelf_records seeded_state).
  - reflexivity.
  - exists (Ok tt). reflexivity.
  - unfold safe_ids, shelf_records. repeat constructor; by vm_compute.
Defined.

(** Two saves, the second submitted while the first is running and the
    first write failing. *)
Lemma saves_run_one_at_a_time_in_order_witness :
  let evs := [Submit (JArr []); Tick; Submit SAMPLE_BOOKS; Tick; Tick] in
  let st0 := settled_ok (world_with None [Some EIO]) in
  let c := run evs st0 in
  let final := saves_in_order (submitted evs) st0 in
  scan None (log (st_world c)) = Some (pending (writeQueue c)) /\
  ticks (weight (writeQueue c)) c = final /\
  idle final /\
  one_at_a_time (log (st_world final)) /\
  exists l, log (st_world final) = log (st_world st0) ++ l /\
            in_blocks (submitted evs) l.
Proof.
  apply (saves_run_one_at_a_time_in_order
           [Submit (JArr []); Tick; Submit SAMPLE_BOOKS; Tick; Tick]
           (settled_ok (world_with None [Some EIO]))).
  - exists (Ok tt). reflexivity.
  - reflexivity.
Defined.


(** The first load of a process that starts without a file. *)
Lemma first_load_seeds_a_fresh_copy_witness :
  let rs := {| rs_heap := initial_heap; rs_store := initial_state None |} in
  exists s rs1,
    readBooksFile_ref rs = (Ok s, rs1) /\
    readBooksFile (rs_store rs) = (Ok (copy_books SAMPLE_BOOKS), rs_store rs1) /\
    copy_books SAMPLE_BOOKS = SAMPLE_BOOKS /\
    books_file (st_world (rs_store rs1)) = JSON_stringify SAMPLE_BOOKS /\
    persisted (rs_store rs1) = Some SAMPLE_BOOKS /\
    SAMPLE_BOOKS = js_of_books sample_records /\
    map book_id sample_records = [1; 2]%Z /\
    read (rs_heap rs1) s = Some SAMPLE_BOOKS /\
    (forall l, l ∈ reachable (rs_heap rs1) s -> (length (rs_heap rs) <= l)%nat) /\
    rs_heap rs `prefix_of` rs_heap rs1 /\
    forall h' st',
      mutated (reachable (rs_heap rs1) s) (rs_heap rs1) h' ->
      calm (st_world st') -> idle st' ->
      books_file (st_world st') = books_file (st_world (rs_store rs1)) \/
      books_file (st_world st') = None ->
      exists s' rs2,
        readBooksFile_ref {| rs_heap := h'; rs_store := st' |} = (Ok s', rs2) /\
        read (rs_heap rs2) s' = Some SAMPLE_BOOKS /\
        readBooksFile st' = (Ok SAMPLE_BOOKS, rs_store rs2).
Proof.
  apply (first_load_seeds_a_fresh_copy
           {| rs_heap := initial_heap; rs_store := initial_state None |}).
  - intros l _. reflexivity.
  - reflexivity.
  - exists (Ok tt). reflexivity.
  - reflexivity.
Defined.

(** A file that holds the text abc. *)
Lemma invalid_json_is_reported_witness :
  let st := initial_state (Some (txt "abc")) in
  let st' := with_world (after_read (st_world st)) st in
  let answer := respond 500 (error_body "Books file contains invalid JSON") in
  readBooksFile st = (Err SyntaxError, st') /\
  get_books st = (answer, st') /\
  books_file (st_world st') = Some (txt "abc").
Proof.
  destruct (invalid_json_is_reported (txt "abc")
              (initial_state (Some (txt "abc"))))
    as (Hload & _ & Hfile & _ & _ & Hget & _).
  - reflexivity.
  - reflexivity.
  - vm_compute. reflexivity.
  - split_and!; [exact Hload|exact Hget|exact Hfile].
Defined.

(** Record 1 of the seeded file is marked unavailable. *)
Lemma partial_update_frame_witness :
  let req_body := JObj [(k_available, JBool false)] in
  let r := put_book (txt "1") req_body seeded_state in
  exists items i book st1,
    readBooksFile seeded_state = (Ok (JArr items), st1) /\
    items !! i = Some book /\
    get_prop k_title (body r.1) = get_prop k_title book /\
    get_prop k_author (body r.1) = get_prop k_author book /\
    get_prop k_available (body r.1) = JBool false /\
    books_file (st_world r.2) = JSON_stringify (JArr (<[i := body r.1]> items)) /\
    (forall j, j <> i -> (<[i := body r.1]> items) !! j = items !! j).
Proof.
  intros req_body r.
  destruct (partial_update_frame (txt "1") req_body seeded_state r.1 r.2)
    as (items & i & book & st1 & Hload & Hi & _ & _ & Ht & Ha & Hav & _ &
        Hfile & _ & Hrest).
  - vm_compute. reflexivity.
  - vm_compute. reflexivity.
  - exists items, i, book, st1.
    split_and!; [exact Hload|exact Hi|exact Ht|exact Ha|exact Hav|exact Hfile|
                 exact Hrest].
Defined.


(** The path segments abc and -1 are invalid ids; 99 is the id of no
    sample record. *)
Lemma invalid_id_400_unknown_id_404_witness :
  delete_book (txt "abc") seeded_state
  = (respond 400 (error_body "Invalid id"), seeded_state) /\
  put_book (txt "-1") (JObj (payload "X" "Y")) seeded_state
  = (respond 400 (error_body "Invalid id"), seeded_state) /\
  put_book (txt "99") (JObj []) seeded_state = (no_field_answer, seeded_state) /\
  status (delete_book (txt "99") seeded_state).1 = 404%Z /\
  status (put_book (txt "99") (JObj (payload "X" "Y")) seeded_state).1 = 404%Z.
Proof.
  split_and!.
  - apply (proj1 (invalid_id_400_unknown_id_404 (txt "abc") JUndefined
                    seeded_state eq_refl)).
    reflexivity.
  - apply (proj1 (invalid_id_400_unknown_id_404 (txt "-1")
                    (JObj (payload "X" "Y")) seeded_state eq_refl)).
    reflexivity.
  - apply (proj1 (proj2 (invalid_id_400_unknown_id_404 (txt "99") (JObj [])
                           seeded_state eq_refl)) eq_refl).
    + split; discriminate.
    + reflexivity.
  - destruct (proj2 (proj1 (proj2 (invalid_id_400_unknown_id_404 (txt "99")
                       (JObj (payload "X" "Y")) seeded_state eq_refl)) eq_refl)
                (match SAMPLE_BOOKS with JArr items => items | _ => [] end)
                (with_world (after_read (st_world seeded_state)) seeded_state))
      as (Hdel & _).
    + vm_compute. reflexivity.
    + reflexivity.
    + repeat constructor; discriminate.
    + rewrite Hdel. reflexivity.
  - destruct (proj2 (proj1 (proj2 (invalid_id_400_unknown_id_404 (txt "99")
                       (JObj (payload "X" "Y")) seeded_state eq_refl)) eq_refl)
                (match SAMPLE_BOOKS with JArr items => items | _ => [] end)
                (with_world (after_read (st_world seeded_state)) seeded_state))
      as (_ & Hput & _).
    + vm_compute. reflexivity.
    + reflexivity.
    + repeat constructor; discriminate.
    + rewrite (Hput eq_refl). reflexivity.
Defined.


(** * Further properties of the handlers *)

(** ** The read handlers *)

Lemma filter_available_readable items st :
  Forall readable items ->
  filter_available items st = (Ok (List.filter available_true items), st).
Proof.
  induction 1 as [|b r [Hn Hu] Hr IH]; [done|].
  cbn [filter_available List.filter]. unfold bind.
  rewrite member_defined by done. rewrite IH. unfold available_true.
  by destruct (get_prop k_available b) as [| |[|]| | | |].
Qed.

(** X1: on a file that holds a JSON array whose items are not null,
    GET /books/available answers 200 with exactly the items whose
    available property is the boolean true (a truthy value that is not
    the boolean, such as 1 or the text true, does not count), in the
    order of the file; only the read is performed, so the file is
    unchanged. *)
Theorem available_lists_the_true_flags (raw : text) (items : list jsval)
    (st : state) :
  calm (st_world st) ->
  books_file (st_world st) = Some raw ->
  JSON_parse raw = Some (JArr items) ->
  Forall readable items ->
  let st' := with_world (after_read (st_world st)) st in
  get_available st
  = (respond 200 (JArr (List.filter available_true items)), st') /\
  books_file (st_world st') = Some raw /\
  log (st_world st') = log (st_world st) ++ read_events None.
Proof.
  intros Hc Hf Hp Hr st'. split_and!.
  - unfold get_available, handle, bind.
    rewrite (readBooksFile_calm raw) by done. rewrite Hp.
    cbn [as_array ret]. by rewrite filter_available_readable.
  - cbn. exact Hf.
  - cbn. by rewrite Hf.
Qed.

(** ** What a handler can answer *)

Lemma post_books_answers req_body st resp st' :
  post_books req_body st = (resp, st') ->
  (status resp = 400%Z /\ st' = st) \/ status resp = 201%Z \/
  status resp = 500%Z.
Proof.
  unfold post_books, handle, bind.
  destruct (member k_title req_body st) as [[title|e] s1] eqn:Hm.
  2:{ intros [= <- <-]. rewrite status_error_handler. auto. }
  assert (Hr : readable req_body) by (by destruct req_body).
  destruct Hr as [Hn Hu].
  rewrite member_defined in Hm by done. injection Hm as <- <-.
  rewrite !member_defined by done.
  destruct (negb _ || negb _).
  { intros [= <- <-]. left. by split. }
  destruct (readBooksFile st) as [[books|e] s1].
  2:{ intros [= <- <-]. rewrite status_error_handler. auto. }
  destruct (as_array books s1) as [[items|e] s2].
  2:{ intros [= <- <-]. rewrite status_error_handler. auto. }
  destruct (max_id items (Int 0) s2) as [[maxId|e] s3].
  2:{ intros [= <- <-]. rewrite status_error_handler. auto. }
  destruct (writeBooksFile _ s3) as [[u|e] s4].
  2:{ intros [= <- <-]. rewrite status_error_handler. auto. }
  intros [= <- <-]. auto.
Qed.

Lemma put_book_answers seg req_body st resp st' :
  put_book seg req_body st = (resp, st') ->
  (status resp = 400%Z /\ st' = st) \/ status resp = 200%Z \/
  status resp = 404%Z \/ status resp = 500%Z.
Proof.
  unfold put_book, handle, bind.
  destruct (invalid_id (StringToNumber seg)).
  { intros [= <- <-]. left. by split. }
  destruct (member k_title req_body st) as [[title|e] s1] eqn:Hm.
  2:{ intros [= <- <-]. rewrite status_error_handler. auto. }
  assert (Hr : readable req_body) by (by destruct req_body).
  destruct Hr as [Hn Hu].
  rewrite member_defined in Hm by done. injection Hm as <- <-.
  rewrite !member_defined by done.
  destruct (_ && _).
  { intros [= <- <-]. left. by split. }
  destruct (readBooksFile st) as [[books|e] s1].
  2:{ intros [= <- <-]. rewrite status_error_handler. auto. }
  destruct (as_array books s1) as [[items|e] s2].
  2:{ intros [= <- <-]. rewrite status_error_handler. auto. }
  destruct (findIndex _ items O s2) as [[[i|]|e] s3].
  3:{ intros [= <- <-]. rewrite status_error_handler. auto. }
  2:{ intros [= <- <-]. auto. }
  destruct (writeBooksFile _ s3) as [[u|e] s4].
  2:{ intros [= <- <-]. rewrite status_error_handler. auto. }
  intros [= <- <-]. auto.
Qed.

Lemma delete_book_answers seg st resp st' :
  delete_book seg st = (resp, st') ->
  (status resp = 400%Z /\ st' = st) \/ status resp = 200%Z \/
  status resp = 404%Z \/ status resp = 500%Z.
Proof.
  unfold delete_book, handle, bind.
  destruct (invalid_id (StringToNumber seg)).
  { intros [= <- <-]. left. by split. }
  destruct (readBooksFile st) as [[books|e] s1].
  2:{ intros [= <- <-]. rewrite status_error_handler. auto. }
  destruct (as_array books s1) as [[items|e] s2].
  2:{ intros [= <- <-]. rewrite status_error_handler. auto. }
  destruct (findIndex _ items O s2) as [[[i|]|e] s3].
  3:{ intros [= <- <-]. rewrite status_error_handler. auto. }
  2:{ intros [= <- <-]. auto. }
  destruct (writeBooksFile _ s3) as [[u|e] s4].
  2:{ intros [= <- <-]. rewrite status_error_handler. auto. }
  intros [= <- <-]. auto.
Qed.

Lemma get_books_answers st :
  status (get_books st).1 = 200%Z \/ status (get_books st).1 = 500%Z.
Proof.
  unfold get_books, handle, bind.
  destruct (readBooksFile st) as [[books|e] s1]; cbn.
  - by left.
  - right. apply status_error_handler.
Qed.

Lemma get_available_answers st :
  status (get_available st).1 = 200%Z \/ status (get_available st).1 = 500%Z.
Proof.
  unfold get_available, handle, bind.
  destruct (readBooksFile st) as [[books|e] s1]; cbn.
  2:{ right. apply status_error_handler. }
  destruct (as_array books s1) as [[items|e] s2]; cbn.
  2:{ right. apply status_error_handler. }
  destruct (filter_available items s2) as [[l|e] s3]; cbn.
  - by left.
  - right. apply status_error_handler.
Qed.

(** X2: whatever the request, the contents of the files and the outcomes
    of the storage operations, the listings answer 200 or 500, create
    answers 201, 400 or 500, and update and delete answer 200, 400, 404 or
    500: every failure that is not a validation error or an unknown id,
    thrown at any point of a handler, ends in the error handler and is
    answered 500. *)
Theorem handlers_answer_known_statuses (seg : text) (req_body : jsval)
    (st : state) :
  (status (get_books st).1 = 200 \/ status (get_books st).1 = 500)%Z /\
  (status (get_available st).1 = 200 \/
   status (get_available st).1 = 500)%Z /\
  (status (post_books req_body st).1 = 201 \/
   status (post_books req_body st).1 = 400 \/
   status (post_books req_body st).1 = 500)%Z /\
  (status (put_book seg req_body st).1 = 200 \/
   status (put_book seg req_body st).1 = 400 \/
   status (put_book seg req_body st).1 = 404 \/
   status (put_book seg req_body st).1 = 500)%Z /\
  (status (delete_book seg st).1 = 200 \/
   status (delete_book seg st).1 = 400 \/
   status (delete_book seg st).1 = 404 \/
   status (delete_book seg st).1 = 500)%Z.
Proof.
  split_and!.
  - apply get_books_answers.
  - apply get_available_answers.
  - destruct (post_books req_body st) as [resp st'] eqn:H.
    apply post_books_answers in H as [[H _]|[H|H]]; cbn; auto.
  - destruct (put_book seg req_body st) as [resp st'] eqn:H.
    apply put_book_answers in H as [[H _]|[H|[H|H]]]; cbn; auto.
  - destruct (delete_book seg st) as [resp st'] eqn:H.
    apply delete_book_answers in H as [[H _]|[H|[H|H]]]; cbn; auto.
Qed.

(** X3: a request that create, update or delete answers with 400 has
    touched nothing: validation comes before any access to the store, so
    no file is read or written, nothing is added to the write queue and
    the state is the one before the request. *)
Theorem validation_error_touches_nothing (seg : text) (req_body : jsval)
    (st : state) :
  (status (post_books req_body st).1 = 400%Z ->
     (post_books req_body st).2 = st) /\
  (status (put_book seg req_body st).1 = 400%Z ->
     (put_book seg req_body st).2 = st) /\
  (status (delete_book seg st).1 = 400%Z ->
     (delete_book seg st).2 = st).
Proof.
  split_and!.
  - destruct (post_books req_body st) as [resp st'] eqn:H. cbn.
    apply post_books_answers in H as [[_ H]|[H|H]]; [done|..];
      rewrite H; discriminate.
  - destruct (put_book seg req_body st) as [resp st'] eqn:H. cbn.
    apply put_book_answers in H as [[_ H]|[H|[H|H]]]; [done|..];
      rewrite H; discriminate.
  - destruct (delete_book seg st) as [resp st'] eqn:H. cbn.
    apply delete_book_answers in H as [[_ H]|[H|[H|H]]]; [done|..];
      rewrite H; discriminate.
Qed.

(** ** Failures of the load *)

Lemma handlers_on_failed_load st e st' :
  readBooksFile st = (Err e, st') ->
  get_books st = (error_handler e, st') /\
  get_available st = (error_handler e, st') /\
  (forall props,
     truthy (obj_get k_title props) = true ->
     truthy (obj_get k_author props) = true ->
     post_books (JObj props) st = (error_handler e, st')) /\
  (forall seg req_body,
     invalid_id (StringToNumber seg) = false ->
     supplies_field req_body = true ->
     put_book seg req_body st = (error_handler e, st')) /\
  (forall seg,
     invalid_id (StringToNumber seg) = false ->
     delete_book seg st = (error_handler e, st')).
Proof.
  intros Hload. split_and!.
  - unfold get_books, handle, bind. by rewrite Hload.
  - unfold get_available, handle, bind. by rewrite Hload.
  - intros props Ht Ha. rewrite post_books_valid by done.
    unfold handle, bind. by rewrite Hload.
  - intros seg req_body Hid Hs. unfold put_book, handle, bind. rewrite Hid.
    destruct (supplies_field_member req_body st Hs) as (-> & -> & ->).
    unfold supplies_field in Hs. apply negb_true_iff in Hs. rewrite Hs.
    by rewrite Hload.
  - intros seg Hid. unfold delete_book, handle, bind. by rewrite Hid, Hload.
Qed.

Lemma readFile_fault w e fs :
  faults w = Some e :: fs -> e <> ENOENT ->
  readFile w
  = (Err (SystemError e),
     {| books_file := books_file w; tmp_file := tmp_file w; faults := fs;
        log := log w ++ read_events (Some e) |}).
Proof.
  intros Hf He. unfold readFile, complete_read, issue, next_fault. cbn.
  rewrite Hf. cbn. destruct e; [done|..]; by rewrite <- app_assoc.
Qed.

(** X4: when the read of the file fails with an error other than ENOENT
    (no permission, an I/O error, ...), load throws that error after the
    one read: the file is not seeded, nothing is written and both files
    are as they were; every handler that loads answers 500 with the
    message 'Internal server error'. *)
Theorem other_read_errors_are_propagated (e : errno) (fs : list (option errno))
    (st : state) :
  faults (st_world st) = Some e :: fs -> e <> ENOENT ->
  let w := st_world st in
  let st' :=
    with_world {| books_file := books_file w; tmp_file := tmp_file w;
                  faults := fs; log := log w ++ read_events (Some e) |} st in
  readBooksFile st = (Err (SystemError e), st') /\
  get_books st = (internal_error, st') /\
  get_available st = (internal_error, st') /\
  (forall props,
     truthy (obj_get k_title props) = true ->
     truthy (obj_get k_author props) = true ->
     post_books (JObj props) st = (internal_error, st')) /\
  (forall seg req_body,
     invalid_id (StringToNumber seg) = false ->
     supplies_field req_body = true ->
     put_book seg req_body st = (internal_error, st')) /\
  (forall seg,
     invalid_id (StringToNumber seg) = false ->
     delete_book seg st = (internal_error, st')).
Proof.
  intros Hf He w st'.
  assert (Hload : readBooksFile st = (Err (SystemError e), st')).
  { unfold readBooksFile. rewrite (readFile_fault _ e fs) by done.
    by destruct e. }
  assert (Hmsg : error_handler (SystemError e) = internal_error).
  { by destruct e. }
  split; [exact Hload|]. rewrite <- Hmsg.
  by apply handlers_on_failed_load.
Qed.

Lemma as_array_other v st :
  is_array v = false -> as_array v st = (Err TypeError, st).
Proof. by destruct v. Qed.

(** X5: when the file holds valid JSON that is not an array (an object, a
    number, a text, null, ...), GET /books answers 200 with that value as
    it is, while the handlers that use the collection as an array
    (available, create, update, delete) answer 500 'Internal server
    error'; in each case only the read is performed and the file is
    unchanged. *)
Theorem not_an_array_is_an_internal_error (raw : text) (v : jsval)
    (st : state) :
  calm (st_world st) ->
  books_file (st_world st) = Some raw ->
  JSON_parse raw = Some v ->
  is_array v = false ->
  let st' := with_world (after_read (st_world st)) st in
  get_books st = (respond 200 v, st') /\
  get_available st = (internal_error, st') /\
  (forall props,
     truthy (obj_get k_title props) = true ->
     truthy (obj_get k_author props) = true ->
     post_books (JObj props) st = (internal_error, st')) /\
  (forall seg req_body,
     invalid_id (StringToNumber seg) = false ->
     supplies_field req_body = true ->
     put_book seg req_body st = (internal_error, st')) /\
  (forall seg,
     invalid_id (StringToNumber seg) = false ->
     delete_book seg st = (internal_error, st')) /\
  books_file (st_world st') = Some raw /\
  log (st_world st') = log (st_world st) ++ read_events None.
Proof.
  intros Hc Hf Hp Hv st'.
  assert (Hload : readBooksFile st = (Ok v, st')).
  { rewrite (readBooksFile_calm raw) by done. by rewrite Hp. }
  split_and!.
  - unfold get_books, handle, bind. by rewrite Hload.
  - unfold get_available, handle, bind. rewrite Hload.
    by rewrite as_array_other.
  - intros props Ht Ha. rewrite post_books_valid by done.
    unfold handle, bind. rewrite Hload. by rewrite as_array_other.
  - intros seg req_body Hid Hs. unfold put_book, handle, bind. rewrite Hid.
    destruct (supplies_field_member req_body st Hs) as (-> & -> & ->).
    unfold supplies_field in Hs. apply negb_true_iff in Hs. rewrite Hs.
    rewrite Hload. by rewrite as_array_other.
  - intros seg Hid. unfold delete_book, handle, bind. rewrite Hid, Hload.
    by rewrite as_array_other.
  - cbn. exact Hf.
  - cbn. by rewrite Hf.
Qed.


(** * Further properties of the store *)

(** ** A save under failures *)

Lemma writes_issued_app l1 l2 :
  writes_issued (l1 ++ l2) = (writes_issued l1 + writes_issued l2)%nat.
Proof.
  induction l1 as [|[[]|] r IH]; cbn; by rewrite ?IH.
Qed.

(** One call of the write closure: it issues the write once; it succeeds
    only by the rename, which puts the whole text in place; when it fails
    the file is the one before. *)
Lemma run_write_outcome books data w :
  JSON_stringify books = Some data ->
  writes_issued (log (run_write books w).2) = S (writes_issued (log w)) /\
  match (run_write books w).1 with
  | Ok _ => books_file (run_write books w).2 = Some data /\
            tmp_file (run_write books w).2 = None
  | Err _ => books_file (run_write books w).2 = books_file w
  end.
Proof.
  intros Hs. unfold run_write. rewrite Hs.
  unfold writeFile, complete_write, rename, complete_rename, issue, next_fault.
  cbn. destruct (faults w) as [|[e|] fs]; cbn.
  - rewrite !writes_issued_app. cbn. split; [lia|done].
  - rewrite !writes_issued_app. cbn. split; [lia|done].
  - destruct fs as [|[e|] fs']; cbn; rewrite !writes_issued_app; cbn;
      (split; [lia|done]).
Qed.

(** X6: a save never leaves a partly written collection in the file,
    whatever storage operations fail: when it reports success the file
    holds the whole text of the collection and the temporary file is gone;
    when it reports a failure the file holds what it held before the save.
    The file is only ever changed by the rename. *)
Theorem save_is_all_or_nothing (books : jsval) (data : text) (st : state) :
  idle st ->
  JSON_stringify books = Some data ->
  match (writeBooksFile books st).1 with
  | Ok _ =>
      books_file (st_world (writeBooksFile books st).2) = Some data /\
      tmp_file (st_world (writeBooksFile books st).2) = None
  | Err _ =>
      books_file (st_world (writeBooksFile books st).2)
      = books_file (st_world st)
  end.
Proof.
  intros [r Hq] Hs. unfold writeBooksFile, await_queue, enqueueWrite.
  cbn [writeQueue st_world]. rewrite Hq. cbn [settle].
  pose proof (run_write_outcome books data (st_world st) Hs) as [_ H1].
  destruct r as [u|e0].
  - destruct (run_write books (st_world st)) as [[v|e] w1] eqn:Hrun1;
      cbn [fst snd] in *; [exact H1|].
    pose proof (run_write_outcome books data w1 Hs) as [_ H2].
    destruct (run_write books w1) as [[v|e'] w2]; cbn [fst snd st_world] in *.
    + exact H2.
    + by rewrite H2.
  - destruct (run_write books (st_world st)) as [[v|e] w1];
      cbn [fst snd st_world] in *; exact H1.
Qed.

(** X7: how often a save is attempted depends on the save before it.
    After a save that succeeded (or none), the write closure is called
    once when it succeeds, and a second time when its first call fails,
    the result being that of the second call.  After a save that failed,
    the queue holds a rejected promise: the closure is called once only
    and its failure is the result. *)
Theorem save_attempts_depend_on_the_queue (books : jsval) (data : text)
    (st : state) :
  JSON_stringify books = Some data ->
  let w := st_world st in
  let first := run_write books w in
  let after := writeBooksFile books st in
  let attempts :=
    (writes_issued (log (st_world after.2)) - writes_issued (log w))%nat in
  (writeQueue st = Settled (Ok tt) -> first.1 = Ok tt ->
     after.1 = Ok tt /\ st_world after.2 = first.2 /\ attempts = 1%nat) /\
  (forall e, writeQueue st = Settled (Ok tt) -> first.1 = Err e ->
     after.1 = (run_write books first.2).1 /\
     st_world after.2 = (run_write books first.2).2 /\ attempts = 2%nat) /\
  (forall e0, writeQueue st = Settled (Err e0) ->
     after.1 = first.1 /\ st_world after.2 = first.2 /\ attempts = 1%nat).
Proof.
  intros Hs w first after attempts.
  pose proof (run_write_outcome books data w Hs) as [Hn1 _].
  fold first in Hn1.
  unfold attempts, after, writeBooksFile, await_queue, enqueueWrite.
  cbn [writeQueue st_world]. split_and!.
  - intros Hq Hfirst. rewrite Hq. cbn [settle]. fold w first.
    destruct first as [[[]|e] w1] eqn:Hrun; cbn [fst snd st_world] in *;
      [|done].
    split_and!; [done..|lia].
  - intros e Hq Hfirst. rewrite Hq. cbn [settle]. fold w first.
    destruct first as [[u|e'] w1] eqn:Hrun; cbn [fst snd st_world] in *;
      [done|].
    pose proof (run_write_outcome books data w1 Hs) as [Hn2 _].
    destruct (run_write books w1) as [[[]|e2] w2]; cbn [fst snd st_world] in *;
      (split_and!; [done..|lia]).
  - intros e0 Hq. rewrite Hq. cbn [settle]. fold w first.
    destruct first as [[[]|e] w1] eqn:Hrun; cbn [fst snd st_world] in *;
      (split_and!; [done..|lia]).
Qed.

(** ** Seeding that fails *)

Lemma readFile_missing w fs :
  books_file w = None -> faults w = None :: fs ->
  readFile w
  = (Err (SystemError ENOENT),
     {| books_file := None; tmp_file := tmp_file w; faults := fs;
        log := log w ++ read_events (Some ENOENT) |}).
Proof.
  intros Hb Hf. unfold readFile, complete_read, issue, next_fault. cbn.
  rewrite Hf, Hb. cbn. by rewrite <- app_assoc.
Qed.

Lemma run_write_fault books data w e fs :
  JSON_stringify books = Some data -> faults w = Some e :: fs ->
  run_write books w
  = (Err (SystemError e),
     {| books_file := books_file w; tmp_file := tmp_file w; faults := fs;
        log := log w ++ failed_write_events data e |}).
Proof.
  intros Hs Hf. unfold run_write. rewrite Hs.
  unfold writeFile, complete_write, issue, next_fault. cbn.
  rewrite Hf. cbn. by rewrite <- app_assoc.
Qed.

(** X8: when there is no file and the write of the seed fails, the write
    is attempted a second time; when that fails too, load throws the
    error of the second attempt and no file has been created.  Every
    handler that loads then answers 500, with the message 'Books file
    missing and could not be created' only when that error is itself
    ENOENT, and 'Internal server error' for any other error. *)
Theorem failed_seeding_is_reported (e1 e2 : errno) (fs : list (option errno))
    (st : state) :
  books_file (st_world st) = None ->
  writeQueue st = Settled (Ok tt) ->
  faults (st_world st) = None :: Some e1 :: Some e2 :: fs ->
  let w := st_world st in
  let data := ser [] SAMPLE_BOOKS in
  let st' :=
    {| st_world :=
         {| books_file := None; tmp_file := tmp_file w; faults := fs;
            log := ((log w ++ read_events (Some ENOENT))
                    ++ failed_write_events data e1)
                   ++ failed_write_events data e2 |};
       writeQueue := Settled (Err (SystemError e2)) |} in
  readBooksFile st = (Err (SystemError e2), st') /\
  get_books st = (error_handler (SystemError e2), st') /\
  (e2 = ENOENT ->
     error_handler (SystemError e2)
     = respond 500 (error_body "Books file missing and could not be created")) /\
  (e2 <> ENOENT -> error_handler (SystemError e2) = internal_error).
Proof.
  intros Hb Hq Hf w data st'.
  assert (Hs : JSON_stringify SAMPLE_BOOKS = Some data).
  { apply stringify_array. }
  assert (Hload : readBooksFile st = (Err (SystemError e2), st')).
  { unfold readBooksFile.
    rewrite (readFile_missing _ (Some e1 :: Some e2 :: fs)) by done.
    cbn [code_is_ENOENT]. unfold bind, writeBooksFile, await_queue, enqueueWrite.
    cbn [writeQueue st_world]. rewrite Hq. cbn [settle].
    rewrite (run_write_fault _ data _ e1 (Some e2 :: fs)) by done.
    by rewrite (run_write_fault _ data _ e2 fs) by done. }
  split_and!.
  - exact Hload.
  - by apply handlers_on_failed_load.
  - by intros ->.
  - intros He. by destruct e2.
Qed.

(** ** Values that are not book records *)

Lemma safe_value_array items :
  safe_value (JArr items) = forallb safe_value items.
Proof. reflexivity. Qed.

Lemma safe_value_object props :
  safe_value (JObj props) =
  plain_keys (map fst props) && forallb (fun kv => safe_value kv.2) props.
Proof.
  cbn [safe_value]. f_equal.
  induction props as [|[k x] r IH]; [done|]. cbn in *. by rewrite IH.
Qed.

(** A value whose numbers are safe integers is written and read back. *)
Lemma safe_value_storable v : safe_value v = true -> storable v = true.
Proof.
  induction v as [| |b|n|s|items IH|props IH] using jsval_induction;
    try done.
  - destruct n as [| |z|]; try done. cbn. intros Hz.
    apply Z.leb_le in Hz. apply Z.ltb_lt.
    pose proof safe_below_print_limit. lia.
  - rewrite safe_value_array, storable_array.
    induction IH as [|x r Hx Hr IHr]; [done|]. cbn [forallb].
    intros H. apply andb_prop in H as [H1 H2].
    by rewrite (Hx H1), (IHr H2).
  - rewrite safe_value_object, storable_object.
    intros H. apply andb_prop in H as [Hk H]. rewrite Hk. cbn [andb].
    induction IH as [|[k x] r Hx Hr IHr]; [done|]. cbn [forallb snd] in *.
    apply andb_prop in H as [H1 H2].
    rewrite (Hx H1). cbn [andb]. apply IHr; [|exact H2].
    clear -Hk. cbn [map fst plain_keys] in Hk.
    destruct (array_index k); [done|]. by apply andb_prop in Hk as [_ Hk].
Qed.

(** X9: save and load keep every JSON value that is made of null,
    booleans, texts, safe integers, arrays, and objects whose keys are
    pairwise distinct and are not array indices: a collection whose
    records carry further properties, or nested values, is loaded back as
    it was saved, the properties in the same order. *)
Theorem any_stored_value_is_loaded_back (v : jsval) (st : state) :
  calm (st_world st) -> idle st -> safe_value v = true ->
  exists st1 st2,
    writeBooksFile v st = (Ok tt, st1) /\
    books_file (st_world st1) = JSON_stringify v /\
    readBooksFile st1 = (Ok v, st2) /\
    get_books st1 = (respond 200 v, st2).
Proof.
  intros Hc Hi Hv. apply safe_value_storable in Hv.
  destruct (save_then_load_storable v st Hc Hi Hv) as (st1 & st2 & Hsave & Hload).
  exists st1, st2. split_and!; [exact Hsave| |exact Hload|].
  - by apply writeBooksFile_ok in Hsave as [-> _].
  - unfold get_books, handle, bind. by rewrite Hload.
Qed.


(** * Delete, and how the operations compose *)

(** ** Delete *)

(** X10: a successful delete (status 200) found the first record whose id
    is the requested one in the loaded collection; it answers with the
    message 'Deleted' and that record, and saves the loaded collection
    without it: the records before it and after it are kept, in their
    order. *)
Theorem delete_removes_the_first_match (seg : text) (st : state)
    (resp : response) (st' : state) :
  delete_book seg st = (resp, st') ->
  status resp = 200%Z ->
  let id := StringToNumber seg in
  exists items i book st1,
    readBooksFile st = (Ok (JArr items), st1) /\
    items !! i = Some book /\
    id_is id (get_prop k_id book) = true /\
    (forall j b, (j < i)%nat -> items !! j = Some b ->
                 id_is id (get_prop k_id b) = false) /\
    body resp = deleted_body book /\
    books_file (st_world st')
    = JSON_stringify (JArr (take i items ++ drop (S i) items)) /\
    S (length (take i items ++ drop (S i) items)) = length items.
Proof.
  intros Hdel H200 id.
  unfold delete_book, handle in Hdel. fold id in Hdel.
  destruct (invalid_id id).
  { injection Hdel as <- _. done. }
  unfold bind in Hdel.
  destruct (readBooksFile st) as [[books|e] st1] eqn:Hload.
  2:{ injection Hdel as <- _. by rewrite status_error_handler in H200. }
  destruct books as [| | | | |items|]; cbn [as_array throw ret] in Hdel;
    try (injection Hdel as <- _; by rewrite status_error_handler in H200).
  destruct (findIndex id items 0 st1) as [[[i|]|e] st2] eqn:Hfind.
  2:{ injection Hdel as <- _. done. }
  2:{ injection Hdel as <- _. by rewrite status_error_handler in H200. }
  apply findIndex_pure in Hfind as Hst. subst st2.
  apply findIndex_some in Hfind as (j & book & -> & Hj & Hid & Hfirst).
  cbn [Nat.add] in Hdel. rewrite Hj in Hdel. cbn [default] in Hdel.
  destruct (writeBooksFile _ st1) as [[u|e] st3] eqn:Hsave.
  2:{ injection Hdel as <- _. by rewrite status_error_handler in H200. }
  injection Hdel as <- <-. cbn [body respond].
  apply writeBooksFile_ok in Hsave as [Hfile _].
  rewrite delete_take_drop in Hfile.
  exists items, j, book, st1. split_and!; try done.
  apply lookup_lt_Some in Hj.
  rewrite length_app, length_take, length_drop. lia.
Qed.

(** ** Typed collections *)

Lemma index_of_None z bs : index_of z bs = None <-> z ∉ map book_id bs.
Proof.
  induction bs as [|b r IH]; cbn.
  - split; [intros _; apply not_elem_of_nil|done].
  - rewrite not_elem_of_cons. destruct (Z.eqb_spec (book_id b) z) as [Heq|Hne].
    + split; [done|]. by intros [? _].
    + destruct (index_of z r) as [j|]; cbn.
      * split; [done|]. intros [_ Hr]. by apply IH in Hr.
      * split; [|done]. intros _. split; [done|]. by apply IH.
Qed.

Lemma index_of_delete z bs i :
  NoDup (map book_id bs) -> index_of z bs = Some i ->
  index_of z (delete i bs) = None.
Proof.
  revert i. induction bs as [|b r IH]; intros i Hnd; [done|].
  cbn [index_of map] in *. apply NoDup_cons in Hnd as [Hb Hr].
  destruct (Z.eqb_spec (book_id b) z) as [Heq|Hne].
  - intros [= <-]. change (delete 0%nat (b :: r)) with r.
    apply index_of_None. by rewrite <- Heq.
  - destruct (index_of z r) as [j|] eqn:Hj; [|done].
    cbn [fmap option_fmap option_map]. intros [= <-].
    change (delete (S j) (b :: r)) with (b :: delete j r). cbn [index_of].
    destruct (Z.eqb_spec (book_id b) z); [done|].
    by rewrite (IH j Hr eq_refl).
Qed.

Lemma index_of_insert z bs i b' :
  index_of z bs = Some i -> book_id b' = z ->
  index_of z (<[i := b']> bs) = Some i.
Proof.
  revert i. induction bs as [|b r IH]; intros i; [done|]. cbn [index_of].
  destruct (Z.eqb_spec (book_id b) z) as [Heq|Hne].
  - intros [= <-] Hb'. change (<[0%nat := b']> (b :: r)) with (b' :: r).
    cbn [index_of]. by rewrite Hb', Z.eqb_refl.
  - destruct (index_of z r) as [j|] eqn:Hj; [|done].
    cbn [fmap option_fmap option_map]. intros [= <-] Hb'.
    change (<[S j := b']> (b :: r)) with (b :: <[j := b']> r). cbn [index_of].
    destruct (Z.eqb_spec (book_id b) z); [done|].
    by rewrite (IH j eq_refl Hb').
Qed.

Lemma index_of_snoc z bs nb :
  z ∉ map book_id bs -> book_id nb = z ->
  index_of z (bs ++ [nb]) = Some (length bs).
Proof.
  intros Hz Hnb. induction bs as [|b r IH]; cbn.
  - by rewrite Hnb, Z.eqb_refl.
  - cbn in Hz. apply not_elem_of_cons in Hz as [Hne Hr].
    destruct (Z.eqb_spec (book_id b) z); [done|]. by rewrite IH.
Qed.

Lemma lookup_js_of_book bs i b :
  bs !! i = Some b -> map js_of_book bs !! i = Some (js_of_book b).
Proof.
  intros Hb. change (map js_of_book bs) with (js_of_book <$> bs).
  by rewrite list_lookup_fmap, Hb.
Qed.

(** Delete of a record that is in a typed collection. *)
Lemma delete_found seg st bs z i b :
  calm (st_world st) -> idle st ->
  persisted st = Some (js_of_books bs) ->
  Forall (fun b => (Z.abs (book_id b) < 10 ^ 21)%Z) bs ->
  StringToNumber seg = Int z -> (0 < z)%Z ->
  index_of z bs = Some i -> bs !! i = Some b ->
  delete_book seg st
  = (respond 200 (deleted_body (js_of_book b)),
     settled_ok (after_save (ser [] (js_of_books (delete i bs)))
                   (after_read (st_world st)))).
Proof.
  intros Hc Hi Hp Hids Hz Hpos Hidx Hb. unfold delete_book, handle.
  rewrite Hz, invalid_id_positive by done. unfold bind.
  rewrite (load_persisted (js_of_books bs)) by done.
  cbn [js_of_books as_array ret]. rewrite findIndex_books, Hidx.
  cbn [fmap option_fmap option_map Nat.add].
  rewrite (lookup_js_of_book bs i b Hb). cbn [default id].
  assert (Hdel : delete i (map js_of_book bs) = map js_of_book (delete i bs)).
  { change (map js_of_book) with (fmap (M:=list) js_of_book).
    by rewrite list_fmap_delete. }
  rewrite Hdel. fold (js_of_books (delete i bs)).
  assert (Hst : storable (js_of_books (delete i bs)) = true).
  { apply storable_books. by apply Forall_delete. }
  rewrite save_storable; [|done|by apply idle_with_world|done].
  reflexivity.
Qed.

(** Delete and update of an id that is not in a typed collection. *)
Lemma delete_unknown seg st bs z :
  calm (st_world st) -> persisted st = Some (js_of_books bs) ->
  StringToNumber seg = Int z -> (0 < z)%Z -> index_of z bs = None ->
  delete_book seg st
  = (respond 404 (error_body "Book not found"),
     with_world (after_read (st_world st)) st).
Proof.
  intros Hc Hp Hz Hpos Hidx. unfold delete_book, handle.
  rewrite Hz, invalid_id_positive by done. unfold bind.
  rewrite (load_persisted (js_of_books bs)) by done.
  cbn [js_of_books as_array ret]. by rewrite findIndex_books, Hidx.
Qed.

Lemma update_unknown seg req_body st bs z :
  calm (st_world st) -> persisted st = Some (js_of_books bs) ->
  StringToNumber seg = Int z -> (0 < z)%Z -> index_of z bs = None ->
  supplies_field req_body = true ->
  put_book seg req_body st
  = (respond 404 (error_body "Book not found"),
     with_world (after_read (st_world st)) st).
Proof.
  intros Hc Hp Hz Hpos Hidx Hs. unfold put_book, handle.
  rewrite Hz, invalid_id_positive by done. unfold bind.
  destruct (supplies_field_member req_body st Hs) as (-> & -> & ->).
  unfold supplies_field in Hs. apply negb_true_iff in Hs. rewrite Hs.
  rewrite (load_persisted (js_of_books bs)) by done.
  cbn [js_of_books as_array ret]. by rewrite findIndex_books, Hidx.
Qed.

(** Assignments of any text to a typed record. *)
Lemma update_js_of_book_any title author available b :
  absent_or_any_text title -> absent_or_any_text author ->
  (let book1 := if is_undefined title then js_of_book b
                else set_prop k_title title (js_of_book b) in
   let book2 := if is_undefined author then book1
                else set_prop k_author author book1 in
   if is_undefined available then book2
   else set_prop k_available (JBool (truthy available)) book2)
  = js_of_book (updated title author available b).
Proof.
  intros [->|(t & ->)] [->|(a & ->)]; destruct b;
    unfold updated; destruct (is_undefined available); reflexivity.
Qed.

(** Update of a record that is in a typed collection. *)
Lemma update_found seg req_body st bs z i b :
  calm (st_world st) -> idle st ->
  persisted st = Some (js_of_books bs) ->
  Forall (fun b => (Z.abs (book_id b) < 10 ^ 21)%Z) bs ->
  StringToNumber seg = Int z -> (0 < z)%Z ->
  index_of z bs = Some i -> bs !! i = Some b ->
  supplies_field req_body = true ->
  absent_or_any_text (get_prop k_title req_body) ->
  absent_or_any_text (get_prop k_author req_body) ->
  let b' := updated (get_prop k_title req_body) (get_prop k_author req_body)
              (get_prop k_available req_body) b in
  put_book seg req_body st
  = (respond 200 (js_of_book b'),
     settled_ok (after_save (ser [] (js_of_books (<[i := b']> bs)))
                   (after_read (st_world st)))).
Proof.
  intros Hc Hi Hp Hids Hz Hpos Hidx Hb Hs Ht Ha b'. unfold put_book, handle.
  rewrite Hz, invalid_id_positive by done. unfold bind.
  destruct (supplies_field_member req_body st Hs) as (-> & -> & ->).
  unfold supplies_field in Hs. apply negb_true_iff in Hs. rewrite Hs.
  rewrite (load_persisted (js_of_books bs)) by done.
  cbn [js_of_books as_array ret]. rewrite findIndex_books, Hidx.
  cbn [fmap option_fmap option_map Nat.add].
  rewrite (lookup_js_of_book bs i b Hb). cbn [default id].
  pose proof (update_js_of_book_any _ _ (get_prop k_available req_body) b Ht Ha)
    as Hupd.
  cbv zeta in Hupd. cbv zeta. rewrite Hupd. fold b'.
  assert (Hins : <[i := js_of_book b']> (map js_of_book bs)
                 = map js_of_book (<[i := b']> bs)).
  { change (map js_of_book) with (fmap (M:=list) js_of_book).
    by rewrite list_fmap_insert. }
  rewrite Hins. fold (js_of_books (<[i := b']> bs)).
  assert (Hst : storable (js_of_books (<[i := b']> bs)) = true).
  { apply storable_books, storable_ids_insert; [done|].
    intros b0 Hb0. rewrite Hb in Hb0. by injection Hb0 as <-. }
  rewrite save_storable; [|done|by apply idle_with_world|done].
  reflexivity.
Qed.

(** ** Operations in sequence *)

Lemma after_save_typed bs w :
  Forall (fun b => (Z.abs (book_id b) < 10 ^ 21)%Z) bs ->
  let st := settled_ok (after_save (ser [] (js_of_books bs)) w) in
  calm (st_world st) /\ idle st /\ persisted st = Some (js_of_books bs).
Proof.
  intros Hids st. split_and!.
  - apply calm_after_save.
  - apply idle_settled_ok.
  - apply persisted_after_save. by apply storable_books.
Qed.

Lemma index_of_Some z bs :
  z ∈ map book_id bs ->
  exists i b, index_of z bs = Some i /\ bs !! i = Some b /\ book_id b = z.
Proof.
  intros Hz. destruct (index_of z bs) as [i|] eqn:Hidx.
  - destruct (index_of_lookup _ _ _ Hidx) as (b & Hb & Hid). by exists i, b.
  - by apply index_of_None in Hidx.
Qed.

(** X11: on a collection of book records with pairwise distinct ids that
    are safe integers, once
    the record with an id has been deleted (200, answered with that
    record), the id is unknown: a second delete and an update of the same
    id answer 404 'Book not found', and the listing returns the
    collection without the record, the others in their order. *)
Theorem deleted_record_is_gone (seg : text) (st : state) (bs : list book)
    (z : Z) :
  calm (st_world st) -> idle st ->
  persisted st = Some (js_of_books bs) ->
  safe_ids bs ->
  NoDup (map book_id bs) ->
  StringToNumber seg = Int z -> (0 < z)%Z ->
  z ∈ map book_id bs ->
  exists i b st1 st2,
    bs !! i = Some b /\ book_id b = z /\
    delete_book seg st = (respond 200 (deleted_body (js_of_book b)), st1) /\
    (z ∉ map book_id (delete i bs)) /\
    get_books st1 = (respond 200 (js_of_books (delete i bs)), st2) /\
    delete_book seg st1 = (respond 404 (error_body "Book not found"), st2) /\
    (forall req_body, supplies_field req_body = true ->
       put_book seg req_body st1
       = (respond 404 (error_body "Book not found"), st2)).
Proof.
  intros Hc Hi Hp Hsafe Hnd Hz Hpos Hin.
  pose proof (safe_ids_print bs Hsafe) as Hids.
  destruct (index_of_Some z bs Hin) as (i & b & Hidx & Hb & Hid).
  pose proof (index_of_delete z bs i Hnd Hidx) as Hgone.
  assert (Hids' : Forall (fun b => (Z.abs (book_id b) < 10 ^ 21)%Z) (delete i bs)).
  { by apply Forall_delete. }
  destruct (after_save_typed (delete i bs) (after_read (st_world st)) Hids')
    as (Hc1 & Hi1 & Hp1).
  eexists i, b, _, _. split_and!.
  - exact Hb.
  - exact Hid.
  - exact (delete_found seg st bs z i b Hc Hi Hp Hids Hz Hpos Hidx Hb).
  - by apply index_of_None.
  - unfold get_books, handle, bind.
    by rewrite (load_persisted (js_of_books (delete i bs)) _ Hc1 Hp1).
  - exact (delete_unknown seg _ (delete i bs) z Hc1 Hp1 Hz Hpos Hgone).
  - intros req_body Hs.
    exact (update_unknown seg req_body _ (delete i bs) z Hc1 Hp1 Hz Hpos Hgone Hs).
Qed.

(** X12: create followed by the delete of the id it assigned gives back
    the collection there was: the delete answers 200 with the record that
    create returned, and the file holds the records it held before the
    create, in the same order. *)
Theorem create_then_delete_restores_the_collection
    (props : list (text * jsval)) (seg : text) (st : state) (bs : list book)
    (t a : text) :
  calm (st_world st) -> idle st ->
  persisted st = Some (js_of_books bs) ->
  Forall (fun b => (0 < book_id b)%Z) bs ->
  (max_book_id bs < MAX_SAFE_INTEGER)%Z ->
  obj_get k_title props = JStr t -> t <> [] ->
  obj_get k_author props = JStr a -> a <> [] ->
  StringToNumber seg = Int (max_book_id bs + 1) ->
  let nb := created (max_book_id bs + 1) t a (obj_get k_available props) in
  exists st1 st2,
    post_books (JObj props) st = (respond 201 (js_of_book nb), st1) /\
    persisted st1 = Some (js_of_books (bs ++ [nb])) /\
    delete_book seg st1 = (respond 200 (deleted_body (js_of_book nb)), st2) /\
    persisted st2 = Some (js_of_books bs).
Proof.
  intros Hc Hi Hp Hpos Hmax Ht Htne Ha Hane Hz nb.
  assert (Hlim : (max_book_id bs + 1 < 10 ^ 21)%Z).
  { pose proof safe_below_print_limit. lia. }
  destruct (create_typed props st bs t a Hc Hi Hp Hpos Hlim Ht Htne Ha Hane)
    as (st1 & Hpost & Hc1 & Hi1 & Hp1). fold nb in Hpost, Hp1.
  pose proof (max_book_id_ge bs) as Hge.
  pose proof (max_book_id_nonneg bs) as Hnn.
  assert (Hids : Forall (fun b => (Z.abs (book_id b) < 10 ^ 21)%Z) bs).
  { apply Forall_forall. intros b Hb. rewrite Forall_forall in Hge, Hpos.
    specialize (Hge b Hb). specialize (Hpos b Hb). lia. }
  assert (Hids1 : Forall (fun b => (Z.abs (book_id b) < 10 ^ 21)%Z) (bs ++ [nb])).
  { apply Forall_app. split; [exact Hids|]. constructor; [|constructor].
    cbn [nb created book_id]. lia. }
  assert (Hnew : (max_book_id bs + 1)%Z ∉ map book_id bs).
  { intros Hin. change (map book_id bs) with (book_id <$> bs) in Hin.
    apply list_elem_of_fmap in Hin as (b & Hb & Hin).
    rewrite Forall_forall in Hge. specialize (Hge b Hin). lia. }
  assert (Hidx : index_of (max_book_id bs + 1) (bs ++ [nb]) = Some (length bs)).
  { by apply index_of_snoc. }
  assert (Hlook : (bs ++ [nb]) !! length bs = Some nb).
  { by rewrite list_lookup_middle. }
  assert (Hz1 : (0 < max_book_id bs + 1)%Z) by lia.
  pose proof (delete_found seg st1 (bs ++ [nb]) _ _ nb Hc1 Hi1 Hp1 Hids1 Hz Hz1
                Hidx Hlook) as Hdel.
  assert (Hback : delete (length bs) (bs ++ [nb]) = bs).
  { rewrite (delete_middle bs [] nb). apply app_nil_r. }
  rewrite Hback in Hdel.
  destruct (after_save_typed bs (after_read (st_world st1)) Hids)
    as (_ & _ & Hp2).
  eexists st1, _. split_and!; [exact Hpost|exact Hp1|exact Hdel|exact Hp2].
Qed.

Lemma updated_twice title author available b :
  updated title author available (updated title author available b)
  = updated title author available b.
Proof.
  unfold updated. cbn. f_equal.
  - by destruct title.
  - by destruct author.
  - by destruct (is_undefined available).
Qed.

(** X13: update is idempotent on a collection of book records whose ids
    are safe integers: the same update of an existing record (title and
    author text where supplied) applied a second time answers 200 with the
    same record, and saves the same collection as the first one. *)
Theorem update_is_idempotent (seg : text) (req_body : jsval) (st : state)
    (bs : list book) (z : Z) :
  calm (st_world st) -> idle st ->
  persisted st = Some (js_of_books bs) ->
  safe_ids bs ->
  StringToNumber seg = Int z -> (0 < z)%Z ->
  z ∈ map book_id bs ->
  supplies_field req_body = true ->
  absent_or_any_text (get_prop k_title req_body) ->
  absent_or_any_text (get_prop k_author req_body) ->
  exists resp st1 st2,
    put_book seg req_body st = (resp, st1) /\
    status resp = 200%Z /\
    put_book seg req_body st1 = (resp, st2) /\
    books_file (st_world st2) = books_file (st_world st1) /\
    persisted st2 = persisted st1.
Proof.
  intros Hc Hi Hp Hsafe Hz Hpos Hin Hs Ht Ha.
  pose proof (safe_ids_print bs Hsafe) as Hids.
  destruct (index_of_Some z bs Hin) as (i & b & Hidx & Hb & Hid).
  set (b' := updated (get_prop k_title req_body) (get_prop k_author req_body)
               (get_prop k_available req_body) b).
  pose proof (update_found seg req_body st bs z i b Hc Hi Hp Hids Hz Hpos Hidx
                Hb Hs Ht Ha) as Hput1.
  cbv zeta in Hput1. fold b' in Hput1.
  assert (Hids1 : Forall (fun b => (Z.abs (book_id b) < 10 ^ 21)%Z)
                    (<[i := b']> bs)).
  { apply storable_ids_insert; [exact Hids|].
    intros b0 Hb0. rewrite Hb in Hb0. by injection Hb0 as <-. }
  destruct (after_save_typed (<[i := b']> bs) (after_read (st_world st)) Hids1)
    as (Hc1 & Hi1 & Hp1).
  assert (Hidx1 : index_of z (<[i := b']> bs) = Some i).
  { by apply index_of_insert. }
  assert (Hb1 : <[i := b']> bs !! i = Some b').
  { apply list_lookup_insert_eq. by apply lookup_lt_Some in Hb. }
  pose proof (update_found seg req_body _ (<[i := b']> bs) z i b' Hc1 Hi1 Hp1
                Hids1 Hz Hpos Hidx1 Hb1 Hs Ht Ha) as Hput2.
  cbv zeta in Hput2.
  assert (Hupd : updated (get_prop k_title req_body) (get_prop k_author req_body)
                   (get_prop k_available req_body) b' = b').
  { apply updated_twice. }
  rewrite Hupd, list_insert_insert_eq in Hput2.
  eexists _, _, _. split_and!; [exact Hput1|reflexivity|exact Hput2|..];
    reflexivity.
Qed.


(** * The id of the path *)

(** X14: a path segment that is the decimal writing of a positive safe
    integer n denotes the id n and passes the id check of update and
    delete; the segment 0, and a decimal writing preceded by a minus sign,
    are rejected as invalid ids. *)
Theorem decimal_segment_denotes_its_id (n : N) :
  (Z.of_N n <= MAX_SAFE_INTEGER)%Z ->
  (0 < n ->
     StringToNumber (digits n) = Int (Z.of_N n) /\
     invalid_id (StringToNumber (digits n)) = false) /\
  invalid_id (StringToNumber (digits 0)) = true /\
  invalid_id (StringToNumber (45 :: digits n)) = true.
Proof.
  intros _. split_and!.
  - intros Hn. rewrite StringToNumber_digits by done. split; [done|].
    apply invalid_id_positive. lia.
  - reflexivity.
  - rewrite StringToNumber_minus. unfold invalid_id, num_leb. cbn.
    by destruct (Z.compare_spec (- Z.of_N n) 0); try lia.
Qed.


(** * Creates that overlap *)

(** The two parts of POST /books, one after the other, are the handler. *)
Lemma post_books_in_two_parts req_body st :
  post_books req_body st = post_books_commit (post_books_prepare req_body st).
Proof.
  unfold post_books, post_books_prepare, post_books_commit, handle, bind.
  destruct (member k_title req_body st) as [[title|e] s1]; [|done].
  destruct (member k_author req_body s1) as [[author|e] s2]; [|done].
  destruct (member k_available req_body s2) as [[available|e] s3]; [|done].
  destruct (negb (truthy title) || negb (truthy author)); [done|].
  destruct (readBooksFile s3) as [[books|e] s4]; [|done].
  destruct (as_array books s4) as [[items|e] s5]; [|done].
  destruct (max_id items (Int 0) s5) as [[maxId|e] s6]; [|done].
  reflexivity.
Qed.

Lemma post_books_prepare_typed props st bs t a :
  calm (st_world st) ->
  persisted st = Some (js_of_books bs) ->
  Forall (fun b => (0 < book_id b)%Z) bs ->
  obj_get k_title props = JStr t -> t <> [] ->
  obj_get k_author props = JStr a -> a <> [] ->
  let nb := created (max_book_id bs + 1) t a (obj_get k_available props) in
  post_books_prepare (JObj props) st
  = (Ok (Ready (map js_of_book (bs ++ [nb])) (js_of_book nb)),
     with_world (after_read (st_world st)) st).
Proof.
  intros Hc Hp Hpos Ht Htne Ha Hane nb.
  unfold post_books_prepare, bind. rewrite !member_object, Ht, Ha.
  assert (Hv : negb (truthy (JStr t)) || negb (truthy (JStr a)) = false).
  { by destruct t, a. }
  rewrite Hv. rewrite (load_persisted (js_of_books bs)) by done.
  cbn [js_of_books as_array ret]. rewrite max_id_books by done.
  fold (max_book_id bs). cbn [num_add]. rewrite available_or_true_eq.
  assert (Hnb : mk_book (JNum (Int (max_book_id bs + 1))) (JStr t) (JStr a)
                  (available_or_true (obj_get k_available props))
                = js_of_book nb).
  { unfold nb, created, js_of_book. cbn.
    by destruct (obj_get k_available props). }
  rewrite Hnb, map_app. reflexivity.
Qed.

(** X15: the load and the save of a create are not one step.  When a
    second create is received while the first awaits its load, both load
    the same collection: both answer 201 with the same id max + 1, the
    saves run one after the other, and the file ends with the collection
    of the second create only; the record of the first create, although
    answered 201, is not in the file. *)
Theorem overlapping_creates_lose_a_record
    (props1 props2 : list (text * jsval)) (st : state) (bs : list book)
    (t1 a1 t2 a2 : text) :
  calm (st_world st) -> idle st ->
  persisted st = Some (js_of_books bs) ->
  Forall (fun b => (0 < book_id b)%Z) bs ->
  (max_book_id bs < MAX_SAFE_INTEGER)%Z ->
  obj_get k_title props1 = JStr t1 -> t1 <> [] ->
  obj_get k_author props1 = JStr a1 -> a1 <> [] ->
  obj_get k_title props2 = JStr t2 -> t2 <> [] ->
  obj_get k_author props2 = JStr a2 -> a2 <> [] ->
  let id := (max_book_id bs + 1)%Z in
  let nb1 := created id t1 a1 (obj_get k_available props1) in
  let nb2 := created id t2 a2 (obj_get k_available props2) in
  exists st',
    overlapping_creates (JObj props1) (JObj props2) st
    = (respond 201 (js_of_book nb1), respond 201 (js_of_book nb2), st') /\
    persisted st' = Some (js_of_books (bs ++ [nb2])).
Proof.
  intros Hc Hi Hp Hpos Hmax Ht1 Hn1 Ha1 Hm1 Ht2 Hn2 Ha2 Hm2 id nb1 nb2.
  pose proof (max_book_id_ge bs) as Hge.
  pose proof (max_book_id_nonneg bs) as Hnn.
  assert (Hids : forall nb, book_id nb = id ->
            Forall (fun b => (Z.abs (book_id b) < 10 ^ 21)%Z) (bs ++ [nb])).
  { intros nb Hnb. pose proof safe_below_print_limit as Hlim.
    apply Forall_app. split.
    - apply Forall_forall. intros b Hb. rewrite Forall_forall in Hge, Hpos.
      specialize (Hge b Hb). specialize (Hpos b Hb). lia.
    - constructor; [|constructor]. rewrite Hnb. unfold id. lia. }
  unfold overlapping_creates.
  rewrite (post_books_prepare_typed props1 st bs t1 a1 Hc Hp Hpos Ht1 Hn1 Ha1 Hm1).
  fold id nb1.
  set (st1 := with_world (after_read (st_world st)) st).
  assert (Hc1 : calm (st_world st1)) by apply calm_after_read.
  assert (Hi1 : idle st1) by (by apply idle_with_world).
  assert (Hp1 : persisted st1 = Some (js_of_books bs)) by exact Hp.
  rewrite (post_books_prepare_typed props2 st1 bs t2 a2 Hc1 Hp1 Hpos Ht2 Hn2 Ha2 Hm2).
  fold id nb2.
  set (st2 := with_world (after_read (st_world st1)) st1).
  assert (Hc2 : calm (st_world st2)) by apply calm_after_read.
  assert (Hi2 : idle st2) by (by apply idle_with_world).
  unfold post_books_commit, handle, bind.
  fold (js_of_books (bs ++ [nb1])). fold (js_of_books (bs ++ [nb2])).
  rewrite (save_storable (js_of_books (bs ++ [nb1])) st2 Hc2 Hi2
             (storable_books _ (Hids nb1 eq_refl))).
  cbn [ret].
  set (st3 := settled_ok (after_save (ser [] (js_of_books (bs ++ [nb1])))
                            (st_world st2))).
  assert (Hc3 : calm (st_world st3)) by apply calm_after_save.
  assert (Hi3 : idle st3) by apply idle_settled_ok.
  rewrite (save_storable (js_of_books (bs ++ [nb2])) st3 Hc3 Hi3
             (storable_books _ (Hids nb2 eq_refl))).
  cbn [ret]. eexists. split; [reflexivity|].
  apply persisted_after_save, storable_books, (Hids nb2 eq_refl).
Qed.


(** * The further properties on the sample collection *)

(** Of the two sample records only the first is available. *)
Lemma available_lists_the_true_flags_witness :
  let items := match SAMPLE_BOOKS with JArr l => l | _ => [] end in
  let st' := with_world (after_read (st_world seeded_state)) seeded_state in
  get_available seeded_state
  = (respond 200 (JArr (List.filter available_true items)), st') /\
  books_file (st_world st') = Some (ser [] SAMPLE_BOOKS) /\
  log (st_world st') = log (st_world seeded_state) ++ read_events None.
Proof.
  apply (available_lists_the_true_flags (ser [] SAMPLE_BOOKS)
           (match SAMPLE_BOOKS with JArr l => l | _ => [] end) seeded_state).
  - reflexivity.
  - reflexivity.
  - vm_compute. reflexivity.
  - repeat constructor; discriminate.
Defined.

(** A create without title leaves the state as it was. *)
Lemma validation_error_touches_nothing_witness :
  (post_books (JObj []) seeded_state).2 = seeded_state /\
  (delete_book (txt "abc") seeded_state).2 = seeded_state.
Proof.
  split.
  - apply (proj1 (validation_error_touches_nothing (txt "abc") (JObj [])
                    seeded_state)).
    vm_compute. reflexivity.
  - apply (proj2 (proj2 (validation_error_touches_nothing (txt "abc") (JObj [])
                           seeded_state))).
    vm_compute. reflexivity.
Defined.

(** The read of the file fails with EIO. *)
Lemma other_read_errors_are_propagated_witness :
  let st := settled_ok (world_with (Some (txt "[]")) [Some EIO]) in
  (readBooksFile st).1 = Err (SystemError EIO) /\
  (get_books st).1 = internal_error /\
  books_file (st_world (get_books st).2) = Some (txt "[]").
Proof.
  intros st.
  destruct (other_read_errors_are_propagated EIO []
              (settled_ok (world_with (Some (txt "[]")) [Some EIO])))
    as (Hload & Hget & _).
  - reflexivity.
  - discriminate.
  - fold st in Hload, Hget. rewrite Hload, Hget. by split_and!.
Defined.

(** A file that holds an empty object. *)
Lemma not_an_array_is_an_internal_error_witness :
  let st := initial_state (Some (txt "{}")) in
  (get_books st).1 = respond 200 (JObj []) /\
  (get_available st).1 = internal_error /\
  (delete_book (txt "1") st).1 = internal_error.
Proof.
  intros st.
  destruct (not_an_array_is_an_internal_error (txt "{}") (JObj [])
              (initial_state (Some (txt "{}"))))
    as (Hget & Havail & _ & _ & Hdel & _).
  - reflexivity.
  - reflexivity.
  - vm_compute. reflexivity.
  - reflexivity.
  - fold st in Hget, Havail, Hdel.
    rewrite Hget, Havail, (Hdel (txt "1") eq_refl). by split_and!.
Defined.

(** Both attempts of a save fail: there is still no file. *)
Lemma save_is_all_or_nothing_witness :
  let st := settled_ok (world_with None [Some EIO; Some EIO]) in
  match (writeBooksFile SAMPLE_BOOKS st).1 with
  | Ok _ =>
      books_file (st_world (writeBooksFile SAMPLE_BOOKS st).2)
      = Some (ser [] SAMPLE_BOOKS) /\
      tmp_file (st_world (writeBooksFile SAMPLE_BOOKS st).2) = None
  | Err _ =>
      books_file (st_world (writeBooksFile SAMPLE_BOOKS st).2)
      = books_file (st_world st)
  end.
Proof.
  apply (save_is_all_or_nothing SAMPLE_BOOKS (ser [] SAMPLE_BOOKS)
           (settled_ok (world_with None [Some EIO; Some EIO]))).
  - exists (Ok tt). reflexivity.
  - reflexivity.
Defined.

(** A save after a failed save, its write failing: one attempt. *)
Lemma save_attempts_depend_on_the_queue_witness :
  let st := {| st_world := world_with None [Some EIO];
               writeQueue := Settled (Err (SystemError EIO)) |} in
  (writeBooksFile (JArr []) st).1 = Err (SystemError EIO) /\
  writes_issued (log (st_world (writeBooksFile (JArr []) st).2)) = 1%nat.
Proof.
  intros st.
  destruct (proj2 (proj2 (save_attempts_depend_on_the_queue (JArr [])
                            (txt "[]") st eq_refl))
              (SystemError EIO) eq_refl) as (Hr & _ & Hn).
  split; [exact Hr|]. vm_compute. reflexivity.
Defined.

(** Seeding fails with EIO and then with ENOENT. *)
Lemma failed_seeding_is_reported_witness :
  let st := settled_ok (world_with None [None; Some EIO; Some ENOENT]) in
  (readBooksFile st).1 = Err (SystemError ENOENT) /\
  (get_books st).1
  = respond 500 (error_body "Books file missing and could not be created") /\
  books_file (st_world (get_books st).2) = None.
Proof.
  intros st.
  destruct (failed_seeding_is_reported EIO ENOENT []
              (settled_ok (world_with None [None; Some EIO; Some ENOENT])))
    as (Hload & Hget & Hmsg & _).
  - reflexivity.
  - reflexivity.
  - reflexivity.
  - fold st in Hload, Hget. rewrite Hload, Hget, (Hmsg eq_refl).
    by split_and!.
Defined.

(** A record with a property the handlers do not know. *)
Lemma any_stored_value_is_loaded_back_witness :
  let v := JArr [JObj [(k_id, JNum (Int 1)); (k_title, JStr (txt "T"));
                       (txt "pages", JNum (Int 320))]] in
  exists st1 st2,
    writeBooksFile v (initial_state None) = (Ok tt, st1) /\
    books_file (st_world st1) = JSON_stringify v /\
    readBooksFile st1 = (Ok v, st2) /\
    get_books st1 = (respond 200 v, st2).
Proof.
  apply (any_stored_value_is_loaded_back
           (JArr [JObj [(k_id, JNum (Int 1)); (k_title, JStr (txt "T"));
                        (txt "pages", JNum (Int 320))]])
           (initial_state None)).
  - reflexivity.
  - exists (Ok tt). reflexivity.
  - vm_compute. reflexivity.
Defined.

(** The first sample record is deleted. *)
Lemma delete_removes_the_first_match_witness :
  let r := delete_book (txt "1") seeded_state in
  exists items i book st1,
    readBooksFile seeded_state = (Ok (JArr items), st1) /\
    items !! i = Some book /\
    body r.1 = deleted_body book /\
    books_file (st_world r.2)
    = JSON_stringify (JArr (take i items ++ drop (S i) items)).
Proof.
  intros r.
  destruct (delete_removes_the_first_match (txt "1") seeded_state r.1 r.2)
    as (items & i & book & st1 & Hload & Hi & _ & _ & Hbody & Hfile & _).
  - vm_compute. reflexivity.
  - vm_compute. reflexivity.
  - exists items, i, book, st1. by split_and!.
Defined.

Lemma sample_ids_safe : safe_ids sample_records.
Proof. unfold safe_ids, sample_records. repeat constructor; by vm_compute. Defined.

(** The first sample record is deleted, then asked for again. *)
Lemma deleted_record_is_gone_witness :
  exists i b st1 st2,
    sample_records !! i = Some b /\ book_id b = 1%Z /\
    delete_book (txt "1") seeded_state
    = (respond 200 (deleted_body (js_of_book b)), st1) /\
    (1%Z ∉ map book_id (delete i sample_records)) /\
    get_books st1 = (respond 200 (js_of_books (delete i sample_records)), st2) /\
    delete_book (txt "1") st1
    = (respond 404 (error_body "Book not found"), st2) /\
    (forall req_body, supplies_field req_body = true ->
       put_book (txt "1") req_body st1
       = (respond 404 (error_body "Book not found"), st2)).
Proof.
  apply (deleted_record_is_gone (txt "1") seeded_state sample_records 1).
  - reflexivity.
  - exists (Ok tt). reflexivity.
  - vm_compute. reflexivity.
  - exact sample_ids_safe.
  - apply (bool_decide_unpack _). vm_compute. reflexivity.
  - reflexivity.
  - reflexivity.
  - apply (bool_decide_unpack _). vm_compute. reflexivity.
Defined.

(** A record is created with the id 3 and deleted again. *)
Lemma create_then_delete_restores_the_collection_witness :
  let nb := created 3 (txt "X") (txt "Y") JUndefined in
  exists st1 st2,
    post_books (JObj (payload "X" "Y")) seeded_state
    = (respond 201 (js_of_book nb), st1) /\
    persisted st1 = Some (js_of_books (sample_records ++ [nb])) /\
    delete_book (txt "3") st1
    = (respond 200 (deleted_body (js_of_book nb)), st2) /\
    persisted st2 = Some (js_of_books sample_records).
Proof.
  apply (create_then_delete_restores_the_collection (payload "X" "Y")
           (txt "3") seeded_state sample_records (txt "X") (txt "Y")).
  - reflexivity.
  - exists (Ok tt). reflexivity.
  - vm_compute. reflexivity.
  - repeat constructor.
  - vm_compute. reflexivity.
  - reflexivity.
  - discriminate.
  - reflexivity.
  - discriminate.
  - reflexivity.
Defined.

(** The first sample record is marked unavailable twice. *)
Lemma update_is_idempotent_witness :
  let req_body := JObj [(k_available, JBool false)] in
  exists resp st1 st2,
    put_book (txt "1") req_body seeded_state = (resp, st1) /\
    status resp = 200%Z /\
    put_book (txt "1") req_body st1 = (resp, st2) /\
    books_file (st_world st2) = books_file (st_world st1) /\
    persisted st2 = persisted st1.
Proof.
  apply (update_is_idempotent (txt "1") (JObj [(k_available, JBool false)])
           seeded_state sample_records 1).
  - reflexivity.
  - exists (Ok tt). reflexivity.
  - vm_compute. reflexivity.
  - exact sample_ids_safe.
  - reflexivity.
  - reflexivity.
  - apply (bool_decide_unpack _). vm_compute. reflexivity.
  - reflexivity.
  - left. reflexivity.
  - left. reflexivity.
Defined.

(** The segments 42 and -42. *)
Lemma decimal_segment_denotes_its_id_witness :
  StringToNumber (txt "42") = Int 42 /\
  invalid_id (StringToNumber (txt "42")) = false /\
  invalid_id (StringToNumber (txt "-42")) = true.
Proof.
  destruct (decimal_segment_denotes_its_id 42) as (Hpos & _ & Hneg).
  - vm_compute. discriminate.
  - destruct (Hpos eq_refl) as [Hval Hok].
    split_and!; [exact Hval|exact Hok|exact Hneg].
Defined.

(** Two creates overlap on the seeded file: both get the id 3. *)
Lemma overlapping_creates_lose_a_record_witness :
  let nb1 := created 3 (txt "A") (txt "B") JUndefined in
  let nb2 := created 3 (txt "C") (txt "D") JUndefined in
  exists st',
    overlapping_creates (JObj (payload "A" "B")) (JObj (payload "C" "D"))
      seeded_state
    = (respond 201 (js_of_book nb1), respond 201 (js_of_book nb2), st') /\
    persisted st' = Some (js_of_books (sample_records ++ [nb2])).
Proof.
  apply (overlapping_creates_lose_a_record (payload "A" "B") (payload "C" "D")
           seeded_state sample_records (txt "A") (txt "B") (txt "C") (txt "D")).
  - reflexivity.
  - exists (Ok tt). reflexivity.
  - vm_compute. reflexivity.
  - repeat constructor.
  - vm_compute. reflexivity.
  - reflexivity.
  - discriminate.
  - reflexivity.
  - discriminate.
  - reflexivity.
  - discriminate.
  - reflexivity.
  - discriminate.
Defined.
